(** * pyanki: the batch coordinator and its deferred results

    A shallow embedding of [src/anki/batch.py] (classes [BatchManager] and
    [DeferredResult]) together with the part of [src/anki/connect.py] it
    calls ([Client.invoke_no_batch] / [AsyncClient.invoke_no_batch]).

    Python objects that are shared by reference (the asyncio futures and
    the [DeferredResult] handles) live in two stores indexed by object
    identity; the [BatchManager] fields hold identities, exactly as the
    Python lists hold references.  Methods become computations in a
    state-and-exception monad: a raised exception keeps every mutation
    performed before the [raise], as in Python.

    The asynchronous methods are modelled for a single task that runs to
    completion: a coroutine suspends only at the POST, and nothing else
    touches the coordinator meanwhile.  [assert] statements are executed
    (the interpreter runs without [-O]).

    The endpoint may answer with anything: no reply, an error status, a
    body that is not JSON, or any JSON value, whatever its shape.  Python
    resolves [len], [in], iteration and indexing by the type of the value
    at hand; the model does the same on the constructors of [json], and a
    value that has no such operation raises [TypeError] as in Python.
    Numbers are integers and a character of a string is one [ascii]. *)

From Stdlib Require Import ZArith.
From stdpp Require Import base tactics option list strings.

Open Scope string_scope.
Open Scope list_scope.
Set Warnings "-register-all".

(** ** JSON values and Python dictionaries *)

(** A [dict] keeps insertion order, as Python dictionaries do; its keys
    are distinct (a dictionary built by [**params] or decoded from JSON has
    each key once), so that [len] is the length of the list. *)
Inductive json : Type :=
| JNull
| JBool (b : bool)
| JNum (n : Z)
| JStr (s : string)
| JList (l : list json)
| JObj (d : list (string * json)).

Definition dict : Type := list (string * json).

Fixpoint dict_get (k : string) (d : dict) : option json :=
  match d with
  | [] => None
  | (k', v) :: d' => if String.eqb k k' then Some v else dict_get k d'
  end.

(** ** Exceptions ([src/anki/errors.py] and the built-in ones the code meets) *)

Inductive exn : Type :=
| APIException (arg : json)
| UnexpectedAPIResponse (msg : string)
| AssertionError
| InvalidStateError
| RuntimeError (msg : string)
| TypeError
| JSONDecodeError.

(** [isinstance(e, AnkiAPIException)]: [UnexpectedAPIResponse] is a subclass. *)
Definition is_APIException (e : exn) : bool :=
  match e with
  | APIException _ | UnexpectedAPIResponse _ => true
  | _ => false
  end.


(** A Python value that is either an ordinary result or an [Exception]
    instance: what [parse_response] returns and what a future holds. *)
Inductive outcome : Type :=
| Val (v : json)
| Exc (e : exn).

(** ** The request/response codec: [BatchManager.make_request], [parse_response] *)

Definition make_request (version : Z) (action : string) (params : dict) : json :=
  match params with
  | [] => JObj [("action", JStr action); ("version", JNum version)]
  | _ :: _ =>
      JObj [("action", JStr action); ("params", JObj params); ("version", JNum version)]
  end.

Definition parse_response (response : dict) : outcome :=
  if negb (length response =? 2)%nat then
    Exc (UnexpectedAPIResponse "Response has an unexpected number of fields")
  else
    match dict_get "error" response with
    | None => Exc (UnexpectedAPIResponse "Response is missing required error field")
    | Some err =>
        match dict_get "result" response with
        | None => Exc (UnexpectedAPIResponse "Response is missing required result field")
        | Some res =>
            match err with
            | JNull => Val res
            | _ => Exc (APIException err)
            end
        end
    end.

(** A call of a function that touches no object: it returns or raises. *)
Inductive pure (A : Type) : Type :=
| Returns (a : A)
| Raises (e : exn).
Arguments Returns {A} a.
Arguments Raises {A} e.

(** [k in l] for a list [l]: some element equals the string [k]. *)
Definition is_str (k : string) (x : json) : bool :=
  match x with
  | JStr t => String.eqb t k
  | _ => false
  end.
Definition list_contains (k : string) (l : list json) : bool := existsb (is_str k) l.

(** [k in s] for a string [s]: [k] is a substring of [s]. *)
Fixpoint starts_with (k s : string) : bool :=
  match k, s with
  | EmptyString, _ => true
  | String _ _, EmptyString => false
  | String a k', String b s' => Ascii.eqb a b && starts_with k' s'
  end.
Fixpoint str_contains (k s : string) : bool :=
  starts_with k s
  || match s with
     | EmptyString => false
     | String _ s' => str_contains k s'
     end.

(** [parse_response] on whatever the reply holds.  On a dictionary it is
    [parse_response] above.  On a list or a string [len] and [in] are
    defined and [response["error"]] is not (indices must be integers); on
    [None], a number or a boolean [len] itself raises [TypeError]. *)
Definition parse_response_any (response : json) : pure outcome :=
  match response with
  | JObj d => Returns (parse_response d)
  | JList l =>
      if negb (length l =? 2)%nat then
        Returns (Exc (UnexpectedAPIResponse "Response has an unexpected number of fields"))
      else if negb (list_contains "error" l) then
        Returns (Exc (UnexpectedAPIResponse "Response is missing required error field"))
      else if negb (list_contains "result" l) then
        Returns (Exc (UnexpectedAPIResponse "Response is missing required result field"))
      else Raises TypeError
  | JStr s =>
      if negb (String.length s =? 2)%nat then
        Returns (Exc (UnexpectedAPIResponse "Response has an unexpected number of fields"))
      else if negb (str_contains "error" s) then
        Returns (Exc (UnexpectedAPIResponse "Response is missing required error field"))
      else if negb (str_contains "result" s) then
        Returns (Exc (UnexpectedAPIResponse "Response is missing required result field"))
      else Raises TypeError
  | JNull | JBool _ | JNum _ => Raises TypeError
  end.

(** [for response in responses]: the elements of a list, the keys of a
    dictionary, the characters of a string; [None], a number and a boolean
    are not iterable. *)
Fixpoint characters (s : string) : list json :=
  match s with
  | EmptyString => []
  | String a s' => JStr (String a EmptyString) :: characters s'
  end.
Definition iterate (x : json) : pure (list json) :=
  match x with
  | JList l => Returns l
  | JObj d => Returns (map (fun kv => JStr (fst kv)) d)
  | JStr s => Returns (characters s)
  | JNull | JBool _ | JNum _ => Raises TypeError
  end.

(** ** Object stores and the coordinator's state *)

Inductive fstate : Type :=
| Pending
| Done (o : outcome).

(** The coroutine object that [functools.cached_property] stores for the
    [async def async_value]: a coroutine can be awaited once. *)
Inductive coroutine : Type :=
| CoroCreated
| CoroAwaited.

Record DeferredResult : Type := mkDeferredResult {
  _future : nat;
  _batcher_group : nat;
  value_cache : option json;
  async_value_cache : option coroutine
}.

(** What one HTTP POST does: [httpx] raises a [RequestError] or, from
    [raise_for_status], an [HTTPStatusError]; otherwise the body is either
    not JSON, and [response.json()] raises [json.JSONDecodeError], or it
    decodes to the JSON value [response]. *)
Inductive http_outcome : Type :=
| RequestError (url_repr : string)
| HTTPStatusError (status_code text : string)
| NotJSON
| Body (response : json).

Record state : Type := mkState {
  (* the client: ac_client.version *)
  version : Z;
  (* BatchManager *)
  auto_await : bool;
  actions : list json;
  futures : list nat;
  deferred_results : list nat;
  dispatch_group : nat;
  (* stores of shared objects *)
  future_store : list fstate;
  result_store : list DeferredResult;
  (* observations: bodies POSTed to the endpoint, and the handles on which
     [__await__] was entered, both in order of occurrence *)
  sent : list json;
  awaits : list nat
}.

Definition set_actions (x : list json) (s : state) : state :=
  mkState (version s) (auto_await s) x (futures s) (deferred_results s)
    (dispatch_group s) (future_store s) (result_store s) (sent s) (awaits s).
Definition set_futures (x : list nat) (s : state) : state :=
  mkState (version s) (auto_await s) (actions s) x (deferred_results s)
    (dispatch_group s) (future_store s) (result_store s) (sent s) (awaits s).
Definition set_deferred_results (x : list nat) (s : state) : state :=
  mkState (version s) (auto_await s) (actions s) (futures s) x
    (dispatch_group s) (future_store s) (result_store s) (sent s) (awaits s).
Definition set_dispatch_group (x : nat) (s : state) : state :=
  mkState (version s) (auto_await s) (actions s) (futures s) (deferred_results s)
    x (future_store s) (result_store s) (sent s) (awaits s).
Definition set_future_store (x : list fstate) (s : state) : state :=
  mkState (version s) (auto_await s) (actions s) (futures s) (deferred_results s)
    (dispatch_group s) x (result_store s) (sent s) (awaits s).
Definition set_result_store (x : list DeferredResult) (s : state) : state :=
  mkState (version s) (auto_await s) (actions s) (futures s) (deferred_results s)
    (dispatch_group s) (future_store s) x (sent s) (awaits s).
Definition set_sent (x : list json) (s : state) : state :=
  mkState (version s) (auto_await s) (actions s) (futures s) (deferred_results s)
    (dispatch_group s) (future_store s) (result_store s) x (awaits s).
Definition set_awaits (x : list nat) (s : state) : state :=
  mkState (version s) (auto_await s) (actions s) (futures s) (deferred_results s)
    (dispatch_group s) (future_store s) (result_store s) (sent s) x.

(** [BatchManager(ac_client, auto_await)] on a fresh event loop. *)
Definition init (v : Z) (aa : bool) : state :=
  mkState v aa [] [] [] 0 [] [] [] [].

(** ** The monad of methods *)

(** How a call ends.  [Blocked]: the coroutine awaits a future nobody will
    resolve.  [OutOfFuel] belongs to the recursion of [async_dispatch]
    below.  [Unmodelled]: a reference that names no object (no state that a
    coordinator reaches holds one, see [inv_future]). *)
Inductive result (A : Type) : Type :=
| Return (a : A)
| Raise (e : exn)
| Blocked
| OutOfFuel
| Unmodelled.
Arguments Return {A} a.
Arguments Raise {A} e.
Arguments Blocked {A}.
Arguments OutOfFuel {A}.
Arguments Unmodelled {A}.

Definition M (A : Type) : Type := state -> result A * state.

Definition ret {A} (a : A) : M A := fun s => (Return a, s).
Definition raise {A} (e : exn) : M A := fun s => (Raise e, s).

Definition bind {A B} (c : M A) (k : A -> M B) : M B := fun s =>
  match c s with
  | (Return a, s') => k a s'
  | (Raise e, s') => (Raise e, s')
  | (Blocked, s') => (Blocked, s')
  | (OutOfFuel, s') => (OutOfFuel, s')
  | (Unmodelled, s') => (Unmodelled, s')
  end.

Declare Scope py_scope.
Delimit Scope py_scope with py.
Notation "x <- c ;; k" := (bind c (fun x => k))
  (at level 100, c at next level, right associativity) : py_scope.
Notation "c ;; k" := (bind c (fun _ => k))
  (at level 100, right associativity) : py_scope.
Open Scope py_scope.

(** A call that touches no object, within a method. *)
Definition call {A} (r : pure A) : M A := fun s =>
  (match r with
   | Returns a => Return a
   | Raises e => Raise e
   end, s).

Definition get {A} (f : state -> A) : M A := fun s => (Return (f s), s).
Definition modify (f : state -> state) : M unit := fun s => (Return tt, f s).

(** [for x in xs: body(x)] *)
Fixpoint for_each {A} (xs : list A) (body : A -> M unit) : M unit :=
  match xs with
  | [] => ret tt
  | x :: xs' => body x ;; for_each xs' body
  end.

(** [try: c  except AnkiAPIException: pass] *)
Definition try_except_APIException {A} (c : M A) : M unit := fun s =>
  match c s with
  | (Return _, s') => (Return tt, s')
  | (Raise e, s') => if is_APIException e then (Return tt, s') else (Raise e, s')
  | (Blocked, s') => (Blocked, s')
  | (OutOfFuel, s') => (OutOfFuel, s')
  | (Unmodelled, s') => (Unmodelled, s')
  end.

(** ** The classes *)

Section Coordinator.

(** The remote endpoint (an external collaborator): what the [n]-th POST
    of this run, carrying [body], comes back with. *)
Variable endpoint : nat -> json -> http_outcome.

(** *** [asyncio.Future] *)

Definition create_future : M nat := fun s =>
  (Return (length (future_store s)), set_future_store (future_store s ++ [Pending]) s).

(** [set_result] and [set_exception] raise [InvalidStateError] on a future
    that is already done. *)
Definition future_set (fut : nat) (o : outcome) : M unit := fun s =>
  match future_store s !! fut with
  | Some Pending => (Return tt, set_future_store (<[fut := Done o]> (future_store s)) s)
  | Some (Done _) => (Raise InvalidStateError, s)
  | None => (Unmodelled, s)
  end.
Definition set_result (fut : nat) (v : json) : M unit := future_set fut (Val v).
Definition set_exception (fut : nat) (e : exn) : M unit := future_set fut (Exc e).

(** [fut.result()] *)
Definition future_result (fut : nat) : M json := fun s =>
  match future_store s !! fut with
  | Some (Done (Val v)) => (Return v, s)
  | Some (Done (Exc e)) => (Raise e, s)
  | Some Pending => (Raise InvalidStateError, s)
  | None => (Unmodelled, s)
  end.

(** [await fut] *)
Definition future_await (fut : nat) : M json := fun s =>
  match future_store s !! fut with
  | Some (Done (Val v)) => (Return v, s)
  | Some (Done (Exc e)) => (Raise e, s)
  | Some Pending => (Blocked, s)
  | None => (Unmodelled, s)
  end.

(** *** [Client.invoke_no_batch] and [AsyncClient.invoke_no_batch]

    The two bodies are the same but for the [await] at the POST, the one
    point where the asynchronous variant suspends.  The two [except]
    clauses cover the POST and [raise_for_status] only: what
    [response.json()] and [parse_response] raise leaves the method as it
    is. *)
Definition invoke_no_batch (action : string) (params : dict) : M json := fun s =>
  let request_body := make_request (version s) action params in
  let s' := set_sent (sent s ++ [request_body]) s in
  match endpoint (length (sent s)) request_body with
  | RequestError url =>
      (Raise (APIException (JStr
         (String.append "An error occurred while requesting " (String.append url ".")))), s')
  | HTTPStatusError status_code text =>
      (Raise (APIException (JStr
         (String.append "HTTP error occurred: "
            (String.append status_code (String.append " " text))))), s')
  | NotJSON => (Raise JSONDecodeError, s')
  | Body response =>
      match parse_response_any response with
      | Raises e => (Raise e, s')
      | Returns (Exc e) => (Raise e, s')
      | Returns (Val v) => (Return v, s')
      end
  end.

(** *** [BatchManager] *)

Definition add_action (ver : Z) (action_name : string) (params : dict) : M nat :=
  fut <- create_future ;;
  group <- get dispatch_group ;;
  result <- (fun s => (Return (length (result_store s)),
                       set_result_store
                         (result_store s ++ [mkDeferredResult fut group None None]) s)) ;;
  modify (fun s => set_actions (actions s ++ [make_request ver action_name params]) s) ;;
  modify (fun s => set_futures (futures s ++ [fut]) s) ;;
  modify (fun s => set_deferred_results (deferred_results s ++ [result]) s) ;;
  ret result.

(** [BatchManager.invoke] *)
Definition invoke (action : string) (params : dict) : M nat :=
  ver <- get version ;;
  add_action ver action params.

(** [[self.parse_response(response) for response in responses]]: the
    items are parsed in order, and the first one on which
    [parse_response] raises ends the comprehension. *)
Fixpoint parse_each (responses : list json) : pure (list outcome) :=
  match responses with
  | [] => Returns []
  | response :: rest =>
      match parse_response_any response with
      | Raises e => Raises e
      | Returns o =>
          match parse_each rest with
          | Raises e => Raises e
          | Returns os => Returns (o :: os)
          end
      end
  end.

Definition parse_responses (responses : json) : M (list outcome) :=
  call (match iterate responses with
        | Raises e => Raises e
        | Returns rs => parse_each rs
        end).

Definition _handle_responses (responses : list outcome) : M unit :=
  futs <- get futures ;;
  if negb (length futs =? length responses)%nat then raise AssertionError
  else
    for_each (zip futs responses)
      (fun '(fut, result) =>
         match result with
         | Exc e => set_exception fut e
         | Val v => set_result fut v
         end) ;;
    modify (set_futures []) ;;
    modify (set_actions []).

Definition sync_dispatch : M unit :=
  acts <- get actions ;;
  match acts with
  | [] => ret tt
  | _ :: _ =>
      modify (fun s => set_dispatch_group (dispatch_group s + 1) s) ;;
      responses <- invoke_no_batch "multi" [("actions", JList acts)] ;;
      responses <- parse_responses responses ;;
      _handle_responses responses
  end.

(** *** [DeferredResult] *)

Definition deref (self : nat) : M DeferredResult := fun s =>
  match result_store s !! self with
  | Some d => (Return d, s)
  | None => (Unmodelled, s)
  end.

Definition cache_value (self : nat) (v : json) (s : state) : state :=
  set_result_store
    (alter (fun d => mkDeferredResult (_future d) (_batcher_group d) (Some v)
                       (async_value_cache d)) self (result_store s)) s.

Definition cache_async_value (self : nat) (c : coroutine) (s : state) : state :=
  set_result_store
    (alter (fun d => mkDeferredResult (_future d) (_batcher_group d) (value_cache d)
                       (Some c)) self (result_store s)) s.

(** [self._batcher_group >= self._batcher.dispatch_group] *)
Definition needs_dispatch (d : DeferredResult) : M bool :=
  group <- get dispatch_group ;;
  ret (group <=? _batcher_group d)%nat.

(** [DeferredResult.value], a [functools.cached_property]: the body runs
    when the instance holds no cached value, and its result is cached
    only when it returns. *)
Definition value (self : nat) : M json :=
  d <- deref self ;;
  match value_cache d with
  | Some v => ret v
  | None =>
      v <- (stale <- needs_dispatch d ;;
            (if stale then sync_dispatch else ret tt) ;;
            future_result (_future d)) ;;
      modify (cache_value self v) ;;
      ret v
  end.

(** [DeferredResult.__await__], over the [async_dispatch] it calls. *)
Definition await_over (dispatch : M unit) (self : nat) : M json :=
  d <- deref self ;;
  modify (fun s => set_awaits (awaits s ++ [self]) s) ;;
  stale <- needs_dispatch d ;;
  (if stale then dispatch else ret tt) ;;
  future_await (_future d).

(** [BatchManager.async_dispatch], over the [__await__] its drain loop
    calls.  The loop iterates [self.deferred_results] itself; nothing
    appends to or clears that list while the loop runs
    ([drain_keeps_deferred_results] below), so iterating the list read at
    loop entry is the same. *)
Definition async_dispatch_over (await : nat -> M json) : M unit :=
  acts <- get actions ;;
  match acts with
  | [] => ret tt
  | _ :: _ =>
      modify (fun s => set_dispatch_group (dispatch_group s + 1) s) ;;
      responses <- invoke_no_batch "multi" [("actions", JList acts)] ;;
      responses <- parse_responses responses ;;
      _handle_responses responses ;;
      auto <- get auto_await ;;
      if auto then
        results <- get deferred_results ;;
        for_each results (fun result => try_except_APIException (await result)) ;;
        modify (set_deferred_results [])
      else ret tt
  end.

(** [async_dispatch] and [__await__] call each other; [fuel] bounds the
    nesting of these calls ([async_dispatch_fuel] below: two levels are
    all a run ever uses). *)
Fixpoint async_dispatch (fuel : nat) : M unit :=
  match fuel with
  | 0 => fun s => (OutOfFuel, s)
  | S fuel' => async_dispatch_over (await_over (async_dispatch fuel'))
  end.

Definition await (fuel : nat) (self : nat) : M json :=
  await_over (async_dispatch fuel) self.

(** [await self.async_value].  The property is a [cached_property] over
    an [async def]: what is cached is the coroutine object, created on
    the first access and awaited here. Awaiting a coroutine that was
    already awaited raises [RuntimeError]. *)
Definition await_async_value (fuel : nat) (self : nat) : M json :=
  d <- deref self ;;
  match async_value_cache d with
  | Some CoroAwaited => raise (RuntimeError "cannot reuse already awaited coroutine")
  | _ =>
      modify (cache_async_value self CoroAwaited) ;;
      stale <- needs_dispatch d ;;
      (if stale then async_dispatch fuel else ret tt) ;;
      future_result (_future d)
  end.

End Coordinator.

(** ** Runs of the coordinator *)

(** What a caller can do with a coordinator and its handles. *)
Inductive op : Type :=
| OpAddAction (ver : Z) (action_name : string) (params : dict)
| OpInvoke (action : string) (params : dict)
| OpSyncDispatch
| OpValue (self : nat)
| OpAsyncDispatch (fuel : nat)
| OpAwait (fuel : nat) (self : nat)
| OpAwaitAsyncValue (fuel : nat) (self : nat).

Definition exec (endpoint : nat -> json -> http_outcome) (o : op) (s : state) : state :=
  match o with
  | OpAddAction ver a ps => snd (add_action ver a ps s)
  | OpInvoke a ps => snd (invoke a ps s)
  | OpSyncDispatch => snd (sync_dispatch endpoint s)
  | OpValue p => snd (value endpoint p s)
  | OpAsyncDispatch fuel => snd (async_dispatch endpoint fuel s)
  | OpAwait fuel p => snd (await endpoint fuel p s)
  | OpAwaitAsyncValue fuel p => snd (await_async_value endpoint fuel p s)
  end.

Definition run (endpoint : nat -> json -> http_outcome) (ops : list op) (s : state) : state :=
  fold_left (fun s o => exec endpoint o s) ops s.

(** The states of a fresh coordinator after any sequence of operations.
    (An operation given too little fuel stops early; the states it leaves
    are counted too, which only widens what the theorems cover.) *)
Inductive reachable (endpoint : nat -> json -> http_outcome) : state -> Prop :=
| reach_init v aa : reachable endpoint (init v aa)
| reach_step s o : reachable endpoint s -> reachable endpoint (exec endpoint o s).

(** What a read hands to the caller when the future holds [o]. *)
Definition result_of (o : outcome) : result json :=
  match o with
  | Val v => Return v
  | Exc e => Raise e
  end.

(** The composite request a flush of [s] sends, and the state right after
    it was sent. *)
Definition composite (s : state) : json :=
  make_request (version s) "multi" [("actions", JList (actions s))].

Definition flushing (s : state) : state :=
  set_sent (sent s ++ [composite s]) (set_dispatch_group (dispatch_group s + 1) s).

(** The stores after [_handle_responses] has walked [zip(futures, responses)]. *)
Fixpoint deliver (pairs : list (nat * outcome)) (store : list fstate) : list fstate :=
  match pairs with
  | [] => store
  | (fut, o) :: rest => deliver rest (<[fut := Done o]> store)
  end.

Definition delivered (os : list outcome) (s : state) : state :=
  set_actions [] (set_futures []
    (set_future_store (deliver (zip (futures s) os) (future_store s)) s)).

(** An envelope has exactly the two fields [error] and [result]. *)
Definition two_fields (response : dict) : Prop :=
  length response = 2 /\ is_Some (dict_get "error" response)
  /\ is_Some (dict_get "result" response).

(** The invariant of every reachable state. *)
Record inv (s : state) : Prop := mkInv {
  inv_len : length (actions s) = length (futures s);
  inv_nodup : NoDup (futures s);
  inv_pending : forall f, f ∈ futures s -> future_store s !! f = Some Pending;
  inv_group : forall p d, result_store s !! p = Some d ->
      _batcher_group d <= dispatch_group s;
  inv_current : forall p d, result_store s !! p = Some d ->
      _batcher_group d = dispatch_group s -> _future d ∈ futures s;
  inv_cache : forall p d v, result_store s !! p = Some d ->
      value_cache d = Some v -> future_store s !! _future d = Some (Done (Val v));
  inv_exc : forall f e, future_store s !! f = Some (Done (Exc e)) ->
      is_APIException e = true;
  inv_deferred : exists old cur,
      deferred_results s = old ++ cur
      /\ Forall2 (fun p f => exists d, result_store s !! p = Some d /\ _future d = f)
           cur (futures s)
      /\ Forall (fun p => exists d o, result_store s !! p = Some d
                          /\ future_store s !! _future d = Some (Done o)) old;
  inv_future : forall p d, result_store s !! p = Some d ->
      _future d < length (future_store s)
}.

(** Every handle was created before the current generation began. *)
Definition all_flushed (s : state) : Prop :=
  forall p d, result_store s !! p = Some d -> _batcher_group d < dispatch_group s.

(** ** Basic facts *)

(** ** Auxiliary definitions for the proofs *)

(** [bind] seen from the first computation's result. *)
Definition continue {A B} (r : result A) (s : state) (k : A -> M B) : result B * state :=
  match r with
  | Return a => k a s
  | Raise e => (Raise e, s)
  | Blocked => (Blocked, s)
  | OutOfFuel => (OutOfFuel, s)
  | Unmodelled => (Unmodelled, s)
  end.

(** The parsed responses a flush of [s] obtains, or how obtaining them fails. *)
Definition reply (endpoint : nat -> json -> http_outcome) (s : state)
    : result (list outcome) :=
  fst ((responses <- invoke_no_batch endpoint "multi" [("actions", JList (actions s))] ;;
        parse_responses responses)
         (set_dispatch_group (dispatch_group s + 1) s)).

(** The drain loop of [async_dispatch]. *)
Definition drain (endpoint : nat -> json -> http_outcome) (fuel : nat)
    (results : list nat) : M unit :=
  for_each results
    (fun result => try_except_APIException (await_over (async_dispatch endpoint fuel) result)).

(** In a state that satisfies the invariant, [_handle_responses] either
    fails its assertion or delivers every response. *)
Definition settle (os : list outcome) : M unit := fun s =>
  if (length (futures s) =? length os)%nat then (Return tt, delivered os s)
  else (Raise AssertionError, s).

(** The continuation of an asynchronous flush once the responses are parsed. *)
Definition settle_async (os : list outcome) : M unit := fun s =>
  if (length (futures s) =? length os)%nat then
    (Return tt,
     if auto_await s then
       set_deferred_results []
         (set_awaits (awaits s ++ deferred_results s) (delivered os s))
     else delivered os s)
  else (Raise AssertionError, s).

(** What later states keep of earlier ones. *)
Record extends (s s' : state) : Prop := mkExtends {
  ext_group : dispatch_group s <= dispatch_group s';
  ext_done : forall f o, future_store s !! f = Some (Done o) ->
      future_store s' !! f = Some (Done o);
  ext_handle : forall p d, result_store s !! p = Some d ->
      exists d', result_store s' !! p = Some d'
                 /\ _future d' = _future d /\ _batcher_group d' = _batcher_group d;
  ext_sent : exists more, sent s' = sent s ++ more
}.

(** The flush a read performs first, when the handle's generation is
    still the coordinator's. *)
Definition before_read (dispatch : M unit) (d : DeferredResult) : M unit := fun s =>
  if (dispatch_group s <=? _batcher_group d)%nat then dispatch s else (Return tt, s).

(** A step that keeps the invariant and extends the state. *)
Definition keeps (c : state -> state) : Prop :=
  forall s, inv s -> inv (c s) /\ extends s (c s).


(** ** Scenarios *)

Definition envelope (error result : json) : dict :=
  [("error", error); ("result", result)].

Definition composite_reply (envs : list dict) : http_outcome :=
  Body (JObj (envelope JNull (JList (JObj <$> envs)))).

(** The endpoint answers every request with these three envelopes. *)
Definition three_envelopes : list dict :=
  [envelope JNull (JNum 1); envelope (JStr "boom") JNull; envelope JNull (JNum 3)].
Definition answers_three (n : nat) (body : json) : http_outcome :=
  composite_reply three_envelopes.

(** The endpoint answers every request with one envelope. *)
Definition answers_one (n : nat) (body : json) : http_outcome :=
  composite_reply [envelope JNull (JNum 1)].


Definition queue_three : list op :=
  [OpInvoke "deckNames" [];
   OpInvoke "findCards" [("query", JStr "deck:current")];
   OpInvoke "getNumCardsReviewedToday" []].
Definition queue_two : list op :=
  [OpInvoke "deckNames" []; OpInvoke "getNumCardsReviewedToday" []].
Definition queue_one : list op := [OpInvoke "getNumCardsReviewedToday" []].

Definition three_queued : state := run answers_three queue_three (init 6 true).
Definition one_queued : state := run answers_one queue_one (init 6 true).

(** ** Notes ([src/anki/note.py], [src/anki/resource.py], [src/anki/scope.py]) *)

(** [d[k] = v]: an existing key keeps its place, a new key goes last. *)
Fixpoint dict_set (k : string) (v : json) (d : dict) : dict :=
  match d with
  | [] => [(k, v)]
  | (k', v') :: d' =>
      if String.eqb k k' then (k, v) :: d' else (k', v') :: dict_set k v d'
  end.

Inductive DuplicateScope : Type :=
| CURRENT_DECK
| ALL_DECKS.

Record DuplicateScopeOptions : Type := mkDuplicateScopeOptions {
  scope_deck_name : string;
  duplicate_scope : DuplicateScope;
  check_children : bool;
  check_all_models : bool
}.

(** [DuplicateScopeOptions.default] *)
Definition DuplicateScopeOptions_default (deck_name : string) : DuplicateScopeOptions :=
  mkDuplicateScopeOptions deck_name ALL_DECKS true true.

Section Notes.

(** The resource classes and the two [schema().dump] functions, which
    [dataclasses_json] generates: a resource is dumped to a dictionary, the
    options to a JSON value. *)
Variable Resource : Type.
Variable schema_dump : Resource -> dict.
Variable options_dump : DuplicateScopeOptions -> json.

Record FieldContent : Type := mkFieldContent {
  text : string;
  images : list Resource;
  audio : list Resource;
  video : list Resource
}.

Record Note : Type := mkNote {
  deck_name : string;
  model_name : string;
  options : DuplicateScopeOptions;
  field_content : list (string * FieldContent);
  tags : list string
}.

(** [Resource.dump] *)
Definition Resource_dump (resources : list Resource) : list dict :=
  map schema_dump resources.

(** [Note.make_basic_card]; [None] for an argument left out
    ([images if images else []] and [tags or []] are the list itself, or
    the empty list for [None]). *)
Definition make_basic_card (deck : string) (front back examples : string)
    (imgs : option (list Resource)) (tgs : option (list string)) : Note :=
  mkNote deck "Basic" (DuplicateScopeOptions_default deck)
    [("Front", mkFieldContent front [] [] []);
     ("Back", mkFieldContent back [] [] []);
     ("Image", mkFieldContent "" (default [] imgs) [] []);
     ("Examples", mkFieldContent examples [] [] [])]
    (default [] tgs).

(** The four accumulators of [to_anki_params]. *)
Record contents : Type := mkContents {
  audio_content : list dict;
  video_content : list dict;
  image_content : list dict;
  text_content : dict
}.

(** [for new_content in ...: new_content['fields'] = [field_name]] *)
Definition set_fields (field_name : string) (new_contents : list dict) : list dict :=
  map (dict_set "fields" (JList [JStr field_name])) new_contents.

(** One round of the loop of [to_anki_params]. *)
Definition collect (acc : contents) (item : string * FieldContent) : contents :=
  let '(field_name, content) := item in
  let text_content' := dict_set field_name (JStr (text content)) (text_content acc) in
  let new_audio_content := set_fields field_name (Resource_dump (audio content)) in
  let new_video_content := set_fields field_name (Resource_dump (video content)) in
  let new_image_content := set_fields field_name (Resource_dump (images content)) in
  mkContents
    (match new_audio_content with
     | [] => audio_content acc
     | _ :: _ => audio_content acc ++ new_audio_content
     end)
    (match new_audio_content with
     | [] => video_content acc
     | _ :: _ => video_content acc ++ new_video_content
     end)
    (match new_image_content with
     | [] => image_content acc
     | _ :: _ => image_content acc ++ new_image_content
     end)
    text_content'.

Definition to_anki_params (self : Note) : dict :=
  let options_content := options_dump (options self) in
  let acc := fold_left collect (field_content self) (mkContents [] [] [] []) in
  [("deckName", JStr (deck_name self));
   ("modelName", JStr (model_name self));
   ("fields", JObj (text_content acc));
   ("tags", JList (JStr <$> tags self));
   ("options", options_content);
   ("audio", JList (JObj <$> audio_content acc));
   ("video", JList (JObj <$> video_content acc));
   ("picture", JList (JObj <$> image_content acc))].

End Notes.

Arguments text {Resource} _.
Arguments images {Resource} _.
Arguments audio {Resource} _.
Arguments video {Resource} _.
Arguments mkFieldContent {Resource} _ _ _ _.
Arguments deck_name {Resource} _.
Arguments model_name {Resource} _.
Arguments options {Resource} _.
Arguments field_content {Resource} _.
Arguments tags {Resource} _.
Arguments mkNote {Resource} _ _ _ _ _.
Arguments Resource_dump {Resource} _ _.
Arguments make_basic_card {Resource} _ _ _ _ _ _.
Arguments collect {Resource} _ _ _.
Arguments to_anki_params {Resource} _ _ _.

(** ** The synchronous client ([Client] in [src/anki/connect.py]) *)

(** What the client's methods raise: the built-in [ValueError] of the
    argument checks, the [AttributeError] of a method call on [None], and
    the exceptions of the coordinator. *)
Inductive raised : Type :=
| ValueError (msg : string)
| AttributeError
| Raised (e : exn).

Inductive cresult (A : Type) : Type :=
| CReturn (a : A)
| CRaise (e : raised)
| CBlocked
| COutOfFuel
| CUnmodelled.
Arguments CReturn {A} a.
Arguments CRaise {A} e.
Arguments CBlocked {A}.
Arguments COutOfFuel {A}.
Arguments CUnmodelled {A}.

(** A client and the [BatchManager] it has created, if any.  [batcher]
    tells whether [self.batcher] is set; the manager's fields, together
    with [self.version] and the stores and the log of requests, are in
    [coordinator].  The model follows a client through the life of one
    [BatchManager]: constructing a second one while handles of the first
    exist is [CUnmodelled]. *)
Record client : Type := mkClient {
  batcher : bool;
  coordinator : state
}.

Definition CM (A : Type) : Type := client -> cresult A * client.

Definition cret {A} (a : A) : CM A := fun cl => (CReturn a, cl).
Definition craise {A} (e : raised) : CM A := fun cl => (CRaise e, cl).

Definition cbind {A B} (c : CM A) (k : A -> CM B) : CM B := fun cl =>
  match c cl with
  | (CReturn a, cl') => k a cl'
  | (CRaise e, cl') => (CRaise e, cl')
  | (CBlocked, cl') => (CBlocked, cl')
  | (COutOfFuel, cl') => (COutOfFuel, cl')
  | (CUnmodelled, cl') => (CUnmodelled, cl')
  end.

(** A method of the coordinator, called by the client. *)
Definition lift {A} (c : M A) : CM A := fun cl =>
  match c (coordinator cl) with
  | (Return a, s') => (CReturn a, mkClient (batcher cl) s')
  | (Raise e, s') => (CRaise (Raised e), mkClient (batcher cl) s')
  | (Blocked, s') => (CBlocked, mkClient (batcher cl) s')
  | (OutOfFuel, s') => (COutOfFuel, mkClient (batcher cl) s')
  | (Unmodelled, s') => (CUnmodelled, mkClient (batcher cl) s')
  end.

(** What [invoke] hands back: a [DeferredResult], or the result itself. *)
Inductive answer : Type :=
| Deferred (p : nat)
| Plain (v : json).

(** Python values are the JSON values (so the numbers are the integers).
    [isinstance(x, int)] (a [bool] is an [int]), [isinstance(x, bool)],
    [isinstance(x, (bool, type(None)))], and
    [isinstance(x, list) and all(p(y) for y in x)]. *)
Definition is_int (x : json) : bool :=
  match x with
  | JNum _ | JBool _ => true
  | _ => false
  end.
Definition is_bool (x : json) : bool :=
  match x with
  | JBool _ => true
  | _ => false
  end.
Definition is_bool_or_none (x : json) : bool :=
  match x with
  | JBool _ | JNull => true
  | _ => false
  end.
Definition is_list_of (p : json -> bool) (x : json) : bool :=
  match x with
  | JList l => forallb p l
  | _ => false
  end.
Definition len (x : json) : nat :=
  match x with
  | JList l => length l
  | _ => 0
  end.

Section Client.

Variable endpoint : nat -> json -> http_outcome.

(** [Client.invoke] *)
Definition Client_invoke (action : string) (params : dict) : CM answer := fun cl =>
  if batcher cl then
    cbind (lift (add_action (version (coordinator cl)) action params))
      (fun p => cret (Deferred p)) cl
  else
    cbind (lift (invoke_no_batch endpoint action params)) (fun v => cret (Plain v)) cl.

(** [BatchManager.invoke], as the methods that [BatchManager.__getattr__]
    borrows from [Client] reach it through [self.invoke]. *)
Definition BatchManager_invoke (action : string) (params : dict) : CM answer :=
  cbind (lift (invoke action params)) (fun p => cret (Deferred p)).

(** The wrappers, over the [invoke] of the object they are called on. *)
Definition get_ease_factors (self_invoke : string -> dict -> CM answer)
    (cards : json) : CM answer :=
  if negb (is_list_of is_int cards) then
    craise (ValueError "Argument 'cards' must be a list of integers.")
  else
    cbind (self_invoke "getEaseFactors" [("cards", cards)]) (fun result =>
    match result with
    | Deferred _ => cret result
    | Plain v =>
        if negb (is_list_of is_bool_or_none v) then
          craise (Raised (UnexpectedAPIResponse
            "API response for 'getEaseFactors' must be a list of integers or None"))
        else cret result
    end).

Definition set_ease_factors (self_invoke : string -> dict -> CM answer)
    (cards ease_factors : json) : CM answer :=
  if negb (is_list_of is_int cards) then
    craise (ValueError "Argument 'cards' must be a list of integers.")
  else if negb (is_list_of is_int ease_factors) then
    craise (ValueError "Argument 'ease_factors' must be a list of integers.")
  else if negb (len cards =? len ease_factors)%nat then
    craise (ValueError "Arguments 'cards' and 'ease_factors' must have the same length.")
  else
    cbind (self_invoke "setEaseFactors" [("cards", cards); ("easeFactors", ease_factors)])
      (fun result =>
    match result with
    | Deferred _ => cret result
    | Plain v =>
        if negb (is_list_of is_bool v) then
          craise (Raised (UnexpectedAPIResponse
            "API response for 'setEaseFactors' must be a list of booleans."))
        else cret result
    end).

(** [self.batcher = BatchManager(self)] when [self.batcher is None]. *)
Definition install : CM unit := fun cl =>
  if batcher cl then (CReturn tt, cl)
  else
    match result_store (coordinator cl) with
    | [] =>
        let s := coordinator cl in
        (CReturn tt,
         mkClient true
           (mkState (version s) true [] [] [] 0 (future_store s) (result_store s)
              (sent s) (awaits s)))
    | _ :: _ => (CUnmodelled, cl)
    end.

(** [self.batcher.sync_dispatch()] *)
Definition dispatch_batcher : CM unit := fun cl =>
  if batcher cl then lift (sync_dispatch endpoint) cl else (CRaise AttributeError, cl).

Definition set_batcher (b : bool) : CM unit := fun cl =>
  (CReturn tt, mkClient b (coordinator cl)).

(** [with self.make_batch() as batch: body].  The generator has no
    [try]: when the body raises, the code after the [yield] does not run. *)
Definition make_batch {A} (body : CM A) : CM A := fun cl =>
  let old_batcher := batcher cl in
  cbind install (fun _ =>
  cbind body (fun r =>
  cbind (set_batcher old_batcher) (fun _ =>
  cret r))) cl.

(** [with self.send_batch() as batch: body] *)
Definition send_batch {A} (body : CM A) : CM A := fun cl =>
  let old_batcher := batcher cl in
  cbind install (fun _ =>
  cbind body (fun r =>
  cbind dispatch_batcher (fun _ =>
  cbind (set_batcher old_batcher) (fun _ =>
  cret r)))) cl.

(** A block of calls: [[self.invoke(action, **params) for ...]]. *)
Fixpoint invoke_all (calls : list (string * dict)) : CM (list answer) :=
  match calls with
  | [] => cret []
  | (action, params) :: rest =>
      cbind (Client_invoke action params) (fun a =>
      cbind (invoke_all rest) (fun l => cret (a :: l)))
  end.

End Client.

(** The envelopes of a block of calls. *)
Definition envelopes (ver : Z) (calls : list (string * dict)) : list json :=
  map (fun call => make_request ver (fst call) (snd call)) calls.

(** The coordinator after a block of calls was queued. *)
Definition queued (calls : list (string * dict)) (s : state) : state :=
  fold_left (fun s call => snd (add_action (version s) (fst call) (snd call) s)) calls s.

(** A client that has not batched yet: no [BatchManager], no handle;
    [log] holds the requests of its direct calls so far. *)
Definition new_client (ver : Z) (log : list json) : client :=
  mkClient false (set_sent log (init ver true)).

(** ** More scenarios *)

(** The endpoint cannot be reached for the first request and answers the
    later ones with the three envelopes. *)
Definition fails_once (n : nat) (body : json) : http_outcome :=
  match n with
  | 0 => RequestError "URL('http://localhost:8765')"
  | S _ => composite_reply three_envelopes
  end.

(** Two calls, a read that fails, one more call. *)
Definition two_failed : state := run fails_once (queue_two ++ [OpValue 0]) (init 6 true).

(** A coordinator with auto-drain off and two calls queued. *)
Definition two_queued_no_drain : state := run answers_three queue_two (init 6 false).

(** Resources named by their file, dumped to a one-key dictionary. *)
Definition file_dump (r : string) : dict := [("filename", JStr r)].
Definition deck_dump (o : DuplicateScopeOptions) : json :=
  JObj [("deckName", JStr (scope_deck_name o))].

(** A note whose first field has audio and video, and whose second has
    an image and video but no audio. *)
Definition sample_note : Note string :=
  mkNote "Default" "Basic" (DuplicateScopeOptions_default "Default")
    [("Front", mkFieldContent "question" [] ["a.mp3"] ["v.mp4"]);
     ("Back", mkFieldContent "answer" ["i.png"] [] ["w.mp4"])]
    ["tag"].

Definition block_of_two : list (string * dict) :=
  [("deckNames", []); ("findCards", [("query", JStr "deck:current")])].

(** The endpoint answers a direct call with the ease factors 2500, 4100. *)
Definition answers_factors (n : nat) (body : json) : http_outcome :=
  Body (JObj (envelope JNull (JList [JNum 2500; JNum 4100]))).


(** ** Kinds of operations *)

(** Queuing: [add_action] and [invoke]. *)
Definition is_queue_op (o : op) : bool :=
  match o with
  | OpAddAction _ _ _ | OpInvoke _ _ => true
  | _ => false
  end.

(** What a program that never touches the asynchronous methods does. *)
Definition is_sync_op (o : op) : bool :=
  match o with
  | OpAddAction _ _ _ | OpInvoke _ _ | OpSyncDispatch | OpValue _ => true
  | _ => false
  end.

(** The requests sent and the generation counter move together. *)
Definition counted (s : state) : Prop := length (sent s) = dispatch_group s.

(** [deferred_results] holds every handle there is, in order of creation. *)
Definition retains_all (s : state) : Prop :=
  deferred_results s = seq 0 (length (result_store s)).


(** ** Reads and flushes *)

(** The three ways to read a handle: [p.value], [await p] and
    [await p.async_value]. *)
Inductive access : Type :=
| ByValue
| ByAwait (fuel : nat)
| ByAsyncValue (fuel : nat).

Definition read (endpoint : nat -> json -> http_outcome) (a : access) (p : nat) : M json :=
  match a with
  | ByValue => value endpoint p
  | ByAwait fuel => await endpoint fuel p
  | ByAsyncValue fuel => await_async_value endpoint fuel p
  end.

(** The model of the asynchronous methods is given fuel to run. *)
Definition fuelled (a : access) : Prop :=
  match a with
  | ByValue => True
  | ByAwait fuel | ByAsyncValue fuel => 0 < fuel
  end.

(** The access runs the body of the property: always so for [value] (as
    long as nothing is cached) and [__await__]; for [async_value], when its
    coroutine has not been awaited yet. *)
Definition first_access (a : access) (d : DeferredResult) : Prop :=
  match a with
  | ByValue | ByAwait _ => True
  | ByAsyncValue _ => async_value_cache d <> Some CoroAwaited
  end.

(** The generation captured by the handle is still the coordinator's. *)
Definition current (s : state) (q : nat) (a : access) : Prop :=
  exists d, result_store s !! q = Some d
            /\ dispatch_group s <= _batcher_group d /\ first_access a d.

(** The operations that flush the batch queued in [s]: a dispatch, or a
    read of a handle of the current generation. *)
Definition flushes (s : state) (o : op) : Prop :=
  match o with
  | OpSyncDispatch => True
  | OpAsyncDispatch fuel => 0 < fuel
  | OpValue q => current s q ByValue
  | OpAwait fuel q => 0 < fuel /\ current s q (ByAwait fuel)
  | OpAwaitAsyncValue fuel q => 0 < fuel /\ current s q (ByAsyncValue fuel)
  | OpAddAction _ _ _ | OpInvoke _ _ => False
  end.

(** The items of a composite reply on which [parse_response] raises
    [TypeError]: [None], a number and a boolean have no [len]; a list that
    passes the three checks (two elements, the strings [error] and
    [result]) cannot be indexed by [error]. *)
Definition parse_raises (item : json) : bool :=
  match item with
  | JNull | JBool _ | JNum _ => true
  | JList l => (length l =? 2)%nat && list_contains "error" l && list_contains "result" l
  | JStr _ | JObj _ => false
  end.

(** The values that cannot be iterated: [None], a number, a boolean. *)
Definition not_iterable (x : json) : bool :=
  match x with
  | JNull | JBool _ | JNum _ => true
  | JStr _ | JList _ | JObj _ => false
  end.

(** The endpoint answers every request with two items: [null], and a
    well-formed envelope with the result 2. *)
Definition answers_null_item (n : nat) (body : json) : http_outcome :=
  Body (JObj (envelope JNull (JList [JNull; JObj (envelope JNull (JNum 2))]))).
Definition two_queued_null_item : state := run answers_null_item queue_two (init 6 true).

(** The endpoint answers every request with two items: an object with one
    field, and a well-formed envelope with the result 2. *)
Definition answers_short_item (n : nat) (body : json) : http_outcome :=
  Body (JObj (envelope JNull
          (JList [JObj [("result", JNum 1)]; JObj (envelope JNull (JNum 2))]))).
Definition two_queued_short_item : state := run answers_short_item queue_two (init 6 true).

(** The endpoint answers with a body that is not JSON. *)
Definition answers_html (n : nat) (body : json) : http_outcome := NotJSON.

Ltac unfold_m :=
  unfold bind, ret, raise, get, modify, needs_dispatch, deref in *.

Section Codec.

Lemma parse_response_api response e :
  parse_response response = Exc e -> is_APIException e = true.
Proof.
  unfold parse_response.
  destruct (negb _); [intros [= <-]; reflexivity|].
  destruct (dict_get "error" response) as [err|]; [|intros [= <-]; reflexivity].
  destruct (dict_get "result" response) as [res|]; [|intros [= <-]; reflexivity].
  destruct err; intros [= <-]; reflexivity.
Qed.

Lemma parse_response_malformed response :
  ~ two_fields response ->
  exists msg, parse_response response = Exc (UnexpectedAPIResponse msg).
Proof.
  intros Hn. unfold parse_response.
  destruct (length response =? 2)%nat eqn:Hl; simpl; [|eauto].
  apply Nat.eqb_eq in Hl.
  destruct (dict_get "error" response) as [err|] eqn:He; [|eauto].
  destruct (dict_get "result" response) as [res|] eqn:Hr; [|eauto].
  exfalso. apply Hn. unfold two_fields. rewrite He, Hr. eauto.
Qed.

Lemma parse_response_two_fields response err res :
  length response = 2 ->
  dict_get "error" response = Some err ->
  dict_get "result" response = Some res ->
  parse_response response =
    match err with JNull => Val res | _ => Exc (APIException err) end.
Proof.
  intros Hl He Hr. unfold parse_response. rewrite Hl, He, Hr. reflexivity.
Qed.

Lemma starts_with_length k s : starts_with k s = true -> String.length k <= String.length s.
Proof.
  revert s. induction k as [|a k IH]; intros [|b s]; simpl; try lia; try discriminate.
  intros H. apply andb_true_iff in H as [_ H]. apply IH in H. lia.
Qed.

Lemma str_contains_length k s : str_contains k s = true -> String.length k <= String.length s.
Proof.
  induction s as [|b s IH]; simpl.
  - rewrite orb_false_r. apply starts_with_length.
  - intros H. apply orb_true_iff in H as [H|H].
    + apply starts_with_length in H. exact H.
    + apply IH in H. lia.
Qed.

(** A string is never indexed: a string of length 2 holds no [error]. *)
Lemma parse_response_str s :
  exists msg, parse_response_any (JStr s) = Returns (Exc (UnexpectedAPIResponse msg)).
Proof.
  unfold parse_response_any.
  destruct (String.length s =? 2)%nat eqn:Hl; cbn [negb]; [|eauto].
  apply Nat.eqb_eq in Hl.
  destruct (str_contains "error" s) eqn:Hc; cbn [negb]; [|eauto].
  apply str_contains_length in Hc. simpl in Hc. lia.
Qed.

Lemma parse_response_any_api response e :
  parse_response_any response = Returns (Exc e) -> is_APIException e = true.
Proof.
  destruct response as [| | |s|l|d]; try discriminate.
  - destruct (parse_response_str s) as [msg ->]. intros [= <-]. reflexivity.
  - unfold parse_response_any.
    repeat (destruct (negb _); [intros [= <-]; reflexivity|]). discriminate.
  - intros [= H]. eapply parse_response_api. exact H.
Qed.

Lemma parse_response_any_raises response e :
  parse_response_any response = Raises e -> e = TypeError.
Proof.
  destruct response as [|b|n|s|l|d].
  - intros [= <-]. reflexivity.
  - intros [= <-]. reflexivity.
  - intros [= <-]. reflexivity.
  - destruct (parse_response_str s) as [msg ->]. discriminate.
  - unfold parse_response_any.
    repeat (destruct (negb _); [discriminate|]). intros [= <-]. reflexivity.
  - discriminate.
Qed.

Lemma parse_each_length rs os :
  parse_each rs = Returns os -> length os = length rs.
Proof.
  revert os. induction rs as [|r rs IH]; intros os; simpl.
  - intros [= <-]. reflexivity.
  - destruct (parse_response_any r) as [o|e]; [|discriminate].
    destruct (parse_each rs) as [os'|e]; [|discriminate].
    intros [= <-]. simpl. f_equal. apply IH. reflexivity.
Qed.

Lemma parse_each_lookup_any rs os K r :
  parse_each rs = Returns os -> rs !! K = Some r ->
  exists o, parse_response_any r = Returns o /\ os !! K = Some o.
Proof.
  revert os K. induction rs as [|r0 rs IH]; intros os K; simpl.
  - intros _ H. rewrite lookup_nil in H. discriminate.
  - destruct (parse_response_any r0) as [o0|e] eqn:E0; [|discriminate].
    destruct (parse_each rs) as [os'|e] eqn:E; [|discriminate].
    intros [= <-]. destruct K as [|K]; simpl.
    + intros [= <-]. eauto.
    + intros H. apply IH; [reflexivity|exact H].
Qed.

Lemma parse_each_lookup rs os K response :
  parse_each rs = Returns os -> rs !! K = Some (JObj response) ->
  os !! K = Some (parse_response response).
Proof.
  intros H HK. destruct (parse_each_lookup_any rs os K _ H HK) as (o & [= <-] & Ho).
  exact Ho.
Qed.

Lemma parse_each_api rs os :
  parse_each rs = Returns os ->
  Forall (fun o => forall e, o = Exc e -> is_APIException e = true) os.
Proof.
  revert os. induction rs as [|r rs IH]; intros os; simpl.
  - intros [= <-]. constructor.
  - destruct (parse_response_any r) as [o|e] eqn:E0; [|discriminate].
    destruct (parse_each rs) as [os'|e]; [|discriminate].
    intros [= <-]. constructor; [|apply IH; reflexivity].
    intros e He. subst o. eapply parse_response_any_api. exact E0.
Qed.

Lemma parse_each_raises rs e : parse_each rs = Raises e -> e = TypeError.
Proof.
  induction rs as [|r rs IH]; simpl; [discriminate|].
  destruct (parse_response_any r) as [o|e0] eqn:E0.
  - destruct (parse_each rs) as [os'|e1]; [discriminate|].
    intros [= <-]. apply IH. reflexivity.
  - intros [= <-]. eapply parse_response_any_raises. exact E0.
Qed.

(** One item on which [parse_response] raises ends the comprehension. *)
Lemma parse_each_item_raises rs K r :
  rs !! K = Some r -> parse_response_any r = Raises TypeError ->
  parse_each rs = Raises TypeError.
Proof.
  intros HK Hr. destruct (parse_each rs) as [os|e] eqn:E.
  - destruct (parse_each_lookup_any rs os K r E HK) as (o & Ho & _). congruence.
  - apply parse_each_raises in E. subst e. reflexivity.
Qed.

Lemma parse_each_objects (envs : list dict) :
  parse_each (JObj <$> envs) = Returns (parse_response <$> envs).
Proof.
  induction envs as [|env envs IH]; csimpl; [reflexivity|].
  rewrite IH. reflexivity.
Qed.

End Codec.

(** ** Delivery of the parsed responses to the futures *)

Section Delivery.

Lemma state_eta s :
  mkState (version s) (auto_await s) (actions s) (futures s) (deferred_results s)
    (dispatch_group s) (future_store s) (result_store s) (sent s) (awaits s) = s.
Proof. destruct s; reflexivity. Qed.

Lemma deliver_length pairs store : length (deliver pairs store) = length store.
Proof.
  revert store. induction pairs as [|[f o] pairs IH]; intros store; simpl; [reflexivity|].
  rewrite IH. apply length_insert.
Qed.

Lemma deliver_other pairs store f :
  f ∉ pairs.*1 -> deliver pairs store !! f = store !! f.
Proof.
  revert store. induction pairs as [|[f0 o] pairs IH]; intros store Hf; simpl; [reflexivity|].
  rewrite fmap_cons in Hf. simpl in Hf. apply not_elem_of_cons in Hf as [Hne Hf].
  rewrite IH by exact Hf. apply list_lookup_insert_ne. congruence.
Qed.

Lemma elem_of_fst_zip (futs : list nat) (os : list outcome) f :
  f ∈ (zip futs os).*1 -> f ∈ futs.
Proof.
  revert os. induction futs as [|f0 futs IH]; intros [|o os]; csimpl;
    try (intros H; apply elem_of_nil in H; contradiction).
  intros [->|H]%elem_of_cons; [left|right; eauto].
Qed.

Lemma deliver_lookup (futs : list nat) (os : list outcome) store K f o :
  NoDup futs -> futs !! K = Some f -> os !! K = Some o -> f < length store ->
  deliver (zip futs os) store !! f = Some (Done o).
Proof.
  revert os store K. induction futs as [|f0 futs IH]; intros os store K Hnd Hf Ho Hlt.
  - rewrite lookup_nil in Hf. discriminate.
  - destruct os as [|o0 os]; [rewrite lookup_nil in Ho; discriminate|].
    apply NoDup_cons in Hnd as [Hnotin Hnd]. simpl.
    destruct K as [|K]; simpl in Hf, Ho.
    + injection Hf as ->. injection Ho as ->.
      rewrite deliver_other.
      * apply list_lookup_insert_eq. exact Hlt.
      * intros Hin. apply Hnotin. eapply elem_of_fst_zip. exact Hin.
    + eapply IH; eauto. rewrite length_insert. exact Hlt.
Qed.

Lemma deliver_done pairs store f o :
  store !! f = Some (Done o) ->
  (forall f', f' ∈ pairs.*1 -> store !! f' = Some Pending) ->
  deliver pairs store !! f = Some (Done o).
Proof.
  intros Hd Hp. rewrite deliver_other; [exact Hd|].
  intros Hin. apply Hp in Hin. congruence.
Qed.

(** Where a delivered store holds something done, it is either what was
    there before or one of the delivered outcomes. *)
Lemma deliver_inv pairs store f o :
  deliver pairs store !! f = Some (Done o) ->
  store !! f = Some (Done o) \/ o ∈ pairs.*2.
Proof.
  revert store. induction pairs as [|[f0 o0] pairs IH]; intros store; simpl; [auto|].
  intros H. apply IH in H as [H|H].
  - destruct (decide (f0 = f)) as [->|Hne].
    + destruct (decide (f < length store)) as [Hlt|Hge].
      * rewrite list_lookup_insert_eq in H by exact Hlt. injection H as <-.
        right. csimpl. left.
      * rewrite list_insert_ge in H by lia. auto.
    + rewrite list_lookup_insert_ne in H by exact Hne. auto.
  - right. csimpl. right. exact H.
Qed.

Lemma for_each_deliver (pairs : list (nat * outcome)) s :
  NoDup pairs.*1 ->
  (forall f, f ∈ pairs.*1 -> future_store s !! f = Some Pending) ->
  for_each pairs
    (fun '(fut, result) =>
       match result with
       | Exc e => set_exception fut e
       | Val v => set_result fut v
       end) s
  = (Return tt, set_future_store (deliver pairs (future_store s)) s).
Proof.
  revert s. induction pairs as [|[f o] pairs IH]; intros s Hnd Hp.
  - simpl. unfold ret. rewrite <- (state_eta s) at 1. reflexivity.
  - rewrite fmap_cons in Hnd, Hp. simpl in Hnd, Hp.
    apply NoDup_cons in Hnd as [Hnotin Hnd].
    assert (Hf : future_store s !! f = Some Pending) by (apply Hp; left).
    cbn [for_each]. unfold bind at 1.
    assert (Hstep : (match o with
                     | Exc e => set_exception f e
                     | Val v => set_result f v
                     end) s
                    = (Return tt, set_future_store (<[f := Done o]> (future_store s)) s)).
    { destruct o; unfold set_exception, set_result, future_set; rewrite Hf; reflexivity. }
    rewrite Hstep. rewrite IH.
    + reflexivity.
    + exact Hnd.
    + intros f' Hin. simpl. rewrite list_lookup_insert_ne.
      * apply Hp. right. exact Hin.
      * intros ->. contradiction.
Qed.

Lemma handle_responses_mismatch os s :
  length (futures s) <> length os ->
  _handle_responses os s = (Raise AssertionError, s).
Proof.
  intros Hne. unfold _handle_responses. unfold_m.
  destruct (length (futures s) =? length os)%nat eqn:E; [|reflexivity].
  apply Nat.eqb_eq in E. contradiction.
Qed.

Lemma handle_responses_ok os s :
  NoDup (futures s) ->
  (forall f, f ∈ futures s -> future_store s !! f = Some Pending) ->
  length (futures s) = length os ->
  _handle_responses os s = (Return tt, delivered os s).
Proof.
  intros Hnd Hp Hlen. unfold _handle_responses. unfold_m.
  rewrite Hlen, Nat.eqb_refl. simpl.
  assert (Hfst : (zip (futures s) os).*1 = futures s) by (apply fst_zip; lia).
  rewrite for_each_deliver.
  - reflexivity.
  - rewrite Hfst. exact Hnd.
  - rewrite Hfst. exact Hp.
Qed.

End Delivery.

(** ** The invariant is kept by every step *)

Section Invariant.

Lemma inv_init v aa : inv (init v aa).
Proof.
  constructor; simpl; try (intros; rewrite ?lookup_nil in *; discriminate).
  - reflexivity.
  - constructor.
  - intros f Hf. apply elem_of_nil in Hf. contradiction.
  - exists [], []. repeat split; constructor.
Qed.

Lemma inv_flushing s : inv s -> inv (flushing s) /\ all_flushed (flushing s).
Proof.
  intros [Hlen Hnd Hp Hg Hc Hca He Hd Hfu]. split.
  - constructor; simpl; eauto.
    + intros p d Hl. apply Hg in Hl. lia.
    + intros p d Hl Heq. apply Hg in Hl. lia.
  - intros p d Hl. simpl. apply Hg in Hl. lia.
Qed.

Lemma inv_set_awaits aw s : inv s -> inv (set_awaits aw s).
Proof. intros [Hlen Hnd Hp Hg Hc Hca He Hd Hfu]. constructor; simpl; eauto. Qed.

Lemma all_flushed_set_awaits aw s : all_flushed s -> all_flushed (set_awaits aw s).
Proof. intros H p d Hl. exact (H p d Hl). Qed.

Lemma inv_delivered os s :
  inv s -> all_flushed s -> length (futures s) = length os ->
  Forall (fun o => forall e, o = Exc e -> is_APIException e = true) os ->
  inv (delivered os s) /\ all_flushed (delivered os s).
Proof.
  intros [Hlen Hnd Hp Hg Hc Hca He Hd Hfu] Hfl Hlo Hapi.
  assert (Hfst : (zip (futures s) os).*1 = futures s) by (apply fst_zip; lia).
  assert (Hkeep : forall f o, future_store s !! f = Some (Done o) ->
            deliver (zip (futures s) os) (future_store s) !! f = Some (Done o)).
  { intros f o Hf. apply deliver_done; [exact Hf|]. rewrite Hfst. exact Hp. }
  split; [|intros p d Hl; exact (Hfl p d Hl)].
  constructor; simpl.
  - reflexivity.
  - constructor.
  - intros f Hf. apply elem_of_nil in Hf. contradiction.
  - exact Hg.
  - intros p d Hl Heq. apply Hfl in Hl. lia.
  - intros p d v Hl Hv. apply Hkeep. eauto.
  - intros f e Hf. apply deliver_inv in Hf as [Hf|Hin]; [eauto|].
    rewrite Forall_forall in Hapi. apply (Hapi (Exc e)); [|reflexivity].
    assert (Hsnd : (zip (futures s) os).*2 = os) by (apply snd_zip; lia).
    rewrite Hsnd in Hin. exact Hin.
  - destruct Hd as (old & cur & Hdr & Hcur & Hold).
    exists (old ++ cur), []. split; [rewrite app_nil_r; exact Hdr|].
    split; [constructor|].
    apply Forall_app. split.
    + eapply Forall_impl; [exact Hold|]. simpl.
      intros p (d & o & Hl & Hf). exists d, o. split; [exact Hl|]. apply Hkeep. exact Hf.
    + apply Forall_forall. intros p Hin.
      apply list_elem_of_lookup in Hin as [K HK].
      destruct (Forall2_lookup_l _ _ _ _ _ Hcur HK) as (f & Hf & d & Hl & Hfd).
      assert (Hlt : K < length os).
      { rewrite <- Hlo. eapply lookup_lt_Some. exact Hf. }
      apply lookup_lt_is_Some in Hlt as [o Ho].
      exists d, o. split; [exact Hl|]. rewrite Hfd.
      eapply deliver_lookup; eauto.
      eapply lookup_lt_Some. apply Hp. eapply list_elem_of_lookup_2. exact Hf.
  - intros p d Hl. rewrite deliver_length. eauto.
Qed.

Lemma add_action_eq ver a ps s :
  add_action ver a ps s =
  (Return (length (result_store s)),
   mkState (version s) (auto_await s)
     (actions s ++ [make_request ver a ps])
     (futures s ++ [length (future_store s)])
     (deferred_results s ++ [length (result_store s)])
     (dispatch_group s)
     (future_store s ++ [Pending])
     (result_store s ++ [mkDeferredResult (length (future_store s)) (dispatch_group s)
                           None None])
     (sent s) (awaits s)).
Proof. reflexivity. Qed.

Lemma inv_add_action ver a ps s : inv s -> inv (snd (add_action ver a ps s)).
Proof.
  intros [Hlen Hnd Hp Hg Hc Hca He Hd Hfu]. rewrite add_action_eq. simpl.
  assert (Hfresh : length (future_store s) ∉ futures s).
  { intros Hin. apply Hp in Hin. apply lookup_lt_Some in Hin. lia. }
  assert (Hold : forall p d,
            (result_store s ++ [mkDeferredResult (length (future_store s))
                                  (dispatch_group s) None None]) !! p = Some d ->
            result_store s !! p = Some d
            \/ d = mkDeferredResult (length (future_store s)) (dispatch_group s) None None).
  { intros p d Hl. apply lookup_app_Some in Hl as [Hl|[_ Hl]]; [auto|].
    apply list_lookup_singleton_Some in Hl as [_ <-]. auto. }
  constructor; simpl.
  - rewrite !length_app. simpl. lia.
  - apply NoDup_app. split; [exact Hnd|]. split.
    + intros f Hf Hf'. apply list_elem_of_singleton in Hf'. subst f. contradiction.
    + apply NoDup_singleton.
  - intros f Hf. apply elem_of_app in Hf as [Hf|Hf].
    + rewrite lookup_app_l; [eauto|]. eapply lookup_lt_Some. eauto.
    + apply list_elem_of_singleton in Hf. subst f.
      rewrite lookup_app_r by lia. rewrite Nat.sub_diag. reflexivity.
  - intros p d Hl. apply Hold in Hl as [Hl| ->]; [eauto|]. simpl. lia.
  - intros p d Hl Heq. apply elem_of_app. apply Hold in Hl as [Hl| ->].
    + left. eauto.
    + right. simpl. left.
  - intros p d v Hl Hv. apply Hold in Hl as [Hl| ->]; [|discriminate].
    specialize (Hca p d v Hl Hv). rewrite lookup_app_l; [exact Hca|].
    eapply lookup_lt_Some. exact Hca.
  - intros f e Hf. apply lookup_app_Some in Hf as [Hf|[_ Hf]]; [eauto|].
    apply list_lookup_singleton_Some in Hf as [_ Hf]. discriminate.
  - destruct Hd as (old & cur & Hdr & Hcur & Hdone).
    exists old, (cur ++ [length (result_store s)]). split; [rewrite Hdr, <- (assoc_L (++)); reflexivity|].
    split.
    + apply Forall2_app.
      * eapply Forall2_impl; [exact Hcur|]. simpl. intros p f (d & Hl & Hf).
        exists d. split; [|exact Hf]. apply lookup_app_l_Some. exact Hl.
      * constructor; [|constructor]. eexists. split.
        { rewrite lookup_app_r by lia. rewrite Nat.sub_diag. reflexivity. }
        reflexivity.
    + eapply Forall_impl; [exact Hdone|]. simpl. intros p (d & o & Hl & Hf).
      exists d, o. split; apply lookup_app_l_Some; assumption.
  - intros p d Hl. rewrite length_app. simpl.
    apply Hold in Hl as [Hl| ->]; [apply Hfu in Hl; lia|simpl; lia].
Qed.

End Invariant.

(** ** What a flush does *)


Lemma bind_continue {A B} (c : M A) (k : A -> M B) s :
  bind c k s = continue (fst (c s)) (snd (c s)) k.
Proof. unfold bind, continue. destruct (c s) as [[] ?]; reflexivity. Qed.

Section Flush.

Variable endpoint : nat -> json -> http_outcome.


(** The last steps of a flush's round trip: the [result] of the reply is
    iterated and its items are parsed. *)
Lemma reply_unfold s :
  reply endpoint s
  = match endpoint (length (sent s)) (composite s) with
    | RequestError url =>
        Raise (APIException (JStr
          (String.append "An error occurred while requesting " (String.append url "."))))
    | HTTPStatusError status_code text =>
        Raise (APIException (JStr
          (String.append "HTTP error occurred: "
             (String.append status_code (String.append " " text)))))
    | NotJSON => Raise JSONDecodeError
    | Body response =>
        match parse_response_any response with
        | Raises e => Raise e
        | Returns (Exc e) => Raise e
        | Returns (Val v) =>
            match iterate v with
            | Raises e => Raise e
            | Returns rs =>
                match parse_each rs with
                | Raises e => Raise e
                | Returns os => Return os
                end
            end
        end
    end.
Proof.
  unfold reply, bind, invoke_no_batch, parse_responses, call, composite. simpl.
  destruct (endpoint _ _) as [u|c t| |response]; try reflexivity.
  destruct (parse_response_any response) as [[v|e]|e]; try reflexivity.
  simpl. destruct (iterate v) as [rs|e]; [|reflexivity].
  destruct (parse_each rs); reflexivity.
Qed.

Lemma reply_state s :
  snd ((responses <- invoke_no_batch endpoint "multi" [("actions", JList (actions s))] ;;
        parse_responses responses)
         (set_dispatch_group (dispatch_group s + 1) s)) = flushing s.
Proof.
  unfold bind, invoke_no_batch, parse_responses, call. simpl.
  destruct (endpoint _ _) as [u|c t| |response]; try reflexivity.
  destruct (parse_response_any response) as [[v|e]|e]; reflexivity.
Qed.



Lemma reply_items s top (items : list json) :
  endpoint (length (sent s)) (composite s) = Body (JObj top) ->
  parse_response top = Val (JList items) ->
  reply endpoint s = match parse_each items with
                     | Raises e => Raise e
                     | Returns os => Return os
                     end.
Proof.
  intros H Htop. rewrite reply_unfold, H. cbn [parse_response_any]. rewrite Htop.
  reflexivity.
Qed.

Lemma reply_body s top (envs : list dict) :
  endpoint (length (sent s)) (composite s) = Body (JObj top) ->
  parse_response top = Val (JList (JObj <$> envs)) ->
  reply endpoint s = Return (parse_response <$> envs).
Proof.
  intros H Htop. rewrite (reply_items s top _ H Htop), parse_each_objects. reflexivity.
Qed.

Lemma reply_api s os :
  reply endpoint s = Return os ->
  Forall (fun o => forall e, o = Exc e -> is_APIException e = true) os.
Proof.
  rewrite reply_unfold.
  destruct (endpoint _ _) as [u|c t| |response]; try discriminate.
  destruct (parse_response_any response) as [[v|e]|e]; try discriminate.
  destruct (iterate v) as [rs|e]; [|discriminate].
  destruct (parse_each rs) as [os'|e] eqn:E; [|discriminate].
  intros [= <-]. eapply parse_each_api. exact E.
Qed.

(** The round trip of a flush gives the parsed responses or raises: the
    library's exception for a transport error or an error reply,
    [JSONDecodeError] for a body that is not JSON, [TypeError] for a reply
    with a part that has no [len] or cannot be iterated or indexed. *)
Lemma reply_cases s :
  (exists os, reply endpoint s = Return os)
  \/ (exists e, reply endpoint s = Raise e
                /\ (is_APIException e = true \/ e = JSONDecodeError \/ e = TypeError)).
Proof.
  rewrite reply_unfold.
  destruct (endpoint _ _) as [u|c t| |response]; try (right; eexists; split; eauto; fail).
  destruct (parse_response_any response) as [[v|e]|e] eqn:E.
  - destruct v as [|b|n|str|l|d]; cbn [iterate];
      try (right; eexists; split; eauto; fail);
      match goal with
      | |- context [parse_each ?rs] =>
          destruct (parse_each rs) as [os|e] eqn:E';
          [left; eauto
          |apply parse_each_raises in E'; subst e; right; eexists; split; eauto]
      end.
  - right. exists e. split; [reflexivity|]. left. eapply parse_response_any_api. exact E.
  - right. exists e. split; [reflexivity|]. right. right.
    eapply parse_response_any_raises. exact E.
Qed.

Lemma sync_dispatch_empty s : actions s = [] -> sync_dispatch endpoint s = (Return tt, s).
Proof. intros H. unfold sync_dispatch. unfold_m. rewrite H. reflexivity. Qed.

Lemma sync_dispatch_send s :
  actions s <> [] ->
  sync_dispatch endpoint s = continue (reply endpoint s) (flushing s) _handle_responses.
Proof.
  intros H.
  unfold sync_dispatch, reply, continue, flushing, composite, bind, get, modify,
    invoke_no_batch, parse_responses.
  destruct (actions s) as [|a acts] eqn:Ha; [contradiction|]. simpl.
  destruct (endpoint _ _) as [u|c t| |response]; try reflexivity.
  destruct (parse_response_any response) as [[v|e]|e]; reflexivity.
Qed.


Lemma handle_responses_settle os s : inv s -> _handle_responses os s = settle os s.
Proof.
  intros Hinv. unfold settle.
  destruct (length (futures s) =? length os)%nat eqn:E.
  - apply Nat.eqb_eq in E. apply handle_responses_ok; [apply Hinv|apply Hinv|exact E].
  - apply Nat.eqb_neq in E. apply handle_responses_mismatch. exact E.
Qed.

Lemma sync_dispatch_spec s :
  inv s -> actions s <> [] ->
  sync_dispatch endpoint s = continue (reply endpoint s) (flushing s) settle.
Proof.
  intros Hinv Hne. rewrite sync_dispatch_send by exact Hne.
  destruct (reply endpoint s); simpl; try reflexivity.
  apply handle_responses_settle. apply inv_flushing. exact Hinv.
Qed.

Lemma await_over_done dispatch p s d o :
  result_store s !! p = Some d ->
  _batcher_group d < dispatch_group s ->
  future_store s !! _future d = Some (Done o) ->
  await_over dispatch p s = (result_of o, set_awaits (awaits s ++ [p]) s).
Proof.
  intros Hl Hg Hf. unfold await_over. unfold_m. rewrite Hl. simpl.
  assert (E : (dispatch_group s <=? _batcher_group d)%nat = false)
    by (apply Nat.leb_gt; exact Hg).
  rewrite E. unfold future_await. simpl. rewrite Hf.
  destruct o; reflexivity.
Qed.

Lemma drain_done fuel results s :
  inv s -> all_flushed s ->
  Forall (fun p => exists d o, result_store s !! p = Some d
                   /\ future_store s !! _future d = Some (Done o)) results ->
  drain endpoint fuel results s = (Return tt, set_awaits (awaits s ++ results) s).
Proof.
  revert s. induction results as [|p results IH]; intros s Hinv Hfl Hall.
  - unfold drain. simpl. unfold ret. rewrite app_nil_r.
    rewrite <- (state_eta s) at 1. reflexivity.
  - apply Forall_cons in Hall as [(d & o & Hl & Hf) Hall].
    unfold drain in *. cbn [for_each]. unfold bind at 1.
    unfold try_except_APIException at 1.
    rewrite (await_over_done _ p s d o Hl (Hfl p d Hl) Hf).
    assert (Hnext : for_each results
              (fun result => try_except_APIException
                 (await_over (async_dispatch endpoint fuel) result))
              (set_awaits (awaits s ++ [p]) s)
            = (Return tt, set_awaits (awaits s ++ p :: results) s)).
    { rewrite IH.
      - simpl. rewrite <- (assoc_L (++)). reflexivity.
      - apply inv_set_awaits. exact Hinv.
      - apply all_flushed_set_awaits. exact Hfl.
      - exact Hall. }
    destruct o as [v|e]; simpl.
    + exact Hnext.
    + rewrite (inv_exc s Hinv _ e Hf). exact Hnext.
Qed.


Lemma async_dispatch_empty fuel s :
  actions s = [] -> async_dispatch endpoint (S fuel) s = (Return tt, s).
Proof.
  intros H. simpl. unfold async_dispatch_over. unfold_m. rewrite H. reflexivity.
Qed.

Lemma async_dispatch_send fuel s :
  actions s <> [] ->
  async_dispatch endpoint (S fuel) s =
  continue (reply endpoint s) (flushing s)
    (fun os =>
       _handle_responses os ;;
       auto <- get auto_await ;;
       if auto then
         results <- get deferred_results ;;
         drain endpoint fuel results ;;
         modify (set_deferred_results [])
       else ret tt).
Proof.
  intros H. cbn [async_dispatch].
  unfold async_dispatch_over, reply, continue, flushing, composite, bind, get, modify,
    invoke_no_batch, parse_responses.
  destruct (actions s) as [|a acts] eqn:Ha; [contradiction|]. simpl.
  destruct (endpoint _ _) as [u|c t| |response]; try reflexivity.
  destruct (parse_response_any response) as [[v|e]|e]; reflexivity.
Qed.

Lemma inv_deferred_done s :
  inv s -> futures s = [] ->
  Forall (fun p => exists d o, result_store s !! p = Some d
                   /\ future_store s !! _future d = Some (Done o)) (deferred_results s).
Proof.
  intros Hinv Hf. destruct (inv_deferred s Hinv) as (old & cur & Hdr & Hcur & Hold).
  rewrite Hf in Hcur. apply Forall2_nil_inv_r in Hcur. subst cur.
  rewrite Hdr, app_nil_r. exact Hold.
Qed.

Lemma async_dispatch_spec fuel s :
  inv s -> actions s <> [] ->
  async_dispatch endpoint (S fuel) s = continue (reply endpoint s) (flushing s) settle_async.
Proof.
  intros Hinv Hne. rewrite async_dispatch_send by exact Hne.
  destruct (reply endpoint s) as [os| | | |] eqn:Hr; simpl; try reflexivity.
  destruct (inv_flushing s Hinv) as [Hinv1 Hfl1].
  rewrite bind_continue. rewrite handle_responses_settle by exact Hinv1.
  unfold settle, settle_async.
  destruct (length (futures (flushing s)) =? length os)%nat eqn:E; [|reflexivity].
  apply Nat.eqb_eq in E.
  destruct (inv_delivered os (flushing s) Hinv1 Hfl1 E (reply_api s os Hr)) as [Hinv2 Hfl2].
  cbn [fst snd continue]. unfold bind at 1. unfold get at 1.
  change (auto_await (delivered os (flushing s))) with (auto_await (flushing s)).
  destruct (auto_await (flushing s)); [|reflexivity].
  unfold bind at 1. unfold get at 1. unfold bind at 1.
  rewrite drain_done; [reflexivity|exact Hinv2|exact Hfl2|].
  apply inv_deferred_done; [exact Hinv2|reflexivity].
Qed.

Lemma inv_drained os s :
  inv (delivered os s) ->
  inv (set_deferred_results [] (set_awaits (awaits s ++ deferred_results s) (delivered os s))).
Proof.
  intros [Hlen Hnd Hp Hg Hc Hca He Hd Hfu]. constructor; simpl in *; eauto.
  exists [], []. repeat split; constructor.
Qed.

Lemma inv_continue_settle r s :
  inv s -> all_flushed s ->
  (forall os, r = Return os ->
     Forall (fun o => forall e, o = Exc e -> is_APIException e = true) os) ->
  inv (snd (continue r s settle)) /\ inv (snd (continue r s settle_async)).
Proof.
  intros Hinv Hfl Hapi. destruct r as [os| | | |]; simpl; auto.
  unfold settle, settle_async.
  destruct (length (futures s) =? length os)%nat eqn:E; simpl; auto.
  apply Nat.eqb_eq in E.
  destruct (inv_delivered os s Hinv Hfl E (Hapi os eq_refl)) as [Hinv2 Hfl2].
  split; [exact Hinv2|]. destruct (auto_await s); [|exact Hinv2].
  apply inv_drained. exact Hinv2.
Qed.

Lemma inv_sync_dispatch s : inv s -> inv (snd (sync_dispatch endpoint s)).
Proof.
  intros Hinv. destruct (actions s) as [|a acts] eqn:Ha.
  - rewrite sync_dispatch_empty by exact Ha. exact Hinv.
  - rewrite sync_dispatch_spec; [|exact Hinv|congruence].
    destruct (inv_flushing s Hinv) as [H1 H2].
    apply (inv_continue_settle (reply endpoint s) (flushing s) H1 H2). apply reply_api.
Qed.

Lemma inv_async_dispatch fuel s : inv s -> inv (snd (async_dispatch endpoint fuel s)).
Proof.
  intros Hinv. destruct fuel as [|fuel]; [exact Hinv|].
  destruct (actions s) as [|a acts] eqn:Ha.
  - rewrite async_dispatch_empty by exact Ha. exact Hinv.
  - rewrite async_dispatch_spec; [|exact Hinv|congruence].
    destruct (inv_flushing s Hinv) as [H1 H2].
    apply (inv_continue_settle (reply endpoint s) (flushing s) H1 H2). apply reply_api.
Qed.

(** *** What later states keep of earlier ones *)


Lemma extends_refl s : extends s s.
Proof.
  constructor; eauto. exists []. rewrite app_nil_r. reflexivity.
Qed.

Lemma extends_trans s1 s2 s3 : extends s1 s2 -> extends s2 s3 -> extends s1 s3.
Proof.
  intros [Hg1 Hd1 Hh1 [m1 Hs1]] [Hg2 Hd2 Hh2 [m2 Hs2]]. constructor.
  - lia.
  - eauto.
  - intros p d Hl. destruct (Hh1 p d Hl) as (d' & Hl' & Hf' & Hg').
    destruct (Hh2 p d' Hl') as (d'' & Hl'' & Hf'' & Hg'').
    exists d''. split; [exact Hl''|]. split; congruence.
  - exists (m1 ++ m2). rewrite Hs2, Hs1, (assoc_L (++)). reflexivity.
Qed.

Lemma extends_flushing s : extends s (flushing s).
Proof.
  constructor; simpl; eauto.
  - lia.
Qed.

Lemma extends_set_awaits aw s : extends s (set_awaits aw s).
Proof.
  constructor; simpl; eauto. exists []. rewrite app_nil_r. reflexivity.
Qed.

Lemma extends_set_deferred_results l s : extends s (set_deferred_results l s).
Proof.
  constructor; simpl; eauto. exists []. rewrite app_nil_r. reflexivity.
Qed.

Lemma extends_delivered os s :
  inv s -> length (futures s) = length os -> extends s (delivered os s).
Proof.
  intros Hinv Hlen. constructor; simpl; eauto.
  - intros f o Hf. apply deliver_done; [exact Hf|].
    rewrite fst_zip by lia. apply Hinv.
  - exists []. rewrite app_nil_r. reflexivity.
Qed.

Lemma extends_add_action ver a ps s : extends s (snd (add_action ver a ps s)).
Proof.
  rewrite add_action_eq. constructor; simpl.
  - lia.
  - intros f o Hf. apply lookup_app_l_Some. exact Hf.
  - intros p d Hl. exists d. split; [apply lookup_app_l_Some; exact Hl|auto].
  - exists []. rewrite app_nil_r. reflexivity.
Qed.

Lemma extends_continue_settle r s :
  inv s ->
  extends s (snd (continue r s settle)) /\ extends s (snd (continue r s settle_async)).
Proof.
  intros Hinv. destruct r as [os| | | |]; simpl; auto using extends_refl.
  unfold settle, settle_async.
  destruct (length (futures s) =? length os)%nat eqn:E; simpl; auto using extends_refl.
  apply Nat.eqb_eq in E. pose proof (extends_delivered os s Hinv E) as Hd.
  split; [exact Hd|]. destruct (auto_await s); [|exact Hd].
  eapply extends_trans; [exact Hd|].
  eapply extends_trans; [apply extends_set_awaits|apply extends_set_deferred_results].
Qed.

Lemma extends_sync_dispatch s : inv s -> extends s (snd (sync_dispatch endpoint s)).
Proof.
  intros Hinv. destruct (actions s) as [|a acts] eqn:Ha.
  - rewrite sync_dispatch_empty by exact Ha. apply extends_refl.
  - rewrite sync_dispatch_spec; [|exact Hinv|congruence].
    eapply extends_trans; [apply extends_flushing|].
    apply extends_continue_settle. apply inv_flushing. exact Hinv.
Qed.

Lemma extends_async_dispatch fuel s :
  inv s -> extends s (snd (async_dispatch endpoint fuel s)).
Proof.
  intros Hinv. destruct fuel as [|fuel]; [apply extends_refl|].
  destruct (actions s) as [|a acts] eqn:Ha.
  - rewrite async_dispatch_empty by exact Ha. apply extends_refl.
  - rewrite async_dispatch_spec; [|exact Hinv|congruence].
    eapply extends_trans; [apply extends_flushing|].
    apply extends_continue_settle. apply inv_flushing. exact Hinv.
Qed.

(** *** The caches of a handle *)

Lemma lookup_alter_inv (g : DeferredResult -> DeferredResult) p
    (store : list DeferredResult) q d' :
  alter g p store !! q = Some d' ->
  exists d, store !! q = Some d /\ (d' = d \/ (q = p /\ d' = g d)).
Proof.
  destruct (decide (p = q)) as [->|Hne].
  - rewrite list_lookup_alter_eq. destruct (store !! q) as [d|]; [|discriminate].
    simpl. intros [= <-]. eauto.
  - rewrite list_lookup_alter_ne by exact Hne. eauto.
Qed.

Lemma lookup_alter_fwd (g : DeferredResult -> DeferredResult) p
    (store : list DeferredResult) q d :
  store !! q = Some d ->
  exists d', alter g p store !! q = Some d' /\ (d' = d \/ d' = g d).
Proof.
  intros Hl. destruct (decide (p = q)) as [->|Hne].
  - rewrite list_lookup_alter_eq, Hl. simpl. eauto.
  - rewrite list_lookup_alter_ne by exact Hne. eauto.
Qed.

Lemma inv_recache (g : DeferredResult -> DeferredResult) p s :
  (forall d, _future (g d) = _future d /\ _batcher_group (g d) = _batcher_group d) ->
  (forall d v, result_store s !! p = Some d -> value_cache (g d) = Some v ->
     future_store s !! _future d = Some (Done (Val v))) ->
  inv s -> inv (set_result_store (alter g p (result_store s)) s).
Proof.
  intros Hg Hv [Hlen Hnd Hp Hgr Hc Hca He Hd Hfu].
  assert (Hfwd : forall q d, result_store s !! q = Some d ->
            exists d', alter g p (result_store s) !! q = Some d' /\ _future d' = _future d).
  { intros q d Hl. destruct (lookup_alter_fwd g p _ q d Hl) as (d' & Hl' & [->| ->]).
    - exists d. split; [exact Hl'|reflexivity].
    - exists (g d). split; [exact Hl'|apply Hg]. }
  constructor; simpl; eauto.
  - intros q d' Hl. apply lookup_alter_inv in Hl as (d & Hl & [->|[_ ->]]).
    + eauto.
    + destruct (Hg d) as [_ ->]. eauto.
  - intros q d' Hl. apply lookup_alter_inv in Hl as (d & Hl & [->|[_ ->]]).
    + eauto.
    + destruct (Hg d) as [-> ->]. eauto.
  - intros q d' v Hl Hcv. apply lookup_alter_inv in Hl as (d & Hl & [->|[-> ->]]).
    + eauto.
    + destruct (Hg d) as [-> _]. eauto.
  - destruct Hd as (old & cur & Hdr & Hcur & Hold). exists old, cur.
    split; [exact Hdr|]. split.
    + eapply Forall2_impl; [exact Hcur|]. simpl. intros q f (d & Hl & Hf).
      destruct (Hfwd q d Hl) as (d' & Hl' & Hf'). exists d'. split; congruence.
    + eapply Forall_impl; [exact Hold|]. simpl. intros q (d & o & Hl & Hf).
      destruct (Hfwd q d Hl) as (d' & Hl' & Hf'). exists d', o. split; congruence.
  - intros q d' Hl. apply lookup_alter_inv in Hl as (d & Hl & [->|[_ ->]]).
    + eauto.
    + destruct (Hg d) as [-> _]. eauto.
Qed.

Lemma extends_recache (g : DeferredResult -> DeferredResult) p s :
  (forall d, _future (g d) = _future d /\ _batcher_group (g d) = _batcher_group d) ->
  extends s (set_result_store (alter g p (result_store s)) s).
Proof.
  intros Hg. constructor; simpl; eauto.
  - intros q d Hl. destruct (lookup_alter_fwd g p _ q d Hl) as (d' & Hl' & [->| ->]).
    + eauto.
    + exists (g d). split; [exact Hl'|]. apply Hg.
  - exists []. rewrite app_nil_r. reflexivity.
Qed.

Lemma inv_cache_value p v s d :
  result_store s !! p = Some d ->
  future_store s !! _future d = Some (Done (Val v)) ->
  inv s -> inv (cache_value p v s).
Proof.
  intros Hl Hf Hinv. apply inv_recache; [| |exact Hinv].
  - intros d0. split; reflexivity.
  - intros d0 v0 Hl0 [= <-]. congruence.
Qed.

Lemma inv_cache_async_value p c s : inv s -> inv (cache_async_value p c s).
Proof.
  intros Hinv. apply inv_recache; [| |exact Hinv].
  - intros d0. split; reflexivity.
  - intros d0 v0 Hl0 Hv. simpl in Hv. eapply inv_cache; eauto.
Qed.

(** *** Reading a handle *)


Lemma value_missing p s : result_store s !! p = None -> value endpoint p s = (Unmodelled, s).
Proof. intros H. unfold value. unfold_m. rewrite H. reflexivity. Qed.

Lemma value_cached p s d v :
  result_store s !! p = Some d -> value_cache d = Some v ->
  value endpoint p s = (Return v, s).
Proof. intros H Hc. unfold value. unfold_m. rewrite H. simpl. rewrite Hc. reflexivity. Qed.

Lemma value_uncached p s d :
  result_store s !! p = Some d -> value_cache d = None ->
  value endpoint p s =
  continue (fst (before_read (sync_dispatch endpoint) d s))
    (snd (before_read (sync_dispatch endpoint) d s))
    (fun _ s1 =>
       match future_store s1 !! _future d with
       | Some (Done (Val v)) => (Return v, cache_value p v s1)
       | Some (Done (Exc e)) => (Raise e, s1)
       | Some Pending => (Raise InvalidStateError, s1)
       | None => (Unmodelled, s1)
       end).
Proof.
  intros H Hc. unfold value, before_read. unfold_m. rewrite H. simpl. rewrite Hc.
  destruct (dispatch_group s <=? _batcher_group d)%nat.
  - destruct (sync_dispatch endpoint s) as [[] s1]; simpl; try reflexivity.
    unfold future_result. destruct (future_store s1 !! _future d) as [[|[]]|]; reflexivity.
  - simpl. unfold future_result.
    destruct (future_store s !! _future d) as [[|[]]|]; reflexivity.
Qed.

Lemma await_missing dispatch p s :
  result_store s !! p = None -> await_over dispatch p s = (Unmodelled, s).
Proof. intros H. unfold await_over. unfold_m. rewrite H. reflexivity. Qed.

Lemma await_unfold dispatch p s d :
  result_store s !! p = Some d ->
  await_over dispatch p s =
  continue (fst (before_read dispatch d (set_awaits (awaits s ++ [p]) s)))
    (snd (before_read dispatch d (set_awaits (awaits s ++ [p]) s)))
    (fun _ s1 =>
       match future_store s1 !! _future d with
       | Some (Done o) => (result_of o, s1)
       | Some Pending => (Blocked, s1)
       | None => (Unmodelled, s1)
       end).
Proof.
  intros H. unfold await_over, before_read. unfold_m. rewrite H. simpl.
  destruct (dispatch_group s <=? _batcher_group d)%nat.
  - destruct (dispatch _) as [[] s1]; simpl; try reflexivity.
    unfold future_await. destruct (future_store s1 !! _future d) as [[|[]]|]; reflexivity.
  - simpl. unfold future_await. simpl.
    destruct (future_store s !! _future d) as [[|[]]|]; reflexivity.
Qed.

Lemma await_async_value_missing fuel p s :
  result_store s !! p = None -> await_async_value endpoint fuel p s = (Unmodelled, s).
Proof. intros H. unfold await_async_value. unfold_m. rewrite H. reflexivity. Qed.

Lemma await_async_value_again fuel p s d :
  result_store s !! p = Some d -> async_value_cache d = Some CoroAwaited ->
  await_async_value endpoint fuel p s =
  (Raise (RuntimeError "cannot reuse already awaited coroutine"), s).
Proof.
  intros H Hc. unfold await_async_value. unfold_m. rewrite H. simpl. rewrite Hc.
  reflexivity.
Qed.

Lemma await_async_value_first fuel p s d :
  result_store s !! p = Some d -> async_value_cache d <> Some CoroAwaited ->
  await_async_value endpoint fuel p s =
  continue (fst (before_read (async_dispatch endpoint fuel) d
                   (cache_async_value p CoroAwaited s)))
    (snd (before_read (async_dispatch endpoint fuel) d (cache_async_value p CoroAwaited s)))
    (fun _ s1 =>
       match future_store s1 !! _future d with
       | Some (Done o) => (result_of o, s1)
       | Some Pending => (Raise InvalidStateError, s1)
       | None => (Unmodelled, s1)
       end).
Proof.
  intros H Hc. unfold await_async_value, before_read. unfold_m. rewrite H. simpl.
  assert (Hgo : forall (k : M json),
            match async_value_cache d with
            | Some CoroAwaited => fun s0 : state =>
                (Raise (RuntimeError "cannot reuse already awaited coroutine"), s0)
            | _ => k
            end = k).
  { intros k. destruct (async_value_cache d) as [[]|]; congruence. }
  rewrite Hgo. simpl.
  destruct (dispatch_group s <=? _batcher_group d)%nat.
  - destruct (async_dispatch _ _ _) as [[] s1]; simpl; try reflexivity.
    unfold future_result. destruct (future_store s1 !! _future d) as [[|[]]|]; reflexivity.
  - simpl. unfold future_result.
    destruct (future_store (cache_async_value p CoroAwaited s) !! _future d)
      as [[|[]]|] eqn:E; simpl in E; rewrite E; reflexivity.
Qed.

Lemma continue_same_state {A B} (r : result A) s (k : A -> M B) :
  (forall a s1, snd (k a s1) = s1) -> snd (continue r s k) = s.
Proof. intros Hk. destruct r; simpl; auto. Qed.


Lemma keeps_sync_dispatch : keeps (fun s => snd (sync_dispatch endpoint s)).
Proof. intros s Hinv. split; [apply inv_sync_dispatch|apply extends_sync_dispatch]; exact Hinv. Qed.

Lemma keeps_async_dispatch fuel : keeps (fun s => snd (async_dispatch endpoint fuel s)).
Proof.
  intros s Hinv. split; [apply inv_async_dispatch|apply extends_async_dispatch]; exact Hinv.
Qed.

Lemma keeps_before_read dispatch d :
  keeps (fun s => snd (dispatch s)) -> keeps (fun s => snd (before_read dispatch d s)).
Proof.
  intros Hk s Hinv. unfold before_read.
  destruct (dispatch_group s <=? _batcher_group d)%nat.
  - apply Hk. exact Hinv.
  - simpl. split; [exact Hinv|apply extends_refl].
Qed.

Lemma keeps_value p : keeps (fun s => snd (value endpoint p s)).
Proof.
  intros s Hinv. destruct (result_store s !! p) as [d|] eqn:Hl.
  2:{ rewrite value_missing by exact Hl. split; [exact Hinv|apply extends_refl]. }
  destruct (value_cache d) as [v|] eqn:Hc.
  { rewrite (value_cached p s d v Hl Hc). split; [exact Hinv|apply extends_refl]. }
  rewrite (value_uncached p s d Hl Hc).
  destruct (keeps_before_read (sync_dispatch endpoint) d keeps_sync_dispatch s Hinv)
    as [Hinv1 Hext1].
  set (s1 := snd (before_read (sync_dispatch endpoint) d s)) in *.
  destruct (fst (before_read (sync_dispatch endpoint) d s)); simpl; auto.
  destruct (future_store s1 !! _future d) as [[|[v|e]]|] eqn:Hf; simpl; auto.
  destruct (ext_handle s s1 Hext1 p d Hl) as (d' & Hl' & Hf' & Hg').
  split.
  - eapply inv_cache_value; [exact Hl'| |exact Hinv1]. rewrite Hf'. exact Hf.
  - eapply extends_trans; [exact Hext1|]. apply extends_recache.
    intros d0. split; reflexivity.
Qed.

Lemma keeps_await fuel p : keeps (fun s => snd (await endpoint fuel p s)).
Proof.
  intros s Hinv. unfold await. destruct (result_store s !! p) as [d|] eqn:Hl.
  2:{ rewrite await_missing by exact Hl. split; [exact Hinv|apply extends_refl]. }
  rewrite (await_unfold _ p s d Hl).
  rewrite continue_same_state.
  2:{ intros a s1. destruct (future_store s1 !! _future d) as [[|]|]; reflexivity. }
  destruct (keeps_before_read (async_dispatch endpoint fuel) d (keeps_async_dispatch fuel)
              (set_awaits (awaits s ++ [p]) s) (inv_set_awaits _ s Hinv)) as [H1 H2].
  split; [exact H1|]. eapply extends_trans; [apply extends_set_awaits|exact H2].
Qed.

Lemma keeps_await_async_value fuel p :
  keeps (fun s => snd (await_async_value endpoint fuel p s)).
Proof.
  intros s Hinv. destruct (result_store s !! p) as [d|] eqn:Hl.
  2:{ rewrite await_async_value_missing by exact Hl.
      split; [exact Hinv|apply extends_refl]. }
  assert (Hcases : async_value_cache d = Some CoroAwaited
                   \/ async_value_cache d <> Some CoroAwaited)
    by (destruct (async_value_cache d) as [[]|]; [right|left|right]; congruence).
  destruct Hcases as [Hc|Hc].
  { rewrite (await_async_value_again fuel p s d Hl Hc).
    split; [exact Hinv|apply extends_refl]. }
  rewrite (await_async_value_first fuel p s d Hl Hc).
  rewrite continue_same_state.
  2:{ intros a s1. destruct (future_store s1 !! _future d) as [[|]|]; reflexivity. }
  destruct (keeps_before_read (async_dispatch endpoint fuel) d (keeps_async_dispatch fuel)
              (cache_async_value p CoroAwaited s) (inv_cache_async_value _ _ s Hinv))
    as [H1 H2].
  split; [exact H1|]. eapply extends_trans; [|exact H2].
  apply extends_recache. intros d0. split; reflexivity.
Qed.

Lemma invoke_eq a ps s : invoke a ps s = add_action (version s) a ps s.
Proof. reflexivity. Qed.

Lemma keeps_exec o : keeps (exec endpoint o).
Proof.
  destruct o.
  - intros s Hinv. unfold exec.
    split; [apply inv_add_action; exact Hinv|apply extends_add_action].
  - intros s Hinv. unfold exec. rewrite invoke_eq.
    split; [apply inv_add_action; exact Hinv|apply extends_add_action].
  - exact keeps_sync_dispatch.
  - exact (keeps_value self).
  - exact (keeps_async_dispatch fuel).
  - exact (keeps_await fuel self).
  - exact (keeps_await_async_value fuel self).
Qed.

Lemma keeps_run ops : keeps (run endpoint ops).
Proof.
  induction ops as [|o ops IH]; intros s Hinv; simpl.
  - split; [exact Hinv|apply extends_refl].
  - destruct (keeps_exec o s Hinv) as [H1 H2].
    destruct (IH _ H1) as [H3 H4].
    split; [exact H3|]. eapply extends_trans; eauto.
Qed.

Lemma reachable_inv s : reachable endpoint s -> inv s.
Proof.
  induction 1 as [v aa|s o _ IH]; [apply inv_init|]. apply keeps_exec. exact IH.
Qed.

Lemma reachable_run ops s : reachable endpoint s -> reachable endpoint (run endpoint ops s).
Proof.
  revert s. induction ops as [|o ops IH]; intros s Hr; simpl; [exact Hr|].
  apply IH. constructor. exact Hr.
Qed.

(** *** Frames that hold in every state *)

Lemma future_set_shape f o s :
  exists store, snd (future_set f o s) = set_future_store store s.
Proof.
  unfold future_set. destruct (future_store s !! f) as [[|]|]; simpl.
  - eauto.
  - exists (future_store s). symmetry. apply state_eta.
  - exists (future_store s). symmetry. apply state_eta.
Qed.

Lemma for_each_set_shape (pairs : list (nat * outcome)) s :
  exists store,
    snd (for_each pairs
           (fun '(fut, result) =>
              match result with
              | Exc e => set_exception fut e
              | Val v => set_result fut v
              end) s) = set_future_store store s.
Proof.
  revert s. induction pairs as [|[f o] pairs IH]; intros s.
  - exists (future_store s). simpl. symmetry. apply state_eta.
  - cbn [for_each]. rewrite bind_continue.
    assert (Hstep : (match o with
                     | Exc e => set_exception f e
                     | Val v => set_result f v
                     end) s = future_set f o s) by (destruct o; reflexivity).
    rewrite Hstep. destruct (future_set_shape f o s) as [st Hst]. rewrite Hst.
    destruct (fst (future_set f o s)); simpl; eauto.
    destruct (IH (set_future_store st s)) as [st' Hst']. rewrite Hst'. eauto.
Qed.

Lemma handle_responses_shape os s :
  exists store,
    (fst (_handle_responses os s) <> Return tt
     /\ snd (_handle_responses os s) = set_future_store store s)
    \/ (fst (_handle_responses os s) = Return tt
        /\ snd (_handle_responses os s)
           = set_actions [] (set_futures [] (set_future_store store s))).
Proof.
  destruct (length (futures s) =? length os)%nat eqn:E.
  - assert (H : _handle_responses os s
                = continue
                    (fst (for_each (zip (futures s) os)
                            (fun '(fut, result) =>
                               match result with
                               | Exc e => set_exception fut e
                               | Val v => set_result fut v
                               end) s))
                    (snd (for_each (zip (futures s) os)
                            (fun '(fut, result) =>
                               match result with
                               | Exc e => set_exception fut e
                               | Val v => set_result fut v
                               end) s))
                    (fun _ => modify (set_futures []) ;; modify (set_actions []))).
    { unfold _handle_responses. unfold bind at 1. unfold get at 1. rewrite E. simpl.
      apply bind_continue. }
    rewrite H. destruct (for_each_set_shape (zip (futures s) os) s) as [st Hst].
    rewrite Hst. exists st. destruct (fst (for_each _ _ s)) as [[]| | | |]; simpl;
      [right; split; reflexivity|left; split; [discriminate|reflexivity]..].
  - apply Nat.eqb_neq in E. rewrite handle_responses_mismatch by exact E.
    exists (future_store s). left. simpl. split; [discriminate|].
    symmetry. apply state_eta.
Qed.

Lemma async_dispatch_idle fuel s :
  actions s = [] -> snd (async_dispatch endpoint fuel s) = s.
Proof.
  intros H. destruct fuel; [reflexivity|]. rewrite async_dispatch_empty by exact H.
  reflexivity.
Qed.

Lemma await_idle_shape fuel p s :
  actions s = [] ->
  exists aw, snd (await_over (async_dispatch endpoint fuel) p s) = set_awaits aw s.
Proof.
  intros H. destruct (result_store s !! p) as [d|] eqn:Hl.
  2:{ rewrite await_missing by exact Hl. exists (awaits s). symmetry. apply state_eta. }
  rewrite (await_unfold _ p s d Hl). rewrite continue_same_state.
  2:{ intros a s1. destruct (future_store s1 !! _future d) as [[|]|]; reflexivity. }
  exists (awaits s ++ [p]). unfold before_read.
  destruct (_ <=? _)%nat; [|reflexivity].
  apply async_dispatch_idle. exact H.
Qed.

Lemma drain_shape fuel results s :
  actions s = [] -> exists aw, snd (drain endpoint fuel results s) = set_awaits aw s.
Proof.
  revert s. induction results as [|p results IH]; intros s H.
  - exists (awaits s). simpl. symmetry. apply state_eta.
  - unfold drain in *. cbn [for_each]. rewrite bind_continue.
    destruct (await_idle_shape fuel p s H) as [aw Haw].
    assert (Hst : snd (try_except_APIException
                         (await_over (async_dispatch endpoint fuel) p) s)
                  = set_awaits aw s).
    { unfold try_except_APIException. rewrite <- Haw.
      destruct (await_over _ p s) as [[v|e| | |] s1]; simpl; try reflexivity.
      destruct (is_APIException e); reflexivity. }
    rewrite Hst. destruct (fst (try_except_APIException _ s)); simpl; eauto.
    destruct (IH (set_awaits aw s) H) as [aw' Haw']. rewrite Haw'. eauto.
Qed.

(** The drain loop leaves [self.deferred_results] as it found it: the
    loop of [async_dispatch] iterates a list that does not change. *)
Lemma drain_keeps_deferred_results fuel results s :
  actions s = [] ->
  deferred_results (snd (drain endpoint fuel results s)) = deferred_results s.
Proof.
  intros H. destruct (drain_shape fuel results s H) as [aw ->]. reflexivity.
Qed.

(** *** Reads of a handle whose future is done *)

Lemma done_not_stale s p d o :
  inv s -> result_store s !! p = Some d ->
  future_store s !! _future d = Some (Done o) ->
  _batcher_group d < dispatch_group s.
Proof.
  intros Hinv Hl Hf. pose proof (inv_group s Hinv p d Hl) as Hle.
  destruct (decide (_batcher_group d = dispatch_group s)) as [Heq|Hne]; [|lia].
  pose proof (inv_pending s Hinv _ (inv_current s Hinv p d Hl Heq)). congruence.
Qed.

Lemma value_done p s d o :
  inv s -> result_store s !! p = Some d ->
  future_store s !! _future d = Some (Done o) ->
  fst (value endpoint p s) = result_of o
  /\ sent (snd (value endpoint p s)) = sent s
  /\ future_store (snd (value endpoint p s)) = future_store s.
Proof.
  intros Hinv Hl Hf. destruct (value_cache d) as [v|] eqn:Hc.
  - rewrite (value_cached p s d v Hl Hc). simpl.
    pose proof (inv_cache s Hinv p d v Hl Hc) as Hv.
    assert (o = Val v) by congruence. subst o. auto.
  - rewrite (value_uncached p s d Hl Hc). unfold before_read.
    pose proof (done_not_stale s p d o Hinv Hl Hf) as Hlt.
    apply Nat.leb_gt in Hlt. rewrite Hlt. simpl. rewrite Hf.
    destruct o; simpl; auto.
Qed.

Lemma await_done fuel p s d o :
  inv s -> result_store s !! p = Some d ->
  future_store s !! _future d = Some (Done o) ->
  await endpoint fuel p s = (result_of o, set_awaits (awaits s ++ [p]) s).
Proof.
  intros Hinv Hl Hf. unfold await. eapply await_over_done; eauto.
  eapply done_not_stale; eauto.
Qed.

(** *** The shape of the state a flush leaves, in every state *)

Lemma sync_dispatch_shape s :
  actions s <> [] ->
  exists store,
    snd (sync_dispatch endpoint s) = set_future_store store (flushing s)
    \/ snd (sync_dispatch endpoint s)
       = set_actions [] (set_futures [] (set_future_store store (flushing s))).
Proof.
  intros Hne. rewrite sync_dispatch_send by exact Hne.
  destruct (reply endpoint s) as [os| | | |]; simpl;
    try (exists (future_store s); left; reflexivity).
  destruct (handle_responses_shape os (flushing s)) as [st [[_ H]|[_ H]]];
    exists st; rewrite H; auto.
Qed.

Lemma async_dispatch_shape fuel s :
  actions s <> [] ->
  exists store aw,
    snd (async_dispatch endpoint (S fuel) s)
    = set_awaits aw (set_future_store store (flushing s))
    \/ snd (async_dispatch endpoint (S fuel) s)
       = set_awaits aw (set_actions [] (set_futures [] (set_future_store store (flushing s))))
    \/ (fst (async_dispatch endpoint (S fuel) s) = Return tt
        /\ auto_await s = true
        /\ snd (async_dispatch endpoint (S fuel) s)
           = set_deferred_results []
               (set_awaits aw
                  (set_actions [] (set_futures [] (set_future_store store (flushing s)))))).
Proof.
  intros Hne. pose proof (async_dispatch_send fuel s Hne) as E.
  destruct (reply endpoint s) as [os| | | |]; cbn [continue] in E;
    try (rewrite E; exists (future_store s), (awaits s); left; reflexivity).
  rewrite bind_continue in E.
  destruct (handle_responses_shape os (flushing s)) as [st [[Hr H]|[Hr H]]];
    rewrite H in E.
  - exists st, (awaits s). left.
    destruct (fst (_handle_responses os (flushing s))) as [[]| | | |];
      [contradiction|cbn [continue] in E; rewrite E; reflexivity..].
  - rewrite Hr in E. cbn [continue] in E.
    unfold bind at 1 in E. unfold get at 1 in E.
    change (auto_await (set_actions [] (set_futures [] (set_future_store st (flushing s)))))
      with (auto_await s) in E.
    destruct (auto_await s) eqn:Haa.
    + unfold bind at 1 in E. unfold get at 1 in E. rewrite bind_continue in E.
      change (deferred_results
                (set_actions [] (set_futures [] (set_future_store st (flushing s)))))
        with (deferred_results s) in E.
      destruct (drain_shape fuel (deferred_results s)
                  (set_actions [] (set_futures [] (set_future_store st (flushing s))))
                  eq_refl) as [aw Haw].
      rewrite Haw in E. exists st, aw.
      destruct (fst (drain endpoint fuel (deferred_results s) _)) as [[]| | | |];
        cbn [continue] in E; rewrite E;
        [right; right; auto|right; left; reflexivity..].
    + rewrite E. exists st, (awaits s). right. left. reflexivity.
Qed.

End Flush.

(** ** The properties of the specification *)

Section Properties.

Variable endpoint : nat -> json -> http_outcome.

(** C4: in every state of the coordinator, a flush with [N > 0] queued
    calls sends exactly one request, the composite one, whose call list is
    the [N] queued calls; a flush with nothing queued returns at once and
    leaves the state (so the requests sent and the generation counter) as
    it was.  Both dispatch variants. *)
Theorem C4_flush_sends_one_composite_request (s : state) (N : nat) :
  length (actions s) = N ->
  (N = 0 ->
     sync_dispatch endpoint s = (Return tt, s)
     /\ forall fuel, async_dispatch endpoint (S fuel) s = (Return tt, s))
  /\ (0 < N ->
     exists calls,
       length calls = N
       /\ sent (snd (sync_dispatch endpoint s))
          = sent s ++ [JObj [("action", JStr "multi");
                             ("params", JObj [("actions", JList calls)]);
                             ("version", JNum (version s))]]
       /\ forall fuel,
            sent (snd (async_dispatch endpoint (S fuel) s))
            = sent s ++ [JObj [("action", JStr "multi");
                               ("params", JObj [("actions", JList calls)]);
                               ("version", JNum (version s))]]).
Proof.
  intros HN. split.
  - intros ->. apply length_zero_iff_nil in HN. split.
    + apply sync_dispatch_empty. exact HN.
    + intros fuel. apply async_dispatch_empty. exact HN.
  - intros Hpos. exists (actions s). split; [exact HN|].
    assert (Hne : actions s <> []) by (intros E; rewrite E in HN; simpl in HN; lia).
    split.
    + destruct (sync_dispatch_shape endpoint s Hne) as [st [-> | ->]]; reflexivity.
    + intros fuel.
      destruct (async_dispatch_shape endpoint fuel s Hne)
        as (st & aw & [-> | [-> | (_ & _ & ->)]]); reflexivity.
Qed.


(** C10: a synchronous flush, whatever the auto-drain setting, awaits no
    handle and leaves [deferred_results] and the handles untouched; an
    asynchronous flush changes [deferred_results] only by clearing it, and
    only when it returns normally from a non-empty flush with auto-drain on. *)
Theorem C10_only_async_dispatch_drains (s : state) :
  (deferred_results (snd (sync_dispatch endpoint s)) = deferred_results s
   /\ awaits (snd (sync_dispatch endpoint s)) = awaits s
   /\ result_store (snd (sync_dispatch endpoint s)) = result_store s)
  /\ (forall fuel,
        deferred_results (snd (async_dispatch endpoint fuel s)) = deferred_results s
        \/ (fst (async_dispatch endpoint fuel s) = Return tt
            /\ auto_await s = true
            /\ actions s <> []
            /\ deferred_results (snd (async_dispatch endpoint fuel s)) = [])).
Proof.
  split.
  - destruct (actions s) as [|a acts] eqn:Ha.
    + rewrite sync_dispatch_empty by exact Ha. auto.
    + assert (Hne : actions s <> []) by congruence.
      destruct (sync_dispatch_shape endpoint s Hne) as [st [-> | ->]]; auto.
  - intros [|fuel]; [left; reflexivity|].
    destruct (actions s) as [|a acts] eqn:Ha.
    + rewrite async_dispatch_empty by exact Ha. auto.
    + assert (Hne : actions s <> []) by congruence.
      destruct (async_dispatch_shape endpoint fuel s Hne)
        as (st & aw & [-> | [-> | (Hr & Haa & ->)]]); auto.
Qed.

(** *** A flush that is answered by a well-formed composite reply *)

Lemma flush_delivers s top (envs : list dict) :
  inv s -> actions s <> [] ->
  endpoint (length (sent s)) (composite s) = Body (JObj top) ->
  parse_response top = Val (JList (JObj <$> envs)) ->
  length envs = length (actions s) ->
  sync_dispatch endpoint s
  = (Return tt, delivered (parse_response <$> envs) (flushing s)).
Proof.
  intros Hinv Hne Hep Htop Hlen.
  rewrite sync_dispatch_spec by assumption.
  rewrite (reply_body endpoint s top envs Hep Htop). cbn [continue]. unfold settle.
  assert (E : (length (futures (flushing s)) =? length (parse_response <$> envs))%nat = true).
  { apply Nat.eqb_eq. rewrite length_fmap, Hlen. simpl. symmetry. apply Hinv. }
  rewrite E. reflexivity.
Qed.

Lemma delivered_lookup s os K f o :
  inv s -> length (futures s) = length os ->
  futures s !! K = Some f -> os !! K = Some o ->
  future_store (delivered os s) !! f = Some (Done o).
Proof.
  intros Hinv Hlen Hf Ho. simpl. eapply deliver_lookup; eauto.
  - apply Hinv.
  - eapply lookup_lt_Some. apply (inv_pending s Hinv). eapply list_elem_of_lookup_2. exact Hf.
Qed.

(** Once a future is done, every later read of a handle on it gives its
    outcome, whatever was done with the coordinator in between, and sends
    nothing. *)
Lemma read_after s p d o ops :
  inv s -> result_store s !! p = Some d ->
  future_store s !! _future d = Some (Done o) ->
  fst (value endpoint p (run endpoint ops s)) = result_of o
  /\ sent (snd (value endpoint p (run endpoint ops s))) = sent (run endpoint ops s).
Proof.
  intros Hinv Hl Hf. destruct (keeps_run endpoint ops s Hinv) as [Hinv' Hext].
  destruct (ext_handle _ _ Hext p d Hl) as (d' & Hl' & Hf' & _).
  pose proof (ext_done _ _ Hext _ o Hf) as Hdone. rewrite <- Hf' in Hdone.
  destruct (value_done endpoint p _ d' o Hinv' Hl' Hdone) as (H1 & H2 & _). auto.
Qed.

Lemma stale_uncached s p d :
  inv s -> result_store s !! p = Some d ->
  dispatch_group s <= _batcher_group d ->
  value_cache d = None /\ actions s <> [].
Proof.
  intros Hinv Hl Hst.
  assert (Heq : _batcher_group d = dispatch_group s).
  { pose proof (inv_group s Hinv p d Hl). lia. }
  pose proof (inv_current s Hinv p d Hl Heq) as Hin. split.
  - destruct (value_cache d) as [v|] eqn:Hc; [|reflexivity].
    pose proof (inv_cache s Hinv p d v Hl Hc) as Hv.
    pose proof (inv_pending s Hinv _ Hin). congruence.
  - intros Ha. pose proof (inv_len s Hinv) as Hlen. rewrite Ha in Hlen.
    symmetry in Hlen. apply length_zero_iff_nil in Hlen. rewrite Hlen in Hin.
    apply elem_of_nil in Hin. exact Hin.
Qed.

(** The read that finds its handle's generation current performs the
    flush; beyond the flush it only fills the handle's cache. *)
Lemma value_stale s p d :
  inv s -> result_store s !! p = Some d ->
  dispatch_group s <= _batcher_group d ->
  future_store (snd (value endpoint p s)) = future_store (snd (sync_dispatch endpoint s))
  /\ sent (snd (value endpoint p s)) = sent (snd (sync_dispatch endpoint s))
  /\ dispatch_group (snd (value endpoint p s))
     = dispatch_group (snd (sync_dispatch endpoint s))
  /\ (fst (sync_dispatch endpoint s) <> Return tt ->
      value endpoint p s = (match fst (sync_dispatch endpoint s) with
                            | Return _ => Unmodelled
                            | Raise e => Raise e
                            | Blocked => Blocked
                            | OutOfFuel => OutOfFuel
                            | Unmodelled => Unmodelled
                            end, snd (sync_dispatch endpoint s))).
Proof.
  intros Hinv Hl Hst. destruct (stale_uncached s p d Hinv Hl Hst) as [Hc _].
  rewrite (value_uncached endpoint p s d Hl Hc). unfold before_read.
  apply Nat.leb_le in Hst. rewrite Hst.
  destruct (sync_dispatch endpoint s) as [[[]|e| | |] s1]; simpl;
    try (repeat split; auto; congruence).
  destruct (future_store s1 !! _future d) as [[|[v|e]]|]; simpl;
    repeat split; auto; congruence.
Qed.

(** The future of the handle queued at position [K] holds, after the
    flush, the outcome of the envelope at position [K]. *)
Lemma flush_resolves s top (envs : list dict) K p d env :
  inv s ->
  endpoint (length (sent s)) (composite s) = Body (JObj top) ->
  parse_response top = Val (JList (JObj <$> envs)) ->
  length envs = length (actions s) ->
  result_store s !! p = Some d ->
  futures s !! K = Some (_future d) ->
  envs !! K = Some env ->
  future_store (snd (sync_dispatch endpoint s)) !! _future d
  = Some (Done (parse_response env)).
Proof.
  intros Hinv Hep Htop Hlen Hl HK Henv.
  assert (Hne : actions s <> []).
  { intros Ha. pose proof (inv_len s Hinv) as Hlf. rewrite Ha in Hlf.
    symmetry in Hlf. apply length_zero_iff_nil in Hlf. rewrite Hlf in HK.
    rewrite lookup_nil in HK. discriminate. }
  rewrite (flush_delivers s top envs Hinv Hne Hep Htop Hlen). cbn [snd].
  destruct (inv_flushing s Hinv) as [Hinv1 _].
  eapply delivered_lookup.
  - exact Hinv1.
  - rewrite length_fmap, Hlen. simpl. symmetry. apply Hinv.
  - exact HK.
  - rewrite list_lookup_fmap, Henv. reflexivity.
Qed.

Lemma flush_then_read s top (envs : list dict) K p d env ops :
  inv s ->
  endpoint (length (sent s)) (composite s) = Body (JObj top) ->
  parse_response top = Val (JList (JObj <$> envs)) ->
  length envs = length (actions s) ->
  result_store s !! p = Some d ->
  futures s !! K = Some (_future d) ->
  envs !! K = Some env ->
  fst (value endpoint p (run endpoint ops (snd (sync_dispatch endpoint s))))
  = result_of (parse_response env).
Proof.
  intros Hinv Hep Htop Hlen Hl HK Henv.
  pose proof (flush_resolves s top envs K p d env Hinv Hep Htop Hlen Hl HK Henv) as Hdone.
  pose proof (keeps_sync_dispatch endpoint s Hinv) as [Hinv2 Hext2].
  destruct (ext_handle _ _ Hext2 p d Hl) as (d' & Hl' & Hf' & _).
  rewrite <- Hf' in Hdone.
  apply (read_after _ p d' _ ops Hinv2 Hl' Hdone).
Qed.

(** *** Flushes that fail as a whole *)

Lemma failed_flush s e :
  inv s -> actions s <> [] ->
  (reply endpoint s = Raise e
   \/ exists os, reply endpoint s = Return os /\ length os <> length (actions s)
                 /\ e = AssertionError) ->
  sync_dispatch endpoint s = (Raise e, flushing s)
  /\ (forall fuel, async_dispatch endpoint (S fuel) s = (Raise e, flushing s))
  /\ (forall p d, result_store s !! p = Some d ->
        dispatch_group s <= _batcher_group d ->
        value endpoint p s = (Raise e, flushing s)).
Proof.
  intros Hinv Hne Hr.
  assert (Hs : sync_dispatch endpoint s = (Raise e, flushing s)
               /\ forall fuel, async_dispatch endpoint (S fuel) s = (Raise e, flushing s)).
  { split; [|intros fuel]; rewrite ?sync_dispatch_spec, ?async_dispatch_spec by assumption;
      destruct Hr as [-> | (os & -> & Hlen & ->)]; try reflexivity;
      cbn [continue]; unfold settle, settle_async;
      (assert (E : (length (futures (flushing s)) =? length os)%nat = false);
       [apply Nat.eqb_neq; simpl; rewrite <- (inv_len s Hinv); congruence|]);
      rewrite E; reflexivity. }
  destruct Hs as [Hs Ha]. split; [exact Hs|]. split; [exact Ha|].
  intros p d Hl Hst.
  destruct (value_stale s p d Hinv Hl Hst) as (_ & _ & _ & Hv).
  rewrite Hv; rewrite Hs; [reflexivity|discriminate].
Qed.

Lemma flushing_keeps_batch s :
  inv s ->
  actions (flushing s) = actions s
  /\ futures (flushing s) = futures s
  /\ dispatch_group (flushing s) = dispatch_group s + 1
  /\ sent (flushing s) = sent s ++ [composite s]
  /\ forall f, f ∈ futures s -> future_store (flushing s) !! f = Some Pending.
Proof.
  intros Hinv. repeat split. intros f Hf. simpl. apply Hinv. exact Hf.
Qed.





(** *** How many requests a read sends *)

Lemma value_effect s p d :
  inv s -> result_store s !! p = Some d ->
  (dispatch_group s <= _batcher_group d ->
     sent (snd (value endpoint p s)) = sent s ++ [composite s]
     /\ dispatch_group (snd (value endpoint p s)) = dispatch_group s + 1)
  /\ (_batcher_group d < dispatch_group s ->
     sent (snd (value endpoint p s)) = sent s
     /\ dispatch_group (snd (value endpoint p s)) = dispatch_group s).
Proof.
  intros Hinv Hl. split.
  - intros Hst. destruct (stale_uncached s p d Hinv Hl Hst) as [_ Hne].
    destruct (value_stale s p d Hinv Hl Hst) as (_ & -> & -> & _).
    destruct (sync_dispatch_shape endpoint s Hne) as [st [-> | ->]]; auto.
  - intros Hlt. destruct (value_cache d) as [v|] eqn:Hc.
    + rewrite (value_cached endpoint p s d v Hl Hc). auto.
    + rewrite (value_uncached endpoint p s d Hl Hc). unfold before_read.
      apply Nat.leb_gt in Hlt. rewrite Hlt. simpl.
      destruct (future_store s !! _future d) as [[|[v|e]]|]; auto.
Qed.

Lemma await_effect fuel s p d :
  inv s -> result_store s !! p = Some d ->
  (dispatch_group s <= _batcher_group d ->
     sent (snd (await endpoint (S fuel) p s)) = sent s ++ [composite s]
     /\ dispatch_group (snd (await endpoint (S fuel) p s)) = dispatch_group s + 1)
  /\ (_batcher_group d < dispatch_group s ->
     sent (snd (await endpoint (S fuel) p s)) = sent s
     /\ dispatch_group (snd (await endpoint (S fuel) p s)) = dispatch_group s).
Proof.
  intros Hinv Hl. unfold await. rewrite (await_unfold _ p s d Hl).
  rewrite continue_same_state.
  2:{ intros a s1. destruct (future_store s1 !! _future d) as [[|]|]; reflexivity. }
  unfold before_read. cbn [dispatch_group set_awaits]. split.
  - intros Hst. destruct (stale_uncached s p d Hinv Hl Hst) as [_ Hne].
    apply Nat.leb_le in Hst. rewrite Hst.
    assert (Hne' : actions (set_awaits (awaits s ++ [p]) s) <> []) by exact Hne.
    destruct (async_dispatch_shape endpoint fuel _ Hne')
      as (st & aw & [-> | [-> | (_ & _ & ->)]]); auto.
  - intros Hlt. apply Nat.leb_gt in Hlt. rewrite Hlt. auto.
Qed.

(** *** The drain of an asynchronous flush *)

Lemma await_after s p d o ops fuel :
  inv s -> result_store s !! p = Some d ->
  future_store s !! _future d = Some (Done o) ->
  fst (await endpoint fuel p (run endpoint ops s)) = result_of o
  /\ sent (snd (await endpoint fuel p (run endpoint ops s))) = sent (run endpoint ops s).
Proof.
  intros Hinv Hl Hf. destruct (keeps_run endpoint ops s Hinv) as [Hinv' Hext].
  destruct (ext_handle _ _ Hext p d Hl) as (d' & Hl' & Hf' & _).
  pose proof (ext_done _ _ Hext _ o Hf) as Hdone. rewrite <- Hf' in Hdone.
  rewrite (await_done endpoint fuel p _ d' o Hinv' Hl' Hdone). auto.
Qed.

Lemma async_flush_delivers fuel s top (envs : list dict) :
  inv s -> actions s <> [] ->
  endpoint (length (sent s)) (composite s) = Body (JObj top) ->
  parse_response top = Val (JList (JObj <$> envs)) ->
  length envs = length (actions s) ->
  async_dispatch endpoint (S fuel) s
  = (Return tt,
     if auto_await s then
       set_deferred_results []
         (set_awaits (awaits s ++ deferred_results s)
            (delivered (parse_response <$> envs) (flushing s)))
     else delivered (parse_response <$> envs) (flushing s)).
Proof.
  intros Hinv Hne Hep Htop Hlen.
  rewrite async_dispatch_spec by assumption.
  rewrite (reply_body endpoint s top envs Hep Htop). cbn [continue]. unfold settle_async.
  assert (E : (length (futures (flushing s)) =? length (parse_response <$> envs))%nat = true).
  { apply Nat.eqb_eq. rewrite length_fmap, Hlen. simpl. symmetry. apply Hinv. }
  rewrite E. reflexivity.
Qed.

(** C8: an asynchronous flush that is answered by a well-formed composite
    reply, with auto-drain on, returns normally whatever errors the
    envelopes carry; before it returns, [__await__] has been entered on
    every handle of [deferred_results] in list order, and the handles of
    the flushed batch are the tail of that list, in queue order; the list
    is then cleared.  A handle whose envelope is an error still raises
    that error on every later read. *)
Theorem C8_auto_drain
    (s : state) (top : dict) (envs : list dict) (fuel : nat) :
  reachable endpoint s ->
  auto_await s = true ->
  actions s <> [] ->
  endpoint (length (sent s)) (composite s) = Body (JObj top) ->
  parse_response top = Val (JList (JObj <$> envs)) ->
  length envs = length (actions s) ->
  let s' := snd (async_dispatch endpoint (S fuel) s) in
  fst (async_dispatch endpoint (S fuel) s) = Return tt
  /\ deferred_results s' = []
  /\ exists old cur,
       deferred_results s = old ++ cur
       /\ Forall2 (fun p f => exists d, result_store s !! p = Some d /\ _future d = f)
            cur (futures s)
       /\ awaits s' = awaits s ++ old ++ cur
       /\ forall K p env e,
            cur !! K = Some p -> envs !! K = Some env -> parse_response env = Exc e ->
            forall ops fuel',
              fst (value endpoint p (run endpoint ops s')) = Raise e
              /\ fst (await endpoint fuel' p (run endpoint ops s')) = Raise e.
Proof.
  intros Hreach Haa Hne Hep Htop Hlen s'.
  pose proof (reachable_inv endpoint s Hreach) as Hinv.
  pose proof (keeps_async_dispatch endpoint (S fuel) s Hinv) as [Hinv' _].
  fold s' in Hinv'.
  pose proof (async_flush_delivers fuel s top envs Hinv Hne Hep Htop Hlen) as Hflush.
  rewrite Haa in Hflush.
  assert (Hs' : s' = set_deferred_results []
                       (set_awaits (awaits s ++ deferred_results s)
                          (delivered (parse_response <$> envs) (flushing s))))
    by (unfold s'; rewrite Hflush; reflexivity).
  split; [rewrite Hflush; reflexivity|]. split; [rewrite Hs'; reflexivity|].
  destruct (inv_deferred s Hinv) as (old & cur & Hdr & Hcur & _).
  exists old, cur. split; [exact Hdr|]. split; [exact Hcur|]. split.
  { rewrite Hs'. simpl. rewrite Hdr. reflexivity. }
  intros K p env e HK Henv Hexc ops fuel'.
  destruct (Forall2_lookup_l _ _ _ _ _ Hcur HK) as (f & Hf & d & Hl & Hfd).
  destruct (inv_flushing s Hinv) as [Hinv1 _].
  assert (Hdone : future_store s' !! _future d = Some (Done (Exc e))).
  { rewrite Hs', Hfd, <- Hexc.
    apply (delivered_lookup (flushing s) (parse_response <$> envs) K f).
    - exact Hinv1.
    - rewrite length_fmap, Hlen. simpl. symmetry. apply Hinv.
    - exact Hf.
    - rewrite list_lookup_fmap, Henv. reflexivity. }
  assert (Hl' : result_store s' !! p = Some d) by (rewrite Hs'; exact Hl).
  split.
  - apply (read_after s' p d (Exc e) ops Hinv' Hl' Hdone).
  - apply (await_after s' p d (Exc e) ops fuel' Hinv' Hl' Hdone).
Qed.

(** *** Fuel: two levels of [async_dispatch] are all a run uses *)

Lemma await_idle_fuel fuel p s :
  actions s = [] ->
  await_over (async_dispatch endpoint (S fuel)) p s
  = await_over (async_dispatch endpoint 1) p s.
Proof.
  intros Ha. destruct (result_store s !! p) as [d|] eqn:Hl.
  - rewrite !(await_unfold _ p s d Hl). unfold before_read.
    destruct (_ <=? _)%nat; [|reflexivity].
    rewrite !async_dispatch_empty by exact Ha. reflexivity.
  - rewrite !await_missing by exact Hl. reflexivity.
Qed.

Lemma drain_fuel fuel results s :
  actions s = [] -> drain endpoint (S fuel) results s = drain endpoint 1 results s.
Proof.
  revert s. induction results as [|p results IH]; intros s Ha; [reflexivity|].
  unfold drain in *. cbn [for_each]. rewrite !bind_continue.
  unfold try_except_APIException at 1 2 4 5.
  rewrite (await_idle_fuel fuel p s Ha).
  destruct (await_idle_shape endpoint 1 p s Ha) as [aw Haw].
  destruct (await_over (async_dispatch endpoint 1) p s) as [r s1]. simpl in Haw. subst s1.
  destruct r as [v|e| | |]; cbn [fst snd continue]; [| |reflexivity..].
  - apply IH. exact Ha.
  - destruct (is_APIException e); cbn [fst snd continue]; [|reflexivity].
    apply IH. exact Ha.
Qed.

Lemma drain_step_fuel fuel s :
  actions s = [] ->
  (auto <- get auto_await ;;
   if auto then
     results <- get deferred_results ;;
     drain endpoint (S fuel) results ;;
     modify (set_deferred_results [])
   else ret tt) s
  = (auto <- get auto_await ;;
     if auto then
       results <- get deferred_results ;;
       drain endpoint 1 results ;;
       modify (set_deferred_results [])
     else ret tt) s.
Proof.
  intros Ha. unfold bind, get. destruct (auto_await s); [|reflexivity].
  rewrite (drain_fuel fuel _ s Ha). reflexivity.
Qed.

Lemma async_dispatch_fuel fuel s :
  async_dispatch endpoint (S (S fuel)) s = async_dispatch endpoint 2 s.
Proof.
  destruct (actions s) as [|a acts] eqn:Ha.
  - rewrite !async_dispatch_empty by exact Ha. reflexivity.
  - assert (Hne : actions s <> []) by congruence.
    rewrite !async_dispatch_send by exact Hne.
    destruct (reply endpoint s) as [os| | | |]; cbn [continue]; [|reflexivity..].
    rewrite !bind_continue.
    destruct (handle_responses_shape os (flushing s)) as [st [[Hr H]|[Hr H]]].
    + destruct (fst (_handle_responses os (flushing s))) as [[]| | | |];
        [contradiction|cbn [continue]; reflexivity..].
    + rewrite Hr, H. cbn [continue]. apply drain_step_fuel. reflexivity.
Qed.

Lemma for_each_set_total (pairs : list (nat * outcome)) s :
  fst (for_each pairs
         (fun '(fut, result) =>
            match result with
            | Exc e => set_exception fut e
            | Val v => set_result fut v
            end) s) <> OutOfFuel.
Proof.
  revert s. induction pairs as [|[f o] pairs IH]; intros s; [discriminate|].
  cbn [for_each]. rewrite bind_continue.
  assert (Hstep : (match o with
                   | Exc e => set_exception f e
                   | Val v => set_result f v
                   end) s = future_set f o s) by (destruct o; reflexivity).
  rewrite Hstep. unfold future_set.
  destruct (future_store s !! f) as [[|]|]; cbn [fst snd continue];
    try discriminate. apply IH.
Qed.

Lemma handle_responses_total os s : fst (_handle_responses os s) <> OutOfFuel.
Proof.
  unfold _handle_responses. unfold bind at 1. unfold get at 1.
  destruct (negb _); [discriminate|]. rewrite bind_continue.
  pose proof (for_each_set_total (zip (futures s) os) s) as Hf.
  destruct (fst (for_each _ _ s)) as [[]| | | |]; cbn [continue];
    try discriminate; contradiction.
Qed.

Lemma reply_total s : reply endpoint s <> OutOfFuel.
Proof.
  destruct (reply_cases endpoint s) as [[os ->]|(e & -> & _)]; discriminate.
Qed.

Lemma drain_total results s :
  actions s = [] -> fst (drain endpoint 1 results s) <> OutOfFuel.
Proof.
  revert s. induction results as [|p results IH]; intros s Ha; [discriminate|].
  unfold drain in *. cbn [for_each]. rewrite bind_continue.
  destruct (await_idle_shape endpoint 1 p s Ha) as [aw Haw].
  assert (Hr : fst (await_over (async_dispatch endpoint 1) p s) <> OutOfFuel).
  { destruct (result_store s !! p) as [d|] eqn:Hl.
    - rewrite (await_unfold _ p s d Hl). unfold before_read.
      destruct (_ <=? _)%nat.
      + rewrite async_dispatch_empty by exact Ha. cbn [fst snd continue].
        destruct (future_store _ !! _future d) as [[|[]]|]; discriminate.
      + cbn [fst snd continue].
        destruct (future_store _ !! _future d) as [[|[]]|]; discriminate.
    - rewrite await_missing by exact Hl. discriminate. }
  unfold try_except_APIException at 1 2.
  destruct (await_over (async_dispatch endpoint 1) p s) as [r s1].
  simpl in Haw, Hr. subst s1.
  destruct r as [v|e| | |]; cbn [fst snd continue]; try discriminate.
  - apply IH. exact Ha.
  - destruct (is_APIException e); cbn [fst snd continue]; [|discriminate].
    apply IH. exact Ha.
  - contradiction.
Qed.

(** [async_dispatch] returns: with two levels of fuel or more it never
    runs out, and more fuel changes nothing ([async_dispatch_fuel]). *)
Lemma async_dispatch_total fuel s :
  fst (async_dispatch endpoint (S (S fuel)) s) <> OutOfFuel.
Proof.
  rewrite async_dispatch_fuel.
  destruct (actions s) as [|a acts] eqn:Ha.
  - rewrite async_dispatch_empty by exact Ha. discriminate.
  - assert (Hne : actions s <> []) by congruence.
    rewrite async_dispatch_send by exact Hne.
    pose proof (reply_total s) as Hrt.
    destruct (reply endpoint s) as [os| | | |]; cbn [continue];
      try discriminate; try contradiction.
    rewrite bind_continue.
    pose proof (handle_responses_total os (flushing s)) as Hht.
    destruct (handle_responses_shape os (flushing s)) as [st [[Hr H]|[Hr H]]].
    + destruct (fst (_handle_responses os (flushing s))) as [[]| | | |];
        cbn [continue]; try discriminate; contradiction.
    + rewrite Hr, H. cbn [continue]. unfold bind at 1. unfold get at 1.
      destruct (auto_await _); [|discriminate].
      unfold bind at 1. unfold get at 1. rewrite bind_continue.
      pose proof (drain_total
                    (deferred_results
                       (set_actions [] (set_futures [] (set_future_store st (flushing s)))))
                    (set_actions [] (set_futures [] (set_future_store st (flushing s))))
                    eq_refl) as Hd.
      destruct (fst (drain endpoint 1 _ _)) as [[]| | | |]; cbn [continue];
        try discriminate; contradiction.
Qed.

(** *** Reading a resolved handle again *)

(** [p.value] and [await p] on a handle whose future is done give the
    future's outcome, send nothing, and leave the future as it is: reading
    again gives the same. *)
Lemma resolved_reads_are_idempotent s p d o ops :
  reachable endpoint s ->
  result_store s !! p = Some d ->
  future_store s !! _future d = Some (Done o) ->
  (fst (value endpoint p (run endpoint ops s)) = result_of o
   /\ sent (snd (value endpoint p (run endpoint ops s))) = sent (run endpoint ops s))
  /\ forall fuel,
       fst (await endpoint fuel p (run endpoint ops s)) = result_of o
       /\ sent (snd (await endpoint fuel p (run endpoint ops s)))
          = sent (run endpoint ops s).
Proof.
  intros Hreach Hl Hf. pose proof (reachable_inv endpoint s Hreach) as Hinv. split.
  - apply (read_after s p d o ops Hinv Hl Hf).
  - intros fuel. apply (await_after s p d o ops fuel Hinv Hl Hf).
Qed.

(** *** Every way to flush, every way to read *)

Lemma reply_frame s s' :
  version s' = version s -> sent s' = sent s -> actions s' = actions s ->
  reply endpoint s' = reply endpoint s.
Proof.
  intros Hv Hs Ha. rewrite !reply_unfold. unfold composite. rewrite Hv, Hs, Ha.
  reflexivity.
Qed.

(** A flush whose round trip gives one response per queued call runs to
    its end. *)
Lemma dispatch_completes s os :
  inv s -> actions s <> [] ->
  reply endpoint s = Return os -> length os = length (actions s) ->
  sync_dispatch endpoint s = (Return tt, delivered os (flushing s))
  /\ forall fuel,
       async_dispatch endpoint (S fuel) s
       = (Return tt,
          if auto_await s then
            set_deferred_results []
              (set_awaits (awaits s ++ deferred_results s) (delivered os (flushing s)))
          else delivered os (flushing s)).
Proof.
  intros Hinv Hne Hr Hlen.
  assert (E : (length (futures (flushing s)) =? length os)%nat = true).
  { apply Nat.eqb_eq. rewrite Hlen. simpl. symmetry. apply Hinv. }
  split; [|intros fuel].
  - rewrite sync_dispatch_spec by assumption. rewrite Hr. cbn [continue].
    unfold settle. rewrite E. reflexivity.
  - rewrite async_dispatch_spec by assumption. rewrite Hr. cbn [continue].
    unfold settle_async. rewrite E. reflexivity.
Qed.

(** And a flush that runs to its end had such a round trip. *)
Lemma dispatch_returns_inv s :
  inv s -> actions s <> [] ->
  fst (sync_dispatch endpoint s) = Return tt ->
  exists os, reply endpoint s = Return os /\ length os = length (actions s).
Proof.
  intros Hinv Hne. rewrite sync_dispatch_spec by assumption.
  destruct (reply endpoint s) as [os| | | |]; cbn [continue fst]; try discriminate.
  unfold settle. destruct (length (futures (flushing s)) =? length os)%nat eqn:E;
    cbn [fst]; [|discriminate].
  intros _. exists os. split; [reflexivity|].
  apply Nat.eqb_eq in E. simpl in E. rewrite <- E. symmetry. apply Hinv.
Qed.

(** The state after the batch of [s] was flushed to the end, by any of
    the operations that flush. *)
Lemma flush_state s os o :
  inv s -> actions s <> [] ->
  reply endpoint s = Return os -> length os = length (actions s) ->
  flushes s o ->
  future_store (exec endpoint o s) = deliver (zip (futures s) os) (future_store s)
  /\ actions (exec endpoint o s) = []
  /\ futures (exec endpoint o s) = []
  /\ sent (exec endpoint o s) = sent s ++ [composite s]
  /\ dispatch_group (exec endpoint o s) = dispatch_group s + 1
  /\ version (exec endpoint o s) = version s.
Proof.
  intros Hinv Hne Hr Hlen Ho.
  destruct (dispatch_completes s os Hinv Hne Hr Hlen) as [Hsync Hasync].
  destruct o as [ver a ps|a ps| |q|fuel|fuel q|fuel q]; cbn [flushes] in Ho;
    try contradiction; unfold exec.
  - rewrite Hsync. repeat split.
  - destruct Ho as (d & Hl & Hst & _).
    destruct (stale_uncached s q d Hinv Hl Hst) as [Hc _].
    rewrite (value_uncached endpoint q s d Hl Hc). unfold before_read.
    apply Nat.leb_le in Hst. rewrite Hst, Hsync. cbn [fst snd continue].
    destruct (future_store (delivered os (flushing s)) !! _future d) as [[|[v|e]]|];
      repeat split.
  - destruct fuel as [|fuel]; [lia|]. rewrite Hasync. cbn [snd].
    destruct (auto_await s); repeat split.
  - destruct Ho as (Hfuel & d & Hl & Hst & _). destruct fuel as [|fuel]; [lia|].
    unfold await. rewrite (await_unfold _ q s d Hl). rewrite continue_same_state.
    2:{ intros a s1. destruct (future_store s1 !! _future d) as [[|]|]; reflexivity. }
    unfold before_read. cbn [dispatch_group set_awaits].
    apply Nat.leb_le in Hst. rewrite Hst.
    destruct (dispatch_completes (set_awaits (awaits s ++ [q]) s) os) as [_ Ha].
    + apply inv_set_awaits. exact Hinv.
    + exact Hne.
    + rewrite <- Hr. apply reply_frame; reflexivity.
    + exact Hlen.
    + rewrite Ha. cbn [snd auto_await set_awaits]. destruct (auto_await s); repeat split.
  - destruct Ho as (Hfuel & d & Hl & Hst & Hfirst). destruct fuel as [|fuel]; [lia|].
    rewrite (await_async_value_first endpoint (S fuel) q s d Hl Hfirst).
    rewrite continue_same_state.
    2:{ intros a s1. destruct (future_store s1 !! _future d) as [[|]|]; reflexivity. }
    unfold before_read. cbn [dispatch_group cache_async_value set_result_store].
    apply Nat.leb_le in Hst. rewrite Hst.
    destruct (dispatch_completes (cache_async_value q CoroAwaited s) os) as [_ Ha].
    + apply inv_cache_async_value. exact Hinv.
    + exact Hne.
    + rewrite <- Hr. apply reply_frame; reflexivity.
    + exact Hlen.
    + rewrite Ha. cbn [snd auto_await cache_async_value set_result_store].
      destruct (auto_await s); repeat split.
Qed.

(** The future queued at position [K] holds the response at position [K]. *)
Lemma flush_sets s os K f r o :
  inv s -> reply endpoint s = Return os -> length os = length (actions s) ->
  futures s !! K = Some f -> os !! K = Some r -> flushes s o ->
  future_store (exec endpoint o s) !! f = Some (Done r).
Proof.
  intros Hinv Hr Hlen HK Hos Ho.
  assert (Hne : actions s <> []).
  { intros Ha. pose proof (inv_len s Hinv) as Hlf. rewrite Ha in Hlf.
    symmetry in Hlf. apply length_zero_iff_nil in Hlf. rewrite Hlf in HK.
    rewrite lookup_nil in HK. discriminate. }
  destruct (flush_state s os o Hinv Hne Hr Hlen Ho) as (-> & _).
  eapply deliver_lookup; eauto.
  - apply Hinv.
  - eapply lookup_lt_Some. apply (inv_pending s Hinv). eapply list_elem_of_lookup_2.
    exact HK.
Qed.

Lemma await_async_value_done fuel p s d o :
  inv s -> result_store s !! p = Some d ->
  future_store s !! _future d = Some (Done o) ->
  async_value_cache d <> Some CoroAwaited ->
  await_async_value endpoint fuel p s = (result_of o, cache_async_value p CoroAwaited s).
Proof.
  intros Hinv Hl Hf Hc. rewrite (await_async_value_first endpoint fuel p s d Hl Hc).
  unfold before_read. cbn [dispatch_group cache_async_value set_result_store].
  pose proof (done_not_stale s p d o Hinv Hl Hf) as Hlt.
  apply Nat.leb_gt in Hlt. rewrite Hlt. cbn [fst snd continue future_store
    cache_async_value set_result_store]. rewrite Hf. reflexivity.
Qed.

(** Once a future is done, every later read of a handle on it, by any of
    the three ways, gives its outcome ([async_value] as long as its
    coroutine was not awaited before). *)
Lemma reads_after s p d o ops :
  inv s -> result_store s !! p = Some d ->
  future_store s !! _future d = Some (Done o) ->
  fst (value endpoint p (run endpoint ops s)) = result_of o
  /\ (forall fuel, fst (await endpoint fuel p (run endpoint ops s)) = result_of o)
  /\ (forall fuel dp,
        result_store (run endpoint ops s) !! p = Some dp ->
        async_value_cache dp <> Some CoroAwaited ->
        fst (await_async_value endpoint fuel p (run endpoint ops s)) = result_of o).
Proof.
  intros Hinv Hl Hf. split; [|split].
  - apply (read_after s p d o ops Hinv Hl Hf).
  - intros fuel. apply (await_after s p d o ops fuel Hinv Hl Hf).
  - intros fuel dp Hdp Hc.
    destruct (keeps_run endpoint ops s Hinv) as [Hinv' Hext].
    destruct (ext_handle _ _ Hext p d Hl) as (d' & Hl' & Hf' & _).
    pose proof (ext_done _ _ Hext _ o Hf) as Hdone.
    assert (d' = dp) by congruence. subst d'. rewrite <- Hf' in Hdone.
    rewrite (await_async_value_done fuel p _ dp o Hinv' Hdp Hdone Hc). reflexivity.
Qed.

(** C5: when a flush is answered by a well-formed composite reply (one
    envelope per queued call), the handle queued at position [K] gives, when
    read, the outcome of the envelope at position [K]: whatever handles were
    read, and whatever else was done with the coordinator, before that read.
    The flush may be performed by any operation that flushes
    ([sync_dispatch], [async_dispatch], or the read of a handle [q] of the
    batch through [value], [__await__] or [async_value]); the read of [p]
    may be [p.value], [await p], or the first [await p.async_value]. *)
Theorem C5_positional_demultiplexing (s : state) (top : dict) (envs : list dict) :
  reachable endpoint s ->
  endpoint (length (sent s)) (composite s) = Body (JObj top) ->
  parse_response top = Val (JList (JObj <$> envs)) ->
  length envs = length (actions s) ->
  forall K p d env,
    result_store s !! p = Some d ->
    futures s !! K = Some (_future d) ->
    envs !! K = Some env ->
    forall o ops,
      flushes s o ->
      let s' := run endpoint ops (exec endpoint o s) in
      fst (value endpoint p s') = result_of (parse_response env)
      /\ (forall fuel, fst (await endpoint fuel p s') = result_of (parse_response env))
      /\ (forall fuel dp,
            result_store s' !! p = Some dp ->
            async_value_cache dp <> Some CoroAwaited ->
            fst (await_async_value endpoint fuel p s') = result_of (parse_response env)).
Proof.
  intros Hreach Hep Htop Hlen K p d env Hl HK Henv o ops Ho s'.
  pose proof (reachable_inv endpoint s Hreach) as Hinv.
  pose proof (reply_body endpoint s top envs Hep Htop) as Hr.
  assert (Hlen' : length (parse_response <$> envs) = length (actions s))
    by (rewrite length_fmap; exact Hlen).
  assert (Hos : (parse_response <$> envs) !! K = Some (parse_response env))
    by (rewrite list_lookup_fmap, Henv; reflexivity).
  pose proof (flush_sets s _ K _ _ o Hinv Hr Hlen' HK Hos Ho) as Hdone.
  destruct (keeps_exec endpoint o s Hinv) as [Hinv1 Hext1].
  destruct (ext_handle _ _ Hext1 p d Hl) as (d' & Hl' & Hf' & _).
  rewrite <- Hf' in Hdone.
  exact (reads_after (exec endpoint o s) p d' _ ops Hinv1 Hl' Hdone).
Qed.

(** *** Items on which [parse_response] raises *)

Lemma parse_raises_true item :
  parse_raises item = true -> parse_response_any item = Raises TypeError.
Proof.
  destruct item as [|b|n|str|l|d]; try discriminate; try reflexivity.
  unfold parse_raises, parse_response_any.
  destruct (length l =? 2)%nat; [|discriminate].
  destruct (list_contains "error" l); [|discriminate].
  destruct (list_contains "result" l); [|discriminate]. reflexivity.
Qed.

Lemma parse_raises_false item :
  parse_raises item = false ->
  exists o, parse_response_any item = Returns o
            /\ match item with
               | JObj env => o = parse_response env
               | _ => exists msg, o = Exc (UnexpectedAPIResponse msg)
               end.
Proof.
  destruct item as [|b|n|str|l|d]; try discriminate.
  - intros _. destruct (parse_response_str str) as [msg ->]. eauto.
  - unfold parse_raises, parse_response_any.
    destruct (length l =? 2)%nat; cbn [negb andb]; [|eauto].
    destruct (list_contains "error" l); cbn [negb andb]; [|eauto].
    destruct (list_contains "result" l); cbn [negb andb]; [discriminate|eauto].
  - intros _. eexists. split; reflexivity.
Qed.

(** C6 fails for an item of the composite reply that has no [len] (or
    that passes the checks and cannot be indexed): [parse_response] raises
    [TypeError] on it, inside the comprehension of the dispatch, before any
    future is set.  The error is not kept to the handle of that item: it
    is raised to whoever triggered the flush, no handle of the batch
    receives anything, and the handles whose own envelopes are well-formed
    raise [InvalidStateError] when read afterwards. *)
Theorem C6_malformed_item_aborts_the_flush
    (s : state) (top : dict) (items : list json) (K : nat) (item : json) :
  reachable endpoint s ->
  endpoint (length (sent s)) (composite s) = Body (JObj top) ->
  parse_response top = Val (JList items) ->
  length items = length (actions s) ->
  items !! K = Some item ->
  parse_raises item = true ->
  sync_dispatch endpoint s = (Raise TypeError, flushing s)
  /\ (forall fuel, async_dispatch endpoint (S fuel) s = (Raise TypeError, flushing s))
  /\ (forall p d, result_store s !! p = Some d ->
        dispatch_group s <= _batcher_group d ->
        value endpoint p s = (Raise TypeError, flushing s)
        /\ value endpoint p (flushing s) = (Raise InvalidStateError, flushing s))
  /\ forall f, f ∈ futures s -> future_store (flushing s) !! f = Some Pending.
Proof.
  intros Hreach Hep Htop Hlen HK Hbad.
  pose proof (reachable_inv endpoint s Hreach) as Hinv.
  assert (Hne : actions s <> []).
  { intros Ha. rewrite Ha in Hlen. apply length_zero_iff_nil in Hlen. subst items.
    rewrite lookup_nil in HK. discriminate. }
  assert (Hr : reply endpoint s = Raise TypeError).
  { rewrite (reply_items endpoint s top items Hep Htop).
    rewrite (parse_each_item_raises items K item HK (parse_raises_true item Hbad)).
    reflexivity. }
  destruct (failed_flush s TypeError Hinv Hne (or_introl Hr)) as (H1 & H2 & H3).
  destruct (flushing_keeps_batch s Hinv) as (_ & _ & _ & _ & H6).
  split; [exact H1|]. split; [exact H2|]. split; [|exact H6].
  intros p d Hl Hst. split; [exact (H3 p d Hl Hst)|].
  destruct (stale_uncached s p d Hinv Hl Hst) as [Hc _].
  assert (Heq : _batcher_group d = dispatch_group s).
  { pose proof (inv_group s Hinv p d Hl). lia. }
  rewrite (value_uncached endpoint p (flushing s) d Hl Hc). unfold before_read.
  assert (E : (dispatch_group (flushing s) <=? _batcher_group d)%nat = false).
  { apply Nat.leb_gt. simpl. lia. }
  rewrite E. cbn [fst snd continue].
  rewrite (H6 _ (inv_current s Hinv p d Hl Heq)). reflexivity.
Qed.

(** *** How many requests a read sends *)

Lemma first_access_dec a d : first_access a d \/ ~ first_access a d.
Proof.
  destruct a as [|fuel|fuel]; cbn [first_access]; auto.
  destruct (async_value_cache d) as [[]|]; [left|right|left]; congruence.
Qed.

Lemma keeps_read a p : keeps (fun s => snd (read endpoint a p s)).
Proof.
  destruct a as [|fuel|fuel]; cbn [read].
  - apply keeps_value.
  - apply keeps_await.
  - apply keeps_await_async_value.
Qed.

Lemma read_flushes a s p d :
  inv s -> result_store s !! p = Some d -> fuelled a ->
  dispatch_group s <= _batcher_group d -> first_access a d ->
  sent (snd (read endpoint a p s)) = sent s ++ [composite s]
  /\ dispatch_group (snd (read endpoint a p s)) = dispatch_group s + 1.
Proof.
  intros Hinv Hl Hfuel Hst Hfirst.
  destruct a as [|fuel|fuel]; cbn [read fuelled first_access] in *.
  - apply (value_effect s p d Hinv Hl). exact Hst.
  - destruct fuel as [|fuel]; [lia|]. apply (await_effect fuel s p d Hinv Hl). exact Hst.
  - destruct fuel as [|fuel]; [lia|].
    rewrite (await_async_value_first endpoint (S fuel) p s d Hl Hfirst).
    rewrite continue_same_state.
    2:{ intros a s1. destruct (future_store s1 !! _future d) as [[|]|]; reflexivity. }
    unfold before_read. cbn [dispatch_group cache_async_value set_result_store].
    destruct (stale_uncached s p d Hinv Hl Hst) as [_ Hne].
    apply Nat.leb_le in Hst. rewrite Hst.
    assert (Hne' : actions (cache_async_value p CoroAwaited s) <> []) by exact Hne.
    destruct (async_dispatch_shape endpoint fuel _ Hne')
      as (st & aw & [-> | [-> | (_ & _ & ->)]]); auto.
Qed.

Lemma read_quiet a s p d :
  inv s -> result_store s !! p = Some d ->
  _batcher_group d < dispatch_group s \/ ~ first_access a d ->
  sent (snd (read endpoint a p s)) = sent s
  /\ dispatch_group (snd (read endpoint a p s)) = dispatch_group s.
Proof.
  intros Hinv Hl Hq. destruct a as [|fuel|fuel]; cbn [read first_access] in *.
  - destruct Hq as [Hlt|Hn]; [|exfalso; apply Hn; exact I].
    apply (value_effect s p d Hinv Hl). exact Hlt.
  - destruct Hq as [Hlt|Hn]; [|exfalso; apply Hn; exact I].
    unfold await. rewrite (await_unfold _ p s d Hl). rewrite continue_same_state.
    2:{ intros a s1. destruct (future_store s1 !! _future d) as [[|]|]; reflexivity. }
    unfold before_read. cbn [dispatch_group set_awaits].
    apply Nat.leb_gt in Hlt. rewrite Hlt. auto.
  - assert (Hcases : async_value_cache d = Some CoroAwaited
                     \/ async_value_cache d <> Some CoroAwaited)
      by (destruct (async_value_cache d) as [[]|]; [right|left|right]; congruence).
    destruct Hcases as [Hc|Hc].
    + rewrite (await_async_value_again endpoint fuel p s d Hl Hc). auto.
    + destruct Hq as [Hlt|Hn]; [|contradiction].
      rewrite (await_async_value_first endpoint fuel p s d Hl Hc).
      rewrite continue_same_state.
      2:{ intros a s1. destruct (future_store s1 !! _future d) as [[|]|]; reflexivity. }
      unfold before_read. cbn [dispatch_group cache_async_value set_result_store].
      apply Nat.leb_gt in Hlt. rewrite Hlt. auto.
Qed.

(** C3: in every reachable state, for every handle [p] and every way to
    read it ([p.value], [await p], [await p.async_value]).  The read sends
    at most one request, and sends one (the flush of the coordinator)
    exactly when the generation counter is not past the generation [p]
    captured and the access runs the body of the property; after it the
    counter is past that generation, so that no later read of [p], by any
    of the three ways, ever sends anything.
    A handle queued now captures the current generation and its future is
    pending (no earlier flush has serviced it), and reading it flushes.
    When the batch of [s] is flushed to the end, by any operation that
    flushes, the generation is a new one, and a handle queued next
    triggers, when read, a flush that carries its call alone. *)
Theorem C3_one_flush_per_generation (s : state) (p : nat) (d : DeferredResult) :
  reachable endpoint s ->
  result_store s !! p = Some d ->
  (* a read of [p] *)
  (forall a, fuelled a ->
     let s1 := snd (read endpoint a p s) in
     length (sent s1) <= S (length (sent s))
     /\ (length (sent s1) = S (length (sent s))
         <-> dispatch_group s <= _batcher_group d /\ first_access a d)
     /\ (first_access a d ->
         _batcher_group d < dispatch_group s1
         /\ forall ops a',
              sent (snd (read endpoint a' p (run endpoint ops s1)))
              = sent (run endpoint ops s1)))
  (* a handle queued in [s] *)
  /\ (forall ver name params,
        let p' := length (result_store s) in
        let s1 := snd (add_action ver name params s) in
        fst (add_action ver name params s) = Return p'
        /\ exists d',
             result_store s1 !! p' = Some d'
             /\ _batcher_group d' = dispatch_group s1
             /\ future_store s1 !! _future d' = Some Pending
             /\ (forall a, fuelled a ->
                   sent (snd (read endpoint a p' s1)) = sent s1 ++ [composite s1])
             /\ (actions s = [] -> actions s1 = [make_request ver name params]))
  (* a handle queued after the batch of [s] was flushed to the end *)
  /\ (actions s <> [] ->
      fst (sync_dispatch endpoint s) = Return tt ->
      (forall fuel, fst (async_dispatch endpoint (S fuel) s) = Return tt)
      /\ forall o, flushes s o ->
           let s0 := exec endpoint o s in
           dispatch_group s0 = dispatch_group s + 1
           /\ forall ver name params a, fuelled a ->
                sent (snd (read endpoint a (length (result_store s0))
                             (snd (add_action ver name params s0))))
                = sent s0 ++ [make_request (version s) "multi"
                                [("actions", JList [make_request ver name params])]]).
Proof.
  intros Hreach Hl. pose proof (reachable_inv endpoint s Hreach) as Hinv.
  pose proof (inv_group s Hinv p d Hl) as Hle.
  assert (Hfresh : forall a s0,
            first_access a (mkDeferredResult (length (future_store s0))
                              (dispatch_group s0) None None)).
  { intros a s0. destruct a; cbn [first_access async_value_cache];
      [exact I|exact I|discriminate]. }
  split; [|split].
  - intros a Hfuel. cbv zeta.
    destruct (keeps_read a p s Hinv) as [Hinv1 Hext1].
    assert (Hlater : _batcher_group d < dispatch_group (snd (read endpoint a p s)) ->
              forall ops a',
                sent (snd (read endpoint a' p (run endpoint ops (snd (read endpoint a p s)))))
                = sent (run endpoint ops (snd (read endpoint a p s)))).
    { intros Hlt ops a'.
      destruct (keeps_run endpoint ops _ Hinv1) as [Hinv2 Hext2].
      pose proof (extends_trans _ _ _ Hext1 Hext2) as Hext.
      destruct (ext_handle _ _ Hext p d Hl) as (d2 & Hl2 & _ & Hg2).
      pose proof (ext_group _ _ Hext2) as Hmono.
      apply (read_quiet a' _ p d2 Hinv2 Hl2). left. lia. }
    destruct (decide (dispatch_group s <= _batcher_group d)) as [Hs|Hs];
      destruct (first_access_dec a d) as [Hf|Hf].
    + destruct (read_flushes a s p d Hinv Hl Hfuel Hs Hf) as [E1 E2].
      split; [rewrite E1, length_app; simpl; lia|]. split.
      * rewrite E1, length_app. simpl. split; [intros _; auto|lia].
      * intros _. split; [lia|apply Hlater; lia].
    + destruct (read_quiet a s p d Hinv Hl (or_intror Hf)) as [E1 E2].
      split; [rewrite E1; lia|]. split.
      * rewrite E1. split; [lia|intros [_ H]; contradiction].
      * intros H. contradiction.
    + assert (Hlt : _batcher_group d < dispatch_group s) by lia.
      destruct (read_quiet a s p d Hinv Hl (or_introl Hlt)) as [E1 E2].
      split; [rewrite E1; lia|]. split.
      * rewrite E1. split; [lia|intros [H _]; contradiction].
      * intros _. split; [lia|apply Hlater; lia].
    + destruct (read_quiet a s p d Hinv Hl (or_intror Hf)) as [E1 E2].
      split; [rewrite E1; lia|]. split.
      * rewrite E1. split; [lia|intros [H _]; contradiction].
      * intros H. contradiction.
  - intros ver name params p' s1. split; [reflexivity|].
    pose proof (inv_add_action ver name params s Hinv) as Hinv1. fold s1 in Hinv1.
    exists (mkDeferredResult (length (future_store s)) (dispatch_group s) None None).
    assert (Hl1 : result_store s1 !! p'
                  = Some (mkDeferredResult (length (future_store s)) (dispatch_group s)
                            None None)).
    { unfold s1, p'. rewrite add_action_eq. simpl.
      rewrite lookup_app_r by lia. rewrite Nat.sub_diag. reflexivity. }
    split; [exact Hl1|]. split; [reflexivity|]. split; [|split].
    + unfold s1. rewrite add_action_eq. simpl.
      rewrite lookup_app_r by lia. rewrite Nat.sub_diag. reflexivity.
    + intros a Hfuel.
      apply (read_flushes a s1 p' _ Hinv1 Hl1 Hfuel); [|apply Hfresh].
      unfold s1. rewrite add_action_eq. simpl. lia.
    + intros Ha. unfold s1. rewrite add_action_eq. simpl. rewrite Ha. reflexivity.
  - intros Hne Hret.
    destruct (dispatch_returns_inv s Hinv Hne Hret) as (os & Hr & Hlen).
    destruct (dispatch_completes s os Hinv Hne Hr Hlen) as [_ Hasync].
    split; [intros fuel; rewrite Hasync; reflexivity|].
    intros o Ho. cbv zeta.
    destruct (flush_state s os o Hinv Hne Hr Hlen Ho) as (_ & Hact & _ & _ & Hgrp & Hver).
    split; [exact Hgrp|].
    intros ver name params a Hfuel.
    destruct (keeps_exec endpoint o s Hinv) as [Hinv0 _].
    revert Hact Hver Hinv0. generalize (exec endpoint o s) as s0. intros s0 Hact Hver Hinv0.
    pose proof (inv_add_action ver name params s0 Hinv0) as Hinv1.
    assert (Hl1 : result_store (snd (add_action ver name params s0))
                    !! length (result_store s0)
                  = Some (mkDeferredResult (length (future_store s0)) (dispatch_group s0)
                            None None)).
    { rewrite add_action_eq. simpl.
      rewrite lookup_app_r by lia. rewrite Nat.sub_diag. reflexivity. }
    destruct (read_flushes a _ _ _ Hinv1 Hl1 Hfuel) as [E _].
    { rewrite add_action_eq. simpl. lia. }
    { apply Hfresh. }
    rewrite E. rewrite add_action_eq. unfold composite. simpl.
    rewrite Hact, Hver. reflexivity.
Qed.

End Properties.






(** Three calls are queued.  The first [await p.async_value] of the
    second handle sends one request exactly when its generation is
    current; and after the batch was flushed by [await] of the first
    handle, a fourth call, queued and read, goes out alone. *)
Lemma C3_witness :
  (length (sent (snd (read answers_three (ByAsyncValue 2) 1 three_queued)))
   = S (length (sent three_queued))
   <-> dispatch_group three_queued <= _batcher_group (mkDeferredResult 1 0 None None)
       /\ first_access (ByAsyncValue 2) (mkDeferredResult 1 0 None None))
  /\ sent (snd (read answers_three ByValue
                  (length (result_store (exec answers_three (OpAwait 2 0) three_queued)))
                  (snd (add_action 6 "deckNames" []
                          (exec answers_three (OpAwait 2 0) three_queued)))))
     = sent (exec answers_three (OpAwait 2 0) three_queued)
       ++ [make_request (version three_queued) "multi"
             [("actions", JList [make_request 6 "deckNames" []])]].
Proof.
  pose proof (C3_one_flush_per_generation answers_three three_queued 1
                (mkDeferredResult 1 0 None None)) as H.
  destruct H as (H1 & _ & H3).
  - apply reachable_run, reach_init.
  - reflexivity.
  - split.
    + assert (Hfuel : fuelled (ByAsyncValue 2)) by (simpl; lia).
      pose proof (H1 (ByAsyncValue 2) Hfuel) as H'. cbv zeta in H'.
      destruct H' as (_ & H2 & _). exact H2.
    + assert (Hne : actions three_queued <> []) by discriminate.
      assert (Hret : fst (sync_dispatch answers_three three_queued) = Return tt)
        by (vm_compute; reflexivity).
      assert (Hf : flushes three_queued (OpAwait 2 0)).
      { split; [lia|]. exists (mkDeferredResult 0 0 None None).
        split; [reflexivity|]. split; [simpl; lia|exact I]. }
      destruct (H3 Hne Hret) as [_ H4].
      pose proof (H4 (OpAwait 2 0) Hf) as H5. cbv zeta in H5.
      destruct H5 as [_ H5]. exact (H5 6%Z "deckNames" [] ByValue I).
Defined.

Lemma C4_witness :
  sync_dispatch answers_three (init 6 true) = (Return tt, init 6 true)
  /\ exists calls,
       length calls = 3
       /\ sent (snd (sync_dispatch answers_three three_queued))
          = sent three_queued
            ++ [JObj [("action", JStr "multi");
                      ("params", JObj [("actions", JList calls)]);
                      ("version", JNum (version three_queued))]]
       /\ forall fuel,
            sent (snd (async_dispatch answers_three (S fuel) three_queued))
            = sent three_queued
              ++ [JObj [("action", JStr "multi");
                        ("params", JObj [("actions", JList calls)]);
                        ("version", JNum (version three_queued))]].
Proof.
  split.
  - apply (C4_flush_sends_one_composite_request answers_three (init 6 true) 0);
      reflexivity.
  - apply (C4_flush_sends_one_composite_request answers_three three_queued 3);
      [reflexivity|lia].
Defined.

(** The error-isolation scenario of the specification: three calls, the
    second answered with the error [boom]; the batch is flushed by
    [async_dispatch], the third and the first handle are read, and then the
    second is awaited. *)
Lemma C5_witness :
  fst (await answers_three 2 1
         (run answers_three [OpValue 2; OpValue 0]
            (exec answers_three (OpAsyncDispatch 2) three_queued)))
  = Raise (APIException (JStr "boom")).
Proof.
  assert (Hf : flushes three_queued (OpAsyncDispatch 2)) by (simpl; lia).
  pose proof (C5_positional_demultiplexing answers_three three_queued
                (envelope JNull (JList (JObj <$> three_envelopes))) three_envelopes
                (reachable_run answers_three queue_three (init 6 true)
                   (reach_init answers_three 6 true))
                eq_refl eq_refl eq_refl
                1 1 (mkDeferredResult 1 0 None None) (envelope (JStr "boom") JNull)
                eq_refl eq_refl eq_refl
                (OpAsyncDispatch 2) [OpValue 2; OpValue 0] Hf) as H.
  cbv zeta in H. destruct H as (_ & H & _). exact (H 2).
Defined.

(** Two calls are queued and the composite reply holds [null] and a
    well-formed envelope: the read of the second handle, whose own envelope
    is the well-formed one, raises [TypeError]. *)
Lemma C6_witness :
  value answers_null_item 1 two_queued_null_item
  = (Raise TypeError, flushing two_queued_null_item).
Proof.
  pose proof (C6_malformed_item_aborts_the_flush answers_null_item two_queued_null_item
                (envelope JNull (JList [JNull; JObj (envelope JNull (JNum 2))]))
                [JNull; JObj (envelope JNull (JNum 2))] 0 JNull
                (reachable_run answers_null_item queue_two (init 6 true)
                   (reach_init answers_null_item 6 true))
                eq_refl eq_refl eq_refl eq_refl eq_refl) as H.
  destruct H as (_ & _ & H & _).
  assert (Hst : dispatch_group two_queued_null_item <= 0) by (simpl; lia).
  destruct (H 1 (mkDeferredResult 1 0 None None) eq_refl Hst) as [H1 _]. exact H1.
Defined.

Lemma C8_witness :
  fst (async_dispatch answers_three 2 three_queued) = Return tt
  /\ deferred_results (snd (async_dispatch answers_three 2 three_queued)) = [].
Proof.
  pose proof (C8_auto_drain answers_three three_queued
                (envelope JNull (JList (JObj <$> three_envelopes))) three_envelopes 1)
    as H.
  destruct H as (H1 & H2 & _).
  - apply reachable_run, reach_init.
  - reflexivity.
  - discriminate.
  - reflexivity.
  - reflexivity.
  - reflexivity.
  - split; [exact H1|exact H2].
Defined.


(** C7 fails on [async_value]: one call is queued and answered with the
    result [1].  [await p.async_value] returns [1]; [await p.async_value]
    once more raises [RuntimeError], because the cached property holds the
    coroutine that was already awaited.  No request is sent by the second
    read.  On the same input [p.value] and [await p] give [1] again. *)
Theorem C7_async_value_read_twice :
  let first := await_async_value answers_one 2 0 one_queued in
  fst first = Return (JNum 1)
  /\ fst (await_async_value answers_one 2 0 (snd first))
     = Raise (RuntimeError "cannot reuse already awaited coroutine")
  /\ sent (snd (await_async_value answers_one 2 0 (snd first))) = sent (snd first)
  /\ fst (value answers_one 0 (snd (value answers_one 0 one_queued))) = Return (JNum 1)
  /\ fst (await answers_one 2 0 (snd (await answers_one 2 0 one_queued)))
     = Return (JNum 1).
Proof. repeat split; vm_compute; reflexivity. Qed.


(** ** Further properties of the coordinator *)

Section Coordinator_facts.

Variable endpoint : nat -> json -> http_outcome.

(** The two parallel lists of a batch stay paired: in every reachable
    state [actions] and [futures] have the same length, the queued futures
    are pairwise distinct and each is still pending. *)
Theorem batch_lists_stay_paired (s : state) :
  reachable endpoint s ->
  length (actions s) = length (futures s)
  /\ NoDup (futures s)
  /\ forall f, f ∈ futures s -> future_store s !! f = Some Pending.
Proof.
  intros Hreach. pose proof (reachable_inv endpoint s Hreach) as Hinv.
  split; [apply Hinv|]. split; [apply Hinv|]. apply Hinv.
Qed.

Lemma counted_sync_dispatch s : counted s -> counted (snd (sync_dispatch endpoint s)).
Proof.
  unfold counted. intros H. destruct (actions s) as [|a acts] eqn:Ha.
  - rewrite sync_dispatch_empty by exact Ha. exact H.
  - assert (Hne : actions s <> []) by congruence.
    destruct (sync_dispatch_shape endpoint s Hne) as [st [-> | ->]];
      simpl; rewrite length_app; simpl; lia.
Qed.

Lemma counted_async_dispatch fuel s :
  counted s -> counted (snd (async_dispatch endpoint fuel s)).
Proof.
  unfold counted. intros H. destruct fuel as [|fuel]; [exact H|].
  destruct (actions s) as [|a acts] eqn:Ha.
  - rewrite async_dispatch_empty by exact Ha. exact H.
  - assert (Hne : actions s <> []) by congruence.
    destruct (async_dispatch_shape endpoint fuel s Hne)
      as (st & aw & [-> | [-> | (_ & _ & ->)]]);
      simpl; rewrite length_app; simpl; lia.
Qed.

Lemma counted_before_read dispatch d s :
  (forall s, counted s -> counted (snd (dispatch s))) ->
  counted s -> counted (snd (before_read dispatch d s)).
Proof.
  intros Hd H. unfold before_read. destruct (_ <=? _)%nat; [apply Hd; exact H|exact H].
Qed.

Lemma counted_exec o s : counted s -> counted (exec endpoint o s).
Proof.
  intros H. destruct o; unfold exec.
  - rewrite add_action_eq. exact H.
  - rewrite invoke_eq, add_action_eq. exact H.
  - apply counted_sync_dispatch. exact H.
  - destruct (result_store s !! self) as [d|] eqn:Hl.
    2:{ rewrite value_missing by exact Hl. exact H. }
    destruct (value_cache d) as [v|] eqn:Hc.
    { rewrite (value_cached endpoint self s d v Hl Hc). exact H. }
    rewrite (value_uncached endpoint self s d Hl Hc).
    pose proof (counted_before_read (sync_dispatch endpoint) d s counted_sync_dispatch H)
      as H1.
    destruct (fst (before_read (sync_dispatch endpoint) d s)); simpl; auto.
    destruct (future_store _ !! _future d) as [[|[v|e]]|]; simpl; auto.
  - apply counted_async_dispatch. exact H.
  - unfold await. destruct (result_store s !! self) as [d|] eqn:Hl.
    2:{ rewrite await_missing by exact Hl. exact H. }
    rewrite (await_unfold _ self s d Hl). rewrite continue_same_state.
    2:{ intros a s1. destruct (future_store s1 !! _future d) as [[|]|]; reflexivity. }
    apply counted_before_read; [apply counted_async_dispatch|exact H].
  - destruct (result_store s !! self) as [d|] eqn:Hl.
    2:{ rewrite await_async_value_missing by exact Hl. exact H. }
    assert (Hcases : async_value_cache d = Some CoroAwaited
                     \/ async_value_cache d <> Some CoroAwaited)
      by (destruct (async_value_cache d) as [[]|]; [right|left|right]; congruence).
    destruct Hcases as [Hc|Hc].
    { rewrite (await_async_value_again endpoint fuel self s d Hl Hc). exact H. }
    rewrite (await_async_value_first endpoint fuel self s d Hl Hc).
    rewrite continue_same_state.
    2:{ intros a s1. destruct (future_store s1 !! _future d) as [[|]|]; reflexivity. }
    apply counted_before_read; [apply counted_async_dispatch|exact H].
Qed.

(** The generation counter counts the requests: a coordinator has sent
    exactly as many requests as its [dispatch_group] says, whatever was
    done with it and however the flushes ended. *)
Theorem generation_counts_requests (s : state) :
  reachable endpoint s -> length (sent s) = dispatch_group s.
Proof.
  induction 1 as [v aa|s o _ IH]; [reflexivity|]. apply counted_exec. exact IH.
Qed.

Lemma queue_run_effect (ops : list op) (s : state) :
  forallb is_queue_op ops = true ->
  sent (run endpoint ops s) = sent s
  /\ dispatch_group (run endpoint ops s) = dispatch_group s
  /\ future_store (run endpoint ops s) = future_store s ++ replicate (length ops) Pending
  /\ length (actions (run endpoint ops s)) = length (actions s) + length ops
  /\ length (result_store (run endpoint ops s)) = length (result_store s) + length ops
  /\ (exists new, futures (run endpoint ops s) = futures s ++ new)
  /\ forall p d, result_store s !! p = Some d ->
       result_store (run endpoint ops s) !! p = Some d.
Proof.
  revert s. induction ops as [|o ops IH]; intros s Hq.
  - simpl. rewrite app_nil_r. repeat split; try lia; auto.
    exists []. rewrite app_nil_r. reflexivity.
  - simpl in Hq. apply andb_true_iff in Hq as [Ho Hq]. cbn [run fold_left].
    change (fold_left (fun s o => exec endpoint o s) ops (exec endpoint o s))
      with (run endpoint ops (exec endpoint o s)).
    destruct (IH (exec endpoint o s) Hq) as (H1 & H2 & H3 & H4 & H5 & [new H6] & H7).
    assert (Hexec : exists ver a ps, exec endpoint o s = snd (add_action ver a ps s)).
    { destruct o; try discriminate; unfold exec.
      - eauto.
      - rewrite invoke_eq. eauto. }
    destruct Hexec as (ver & a & ps & Hexec). rewrite Hexec in *.
    rewrite add_action_eq in *. simpl in *.
    rewrite H1, H2, H3, H4, H5, !length_app. simpl.
    repeat split; try lia.
    + rewrite <- (assoc_L (++)). reflexivity.
    + exists (length (future_store s) :: new). rewrite H6, <- (assoc_L (++)). reflexivity.
    + intros p d Hl. apply H7. apply lookup_app_l_Some. exact Hl.
Qed.

(** Queuing is lazy: a run of [add_action] / [invoke] calls, in any state,
    sends nothing, leaves the generation counter and every existing future
    alone, and adds one call, one handle and one pending future per call. *)
Theorem queuing_is_lazy (ops : list op) (s : state) :
  forallb is_queue_op ops = true ->
  sent (run endpoint ops s) = sent s
  /\ dispatch_group (run endpoint ops s) = dispatch_group s
  /\ future_store (run endpoint ops s) = future_store s ++ replicate (length ops) Pending
  /\ length (actions (run endpoint ops s)) = length (actions s) + length ops
  /\ length (result_store (run endpoint ops s)) = length (result_store s) + length ops
  /\ (exists new, futures (run endpoint ops s) = futures s ++ new)
  /\ forall p d, result_store s !! p = Some d ->
       result_store (run endpoint ops s) !! p = Some d.
Proof. apply queue_run_effect. Qed.

(** An outcome is permanent: once a future holds a result or a failure,
    no sequence of operations changes it; and a handle keeps its future
    and its captured generation. *)
Theorem outcomes_are_permanent (s : state) (ops : list op) :
  reachable endpoint s ->
  (forall f o, future_store s !! f = Some (Done o) ->
     future_store (run endpoint ops s) !! f = Some (Done o))
  /\ (forall p d, result_store s !! p = Some d ->
        exists d', result_store (run endpoint ops s) !! p = Some d'
                   /\ _future d' = _future d /\ _batcher_group d' = _batcher_group d)
  /\ dispatch_group s <= dispatch_group (run endpoint ops s).
Proof.
  intros Hreach. pose proof (reachable_inv endpoint s Hreach) as Hinv.
  destruct (keeps_run endpoint ops s Hinv) as [_ Hext].
  split; [apply Hext|]. split; [apply Hext|apply Hext].
Qed.


(** How a synchronous flush ends, in a state that a coordinator reaches. *)
Lemma sync_dispatch_ends s :
  inv s ->
  match fst (sync_dispatch endpoint s) with
  | Return _ => True
  | Raise e =>
      is_APIException e = true \/ e = AssertionError \/ e = TypeError \/ e = JSONDecodeError
  | Blocked | OutOfFuel | Unmodelled => False
  end.
Proof.
  intros Hinv. destruct (actions s) as [|a acts] eqn:Ha.
  - rewrite sync_dispatch_empty by exact Ha. exact I.
  - assert (Hne : actions s <> []) by congruence.
    rewrite sync_dispatch_spec by assumption.
    destruct (reply_cases endpoint s) as [[os ->]|(e & -> & He)]; cbn [continue fst].
    + unfold settle. destruct (_ =? _)%nat; cbn [fst]; auto.
    + destruct He as [He|[He|He]]; auto.
Qed.


(** A handle whose batch was flushed without its future being set (the
    flush failed as a whole) has no outcome: [p.value] raises
    [InvalidStateError] and changes nothing, and [await p] suspends on the
    pending future, again without sending anything. *)
Theorem pending_after_failed_flush (s : state) (p : nat) (d : DeferredResult) :
  reachable endpoint s ->
  result_store s !! p = Some d ->
  _batcher_group d < dispatch_group s ->
  future_store s !! _future d = Some Pending ->
  value endpoint p s = (Raise InvalidStateError, s)
  /\ forall fuel,
       await endpoint fuel p s = (Blocked, set_awaits (awaits s ++ [p]) s).
Proof.
  intros Hreach Hl Hlt Hf. pose proof (reachable_inv endpoint s Hreach) as Hinv.
  apply Nat.leb_gt in Hlt. split.
  - assert (Hc : value_cache d = None).
    { destruct (value_cache d) as [v|] eqn:Hc; [|reflexivity].
      pose proof (inv_cache s Hinv p d v Hl Hc). congruence. }
    rewrite (value_uncached endpoint p s d Hl Hc). unfold before_read.
    rewrite Hlt. simpl. rewrite Hf. reflexivity.
  - intros fuel. unfold await. rewrite (await_unfold _ p s d Hl). unfold before_read.
    cbn [dispatch_group set_awaits]. rewrite Hlt. simpl. rewrite Hf. reflexivity.
Qed.

(** With auto-drain off, the asynchronous flush does exactly what the
    synchronous flush does, in every state: same outcome, same state. *)
Theorem async_dispatch_without_drain_is_sync_dispatch (s : state) (fuel : nat) :
  auto_await s = false ->
  async_dispatch endpoint (S fuel) s = sync_dispatch endpoint s.
Proof.
  intros Haa. destruct (actions s) as [|a acts] eqn:Ha.
  - rewrite async_dispatch_empty, sync_dispatch_empty by exact Ha. reflexivity.
  - assert (Hne : actions s <> []) by congruence.
    rewrite async_dispatch_send, sync_dispatch_send by exact Hne.
    destruct (reply endpoint s) as [os| | | |]; cbn [continue]; try reflexivity.
    rewrite bind_continue.
    destruct (handle_responses_shape os (flushing s)) as [st [[Hr H]|[Hr H]]].
    + destruct (_handle_responses os (flushing s)) as [[[]| | | |] s1];
        cbn [fst snd continue] in *; try reflexivity. contradiction.
    + destruct (_handle_responses os (flushing s)) as [r s1].
      cbn [fst snd] in *. subst r s1. cbn [continue].
      unfold bind, get. simpl. rewrite Haa. reflexivity.
Qed.

Lemma retains_all_exec o s :
  is_sync_op o = true -> retains_all s -> retains_all (exec endpoint o s).
Proof.
  unfold retains_all. intros Ho H.
  assert (Hadd : forall ver a ps,
            deferred_results (snd (add_action ver a ps s))
            = seq 0 (length (result_store (snd (add_action ver a ps s))))).
  { intros ver a ps. rewrite add_action_eq. simpl.
    rewrite length_app, H. simpl. rewrite Nat.add_1_r, seq_S. reflexivity. }
  destruct o; try discriminate; unfold exec.
  - apply Hadd.
  - rewrite invoke_eq. apply Hadd.
  - destruct (actions s) as [|a acts] eqn:Ha.
    + rewrite sync_dispatch_empty by exact Ha. exact H.
    + assert (Hne : actions s <> []) by congruence.
      destruct (sync_dispatch_shape endpoint s Hne) as [st [-> | ->]]; exact H.
  - destruct (result_store s !! self) as [d|] eqn:Hl.
    2:{ rewrite value_missing by exact Hl. exact H. }
    destruct (value_cache d) as [v|] eqn:Hc.
    { rewrite (value_cached endpoint self s d v Hl Hc). exact H. }
    rewrite (value_uncached endpoint self s d Hl Hc).
    assert (H1 : deferred_results (snd (before_read (sync_dispatch endpoint) d s))
                 = seq 0 (length (result_store
                                    (snd (before_read (sync_dispatch endpoint) d s))))).
    { unfold before_read. destruct (_ <=? _)%nat; [|exact H].
      destruct (actions s) as [|a acts] eqn:Ha.
      + rewrite sync_dispatch_empty by exact Ha. exact H.
      + assert (Hne : actions s <> []) by congruence.
        destruct (sync_dispatch_shape endpoint s Hne) as [st [-> | ->]]; exact H. }
    destruct (fst (before_read (sync_dispatch endpoint) d s)); simpl; auto.
    destruct (future_store _ !! _future d) as [[|[v|e]]|]; simpl; auto.
    rewrite length_alter. exact H1.
Qed.

(** A coordinator that is only used synchronously never forgets a handle:
    [deferred_results] holds every handle ever queued, in queue order,
    however many flushes have completed (only the drain of
    [async_dispatch] clears that list). *)
Theorem sync_use_retains_every_handle (ops : list op) (v : Z) (aa : bool) :
  forallb is_sync_op ops = true ->
  deferred_results (run endpoint ops (init v aa))
  = seq 0 (length (result_store (run endpoint ops (init v aa)))).
Proof.
  assert (Hgen : forall s, forallb is_sync_op ops = true -> retains_all s ->
            retains_all (run endpoint ops s)).
  { induction ops as [|o ops' IH]; intros s Hq Hs; [exact Hs|].
    simpl in Hq. apply andb_true_iff in Hq as [Ho Hq].
    apply (IH (exec endpoint o s) Hq). apply retains_all_exec; assumption. }
  intros Hq. apply (Hgen (init v aa) Hq). reflexivity.
Qed.

(** A failed flush loses no call: when a flush does not run to its end,
    it has raised (transport error, error reply, a reply that cannot be
    decoded or parsed, count mismatch) and its calls keep their places in
    the queue; the next flush that is answered well, possibly after more
    calls were queued behind them, resolves each of the earlier handles
    with the envelope at its old position. *)
Theorem failed_calls_are_answered_by_the_next_flush
    (s : state) (more : list op) (top : dict) (envs : list dict) :
  reachable endpoint s ->
  actions s <> [] ->
  fst (sync_dispatch endpoint s) <> Return tt ->
  forallb is_queue_op more = true ->
  let s1 := run endpoint more (snd (sync_dispatch endpoint s)) in
  endpoint (length (sent s1)) (composite s1) = Body (JObj top) ->
  parse_response top = Val (JList (JObj <$> envs)) ->
  length envs = length (actions s1) ->
  (exists e, sync_dispatch endpoint s = (Raise e, flushing s))
  /\ length (actions s1) = length (actions s) + length more
  /\ forall K p d env,
       result_store s !! p = Some d ->
       futures s !! K = Some (_future d) ->
       envs !! K = Some env ->
       fst (value endpoint p (snd (sync_dispatch endpoint s1)))
       = result_of (parse_response env).
Proof.
  intros Hreach Hne Hfail Hq s1 Hep Htop Hlen.
  pose proof (reachable_inv endpoint s Hreach) as Hinv.
  assert (Hs : snd (sync_dispatch endpoint s) = flushing s).
  { revert Hfail. rewrite sync_dispatch_spec by assumption.
    destruct (reply endpoint s) as [os| | | |]; cbn [continue]; try reflexivity.
    unfold settle. destruct (_ =? _)%nat; simpl; [congruence|reflexivity]. }
  pose proof (keeps_sync_dispatch endpoint s Hinv) as [Hinv0 _].
  pose proof (keeps_run endpoint more _ Hinv0) as [Hinv1 _]. fold s1 in Hinv1.
  destruct (queue_run_effect more (snd (sync_dispatch endpoint s)) Hq)
    as (_ & _ & _ & Hact & _ & [new Hfut] & Hres).
  fold s1 in Hact, Hfut, Hres. rewrite Hs in Hact, Hfut, Hres. simpl in Hact, Hfut, Hres.
  split.
  { pose proof (sync_dispatch_ends s Hinv) as Hend. revert Hend Hfail Hs.
    destruct (sync_dispatch endpoint s) as [[[]|e| | |] s0]; cbn [fst snd];
      intros Hend Hfail Hs; try contradiction.
    exists e. rewrite Hs. reflexivity. }
  split; [exact Hact|].
  intros K p d env Hl HK Henv.
  apply (flush_then_read endpoint s1 top envs K p d env [] Hinv1 Hep Htop Hlen).
  - apply Hres. exact Hl.
  - rewrite Hfut. apply lookup_app_l_Some. exact HK.
  - exact Henv.
Qed.



Lemma parse_each_total items :
  Forall (fun item => parse_raises item = false) items ->
  exists os, parse_each items = Returns os.
Proof.
  induction 1 as [|item items Hitem _ [os IH]]; simpl; [eauto|].
  destruct (parse_raises_false item Hitem) as (o & -> & _). rewrite IH. eauto.
Qed.

(** Error isolation, as far as the code has it: when [parse_response]
    raises on no item of the composite reply (every item is an object, a
    string or a list, except the list of the two strings [error] and
    [result]), what the handle at position [K] gives depends on the item at
    position [K] alone.  An object that has not exactly the two fields, and
    any string or list, makes that handle raise the protocol error; an
    object with a non-null [error] makes it raise the application error;
    an object with a null [error] makes it return its [result].  The flush
    may be any operation that flushes. *)
Theorem parsed_items_are_isolated (s : state) (top : dict) (items : list json) :
  reachable endpoint s ->
  endpoint (length (sent s)) (composite s) = Body (JObj top) ->
  parse_response top = Val (JList items) ->
  length items = length (actions s) ->
  Forall (fun item => parse_raises item = false) items ->
  forall K p d item,
    result_store s !! p = Some d ->
    futures s !! K = Some (_future d) ->
    items !! K = Some item ->
    forall o ops,
      flushes s o ->
      let got := fst (value endpoint p (run endpoint ops (exec endpoint o s))) in
      match item with
      | JObj env =>
          (~ two_fields env -> exists msg, got = Raise (UnexpectedAPIResponse msg))
          /\ (forall err res,
                length env = 2 -> dict_get "error" env = Some err ->
                dict_get "result" env = Some res -> err <> JNull ->
                got = Raise (APIException err))
          /\ (forall res,
                length env = 2 -> dict_get "error" env = Some JNull ->
                dict_get "result" env = Some res ->
                got = Return res)
      | _ => exists msg, got = Raise (UnexpectedAPIResponse msg)
      end.
Proof.
  intros Hreach Hep Htop Hlen Hall K p d item Hl HK Hitem o ops Ho got.
  pose proof (reachable_inv endpoint s Hreach) as Hinv.
  destruct (parse_each_total items Hall) as [os Hos].
  assert (Hr : reply endpoint s = Return os)
    by (rewrite (reply_items endpoint s top items Hep Htop), Hos; reflexivity).
  assert (Hlen' : length os = length (actions s))
    by (rewrite (parse_each_length _ _ Hos); exact Hlen).
  destruct (parse_each_lookup_any items os K item Hos Hitem) as (r & Hr1 & Hr2).
  pose proof (flush_sets endpoint s os K _ r o Hinv Hr Hlen' HK Hr2 Ho) as Hdone.
  destruct (keeps_exec endpoint o s Hinv) as [Hinv1 Hext1].
  destruct (ext_handle _ _ Hext1 p d Hl) as (d' & Hl' & Hf' & _).
  rewrite <- Hf' in Hdone.
  assert (Hgot : got = result_of r)
    by (apply (read_after endpoint _ p d' r ops Hinv1 Hl' Hdone)).
  rewrite Hgot. clear Hgot got.
  pose proof (Forall_lookup_1 _ _ _ _ Hall Hitem) as Hb. simpl in Hb.
  destruct (parse_raises_false item Hb) as (r' & Hr' & Hshape).
  assert (r' = r) by congruence. subst r'.
  destruct item as [|b|n|str|l|env]; try discriminate Hb.
  - destruct Hshape as [msg ->]. simpl. eauto.
  - destruct Hshape as [msg ->]. simpl. eauto.
  - subst r. split; [|split].
    + intros Hbad. destruct (parse_response_malformed env Hbad) as [msg ->]. simpl. eauto.
    + intros err res H2 He Hres Hnn.
      rewrite (parse_response_two_fields env err res H2 He Hres).
      destruct err; try reflexivity. contradiction.
    + intros res H2 He Hres.
      rewrite (parse_response_two_fields env JNull res H2 He Hres). reflexivity.
Qed.

(** A reply that cannot be decoded or parsed fails the flush as a whole,
    with an exception that is not the library's: a body that is not JSON
    raises [JSONDecodeError] from [response.json()]; a JSON body on which
    [parse_response] raises, and a [result] that cannot be iterated, raise
    [TypeError].  The exception is raised to whoever triggered the flush;
    no future of the batch is resolved and the calls stay queued. *)
Theorem undecodable_reply_fails_the_flush (s : state) (e : exn) :
  reachable endpoint s ->
  actions s <> [] ->
  (endpoint (length (sent s)) (composite s) = NotJSON /\ e = JSONDecodeError)
  \/ (exists response,
        endpoint (length (sent s)) (composite s) = Body response
        /\ parse_raises response = true /\ e = TypeError)
  \/ (exists top v,
        endpoint (length (sent s)) (composite s) = Body (JObj top)
        /\ parse_response top = Val v /\ not_iterable v = true /\ e = TypeError) ->
  sync_dispatch endpoint s = (Raise e, flushing s)
  /\ (forall fuel, async_dispatch endpoint (S fuel) s = (Raise e, flushing s))
  /\ (forall p d, result_store s !! p = Some d ->
        dispatch_group s <= _batcher_group d ->
        value endpoint p s = (Raise e, flushing s))
  /\ actions (flushing s) = actions s
  /\ forall f, f ∈ futures s -> future_store (flushing s) !! f = Some Pending.
Proof.
  intros Hreach Hne Hcase.
  pose proof (reachable_inv endpoint s Hreach) as Hinv.
  assert (Hr : reply endpoint s = Raise e).
  { rewrite reply_unfold.
    destruct Hcase as [[-> ->]|[(response & -> & Hb & ->)|(top & v & -> & Htop & Hv & ->)]].
    - reflexivity.
    - rewrite (parse_raises_true response Hb). reflexivity.
    - cbn [parse_response_any]. rewrite Htop.
      destruct v; try discriminate Hv; reflexivity. }
  destruct (failed_flush endpoint s e Hinv Hne (or_introl Hr)) as (H1 & H2 & H3).
  destruct (flushing_keeps_batch s Hinv) as (H4 & _ & _ & _ & H6).
  auto.
Qed.

End Coordinator_facts.

(** ** Further properties of the codec and of a direct call *)

Section Codec_facts.

Variable endpoint : nat -> json -> http_outcome.

(** A request envelope determines the call: two envelopes are equal only
    for the same version, the same action and the same parameters. *)
Theorem make_request_injective (v v' : Z) (a a' : string) (ps ps' : dict) :
  make_request v a ps = make_request v' a' ps' -> v = v' /\ a = a' /\ ps = ps'.
Proof.
  destruct ps as [|[k x] ps], ps' as [|[k' x'] ps']; simpl; intros H;
    inversion H; subst; auto.
Qed.


(** [parse_response] gives a plain result exactly for an envelope with two
    entries, an [error] entry that is null and a [result] entry, and that
    result is what it gives; it gives the application error exactly for an
    envelope with two entries, a [result] entry and an [error] entry that
    is not null, whatever that value is.  Everything else is the protocol
    error: the shape is checked before the [error] entry is looked at. *)
Theorem parse_response_cases (response : dict) :
  (forall v, parse_response response = Val v
             <-> length response = 2
                 /\ dict_get "error" response = Some JNull
                 /\ dict_get "result" response = Some v)
  /\ (forall err, parse_response response = Exc (APIException err)
                  <-> length response = 2
                      /\ dict_get "error" response = Some err /\ err <> JNull
                      /\ is_Some (dict_get "result" response))
  /\ (~ two_fields response
      <-> exists msg, parse_response response = Exc (UnexpectedAPIResponse msg)).
Proof.
  unfold parse_response, two_fields.
  destruct (length response =? 2)%nat eqn:Hl.
  2:{ apply Nat.eqb_neq in Hl. simpl. repeat split; try discriminate;
        try (intros (H & _); contradiction); eauto.
      intros _ (H & _). contradiction. }
  apply Nat.eqb_eq in Hl. simpl.
  destruct (dict_get "error" response) as [err|] eqn:He.
  2:{ repeat split; try discriminate; try (intros (_ & H & _); discriminate); eauto.
      intros _ (_ & [x H] & _). discriminate. }
  destruct (dict_get "result" response) as [res|] eqn:Hr.
  2:{ repeat split; try discriminate; try (intros (_ & _ & H); discriminate); eauto.
      - intros (_ & _ & _ & [x H]). discriminate.
      - intros _ (_ & _ & [x H]). discriminate. }
  split; [|split].
  - intros v. destruct err; split; try discriminate;
      try (intros (_ & H & _); discriminate).
    + intros [= <-]. auto.
    + intros (_ & _ & [= <-]). reflexivity.
  - intros err'. destruct err; split; try discriminate;
      try (intros (_ & [= <-] & Hn & _); try reflexivity; contradiction);
      intros [= <-]; repeat split; eauto; discriminate.
  - split.
    + intros Hn. exfalso. apply Hn. eauto.
    + intros [msg H]. destruct err; discriminate.
Qed.


End Codec_facts.


(** ** Properties of [Note.to_anki_params] *)

Section Note_facts.

Variable Resource : Type.
Variable schema_dump : Resource -> dict.
Variable options_dump : DuplicateScopeOptions -> json.

Lemma dict_get_set_eq k v d : dict_get k (dict_set k v d) = Some v.
Proof.
  induction d as [|[k' v'] d IH]; simpl.
  - rewrite String.eqb_refl. reflexivity.
  - destruct (String.eqb k k') eqn:E; simpl.
    + rewrite String.eqb_refl. reflexivity.
    + rewrite E. exact IH.
Qed.

Lemma dict_get_set_ne k k' v d : k' <> k -> dict_get k' (dict_set k v d) = dict_get k' d.
Proof.
  intros Hne. induction d as [|[k0 v0] d IH]; simpl.
  - destruct (String.eqb k' k) eqn:E; [apply String.eqb_eq in E; contradiction|reflexivity].
  - destruct (String.eqb k k0) eqn:E; simpl.
    + apply String.eqb_eq in E. subst k0.
      destruct (String.eqb k' k) eqn:E'; [apply String.eqb_eq in E'; contradiction|].
      reflexivity.
    + destruct (String.eqb k' k0); [reflexivity|exact IH].
Qed.

Lemma dict_set_fresh k v (d : dict) : k ∉ d.*1 -> dict_set k v d = d ++ [(k, v)].
Proof.
  induction d as [|[k' v'] d IH]; simpl; [reflexivity|].
  intros Hn. apply not_elem_of_cons in Hn as [Hne Hn].
  destruct (String.eqb k k') eqn:E; [apply String.eqb_eq in E; contradiction|].
  rewrite IH by exact Hn. reflexivity.
Qed.

Lemma set_fields_nil name (l : list Resource) :
  set_fields name (Resource_dump schema_dump l) = [] <-> l = [].
Proof. destruct l; simpl; split; intros; congruence. Qed.

(** What the loop of [to_anki_params] has collected, from any start. *)
Lemma collected (fs : list (string * FieldContent Resource)) (acc : contents) :
  audio_content (fold_left (collect schema_dump) fs acc)
  = audio_content acc
    ++ flat_map (fun item => set_fields (fst item)
                               (Resource_dump schema_dump (audio (snd item)))) fs
  /\ video_content (fold_left (collect schema_dump) fs acc)
     = video_content acc
       ++ flat_map (fun item =>
                      match audio (snd item) with
                      | [] => []
                      | _ :: _ => set_fields (fst item)
                                    (Resource_dump schema_dump (video (snd item)))
                      end) fs
  /\ image_content (fold_left (collect schema_dump) fs acc)
     = image_content acc
       ++ flat_map (fun item => set_fields (fst item)
                                  (Resource_dump schema_dump (images (snd item)))) fs.
Proof.
  revert acc. induction fs as [|[name c] fs IH]; intros acc.
  - simpl. rewrite !app_nil_r. auto.
  - cbn [fold_left flat_map fst snd]. destruct (IH (collect schema_dump acc (name, c)))
      as (H1 & H2 & H3). rewrite H1, H2, H3. clear IH H1 H2 H3.
    unfold collect. cbn [audio_content video_content image_content].
    destruct (audio c) as [|a la]; destruct (images c) as [|i li]; simpl;
      rewrite <- ?(assoc_L (++)); auto.
Qed.

(** The media lists of the parameters: [audio] and [picture] hold, field
    after field, the dumps of the field's audio and image resources; but
    [video] holds the dumps of a field's video resources only for the
    fields that also have audio resources.  A note none of whose fields
    has audio sends no video at all. *)
Theorem to_anki_params_media (n : Note Resource) :
  dict_get "audio" (to_anki_params schema_dump options_dump n)
  = Some (JList (JObj <$>
       flat_map (fun item => set_fields (fst item)
                               (Resource_dump schema_dump (audio (snd item))))
         (field_content n)))
  /\ dict_get "picture" (to_anki_params schema_dump options_dump n)
     = Some (JList (JObj <$>
          flat_map (fun item => set_fields (fst item)
                                  (Resource_dump schema_dump (images (snd item))))
            (field_content n)))
  /\ dict_get "video" (to_anki_params schema_dump options_dump n)
     = Some (JList (JObj <$>
          flat_map (fun item =>
                      match audio (snd item) with
                      | [] => []
                      | _ :: _ => set_fields (fst item)
                                    (Resource_dump schema_dump (video (snd item)))
                      end)
            (field_content n)))
  /\ ((forall item, item ∈ field_content n -> audio (snd item) = []) ->
      dict_get "video" (to_anki_params schema_dump options_dump n) = Some (JList [])).
Proof.
  destruct (collected (field_content n) (mkContents [] [] [] [])) as (H1 & H2 & H3).
  simpl in H1, H2, H3.
  assert (Hv : dict_get "video" (to_anki_params schema_dump options_dump n)
               = Some (JList (JObj <$>
                    flat_map (fun item =>
                                match audio (snd item) with
                                | [] => []
                                | _ :: _ => set_fields (fst item)
                                              (Resource_dump schema_dump (video (snd item)))
                                end)
                      (field_content n))))
    by (unfold to_anki_params; simpl; rewrite H2; reflexivity).
  split; [unfold to_anki_params; simpl; rewrite H1; reflexivity|].
  split; [unfold to_anki_params; simpl; rewrite H3; reflexivity|].
  split; [exact Hv|].
  intros Hno. rewrite Hv. do 2 f_equal. clear Hv H1 H2 H3. revert Hno.
  generalize (field_content n) as fs.
  induction fs as [|item fs IH]; intros Hno; [reflexivity|].
  cbn [flat_map]. rewrite (Hno item) by left. simpl. apply IH.
  intros item' Hin. apply Hno. right. exact Hin.
Qed.

Lemma media_lists (n : Note Resource) :
  dict_get "audio" (to_anki_params schema_dump options_dump n)
  = Some (JList (JObj <$>
       flat_map (fun item => set_fields (fst item)
                               (Resource_dump schema_dump (audio (snd item))))
         (field_content n)))
  /\ dict_get "picture" (to_anki_params schema_dump options_dump n)
     = Some (JList (JObj <$>
          flat_map (fun item => set_fields (fst item)
                                  (Resource_dump schema_dump (images (snd item))))
            (field_content n)))
  /\ dict_get "video" (to_anki_params schema_dump options_dump n)
     = Some (JList (JObj <$>
          flat_map (fun item =>
                      match audio (snd item) with
                      | [] => []
                      | _ :: _ => set_fields (fst item)
                                    (Resource_dump schema_dump (video (snd item)))
                      end)
            (field_content n))).
Proof.
  destruct (collected (field_content n) (mkContents [] [] [] [])) as (H1 & H2 & H3).
  simpl in H1, H2, H3. unfold to_anki_params. simpl. rewrite H1, H2, H3. auto.
Qed.

Lemma set_fields_entry (entry : dict) name (l : list Resource) :
  In entry (set_fields name (Resource_dump schema_dump l)) ->
  exists r, r ∈ l
    /\ dict_get "fields" entry = Some (JList [JStr name])
    /\ forall k, k <> "fields" -> dict_get k entry = dict_get k (schema_dump r).
Proof.
  intros Hin. unfold set_fields, Resource_dump in Hin.
  rewrite map_map in Hin. apply in_map_iff in Hin as (r & <- & Hr).
  exists r. split; [apply list_elem_of_In; exact Hr|].
  split; [apply dict_get_set_eq|].
  intros k Hk. apply dict_get_set_ne. exact Hk.
Qed.

(** Every element of the [audio], [picture] and [video] lists of the
    parameters is a dictionary that comes from a resource of that kind of
    a field of the note (for [video], a field that also has audio): it is
    that resource's dump with the key [fields] set to the one-element list
    of the field's name, and every other key as dumped. *)
Theorem to_anki_params_names_the_field
    (n : Note Resource) (key : string) (l : list json) (x : json) :
  key = "audio" \/ key = "picture" \/ key = "video" ->
  dict_get key (to_anki_params schema_dump options_dump n) = Some (JList l) ->
  x ∈ l ->
  exists entry name c r,
    x = JObj entry
    /\ (name, c) ∈ field_content n
    /\ (key = "audio" /\ r ∈ audio c
        \/ key = "picture" /\ r ∈ images c
        \/ key = "video" /\ r ∈ video c /\ audio c <> [])
    /\ dict_get "fields" entry = Some (JList [JStr name])
    /\ forall k, k <> "fields" -> dict_get k entry = dict_get k (schema_dump r).
Proof.
  destruct (media_lists n) as (Ha & Hp & Hv).
  intros [->|[->| ->]] Hget Hx.
  - rewrite Ha in Hget. injection Hget as <-.
    apply list_elem_of_fmap in Hx as (entry & -> & Hin).
    apply list_elem_of_In, in_flat_map in Hin as ([name c] & Hitem & Hin).
    apply list_elem_of_In in Hitem. cbn [fst snd] in Hin.
    destruct (set_fields_entry entry name _ Hin) as (r & H1 & H2 & H3).
    exists entry, name, c, r. auto 10.
  - rewrite Hp in Hget. injection Hget as <-.
    apply list_elem_of_fmap in Hx as (entry & -> & Hin).
    apply list_elem_of_In, in_flat_map in Hin as ([name c] & Hitem & Hin).
    apply list_elem_of_In in Hitem. cbn [fst snd] in Hin.
    destruct (set_fields_entry entry name _ Hin) as (r & H1 & H2 & H3).
    exists entry, name, c, r. auto 10.
  - rewrite Hv in Hget. injection Hget as <-.
    apply list_elem_of_fmap in Hx as (entry & -> & Hin).
    apply list_elem_of_In, in_flat_map in Hin as ([name c] & Hitem & Hin).
    apply list_elem_of_In in Hitem. cbn [fst snd] in Hin.
    destruct (audio c) as [|a la] eqn:Haud; [destruct Hin|].
    destruct (set_fields_entry entry name _ Hin) as (r & H1 & H2 & H3).
    exists entry, name, c, r.
    split; [reflexivity|]. split; [exact Hitem|]. split; [|auto].
    right. right. rewrite Haud. auto.
Qed.

Lemma collected_text (fs : list (string * FieldContent Resource)) (acc : contents) :
  NoDup ((text_content acc).*1 ++ fs.*1) ->
  text_content (fold_left (collect schema_dump) fs acc)
  = text_content acc ++ map (fun item => (fst item, JStr (text (snd item)))) fs.
Proof.
  revert acc. induction fs as [|[name c] fs IH]; intros acc Hnd.
  - simpl. rewrite app_nil_r. reflexivity.
  - cbn [fold_left]. csimpl in Hnd.
    assert (Hfresh : name ∉ (text_content acc).*1).
    { apply NoDup_app in Hnd as (_ & Hdis & _). intros Hin.
      apply (Hdis name Hin). left. }
    assert (Htc : text_content (collect schema_dump acc (name, c))
                  = text_content acc ++ [(name, JStr (text c))]).
    { unfold collect. cbn [text_content]. apply dict_set_fresh. exact Hfresh. }
    rewrite IH.
    + rewrite Htc, <- (assoc_L (++)). reflexivity.
    + rewrite Htc, fmap_app. csimpl. rewrite <- (assoc_L (++)). simpl.
      apply NoDup_app in Hnd as (H1 & H2 & H3). apply NoDup_cons in H3 as [H3 H4].
      apply NoDup_app. split; [exact H1|]. split; [|apply NoDup_cons; auto].
      intros x Hx. apply H2. exact Hx.
Qed.

(** The [fields] entry of the parameters maps each field name to the
    field's text, in the order of the note's fields (a Python dictionary
    has each field name once). *)
Theorem to_anki_params_texts (n : Note Resource) :
  NoDup (field_content n).*1 ->
  dict_get "fields" (to_anki_params schema_dump options_dump n)
  = Some (JObj (map (fun item => (fst item, JStr (text (snd item)))) (field_content n))).
Proof.
  intros Hnd. unfold to_anki_params. simpl.
  rewrite (collected_text (field_content n) (mkContents [] [] [] [])); [reflexivity|].
  simpl. exact Hnd.
Qed.

(** The parameters of a basic card: the four fields [Front], [Back],
    [Image] (with the empty text) and [Examples], the model [Basic], the
    default duplicate-scope options of the deck, no audio, no video, and
    one picture per image, each naming the field [Image]. *)
Theorem basic_card_params (deck front back examples : string)
    (imgs : option (list Resource)) (tgs : option (list string)) :
  to_anki_params schema_dump options_dump
    (make_basic_card deck front back examples imgs tgs)
  = [("deckName", JStr deck);
     ("modelName", JStr "Basic");
     ("fields", JObj [("Front", JStr front); ("Back", JStr back);
                      ("Image", JStr ""); ("Examples", JStr examples)]);
     ("tags", JList (JStr <$> default [] tgs));
     ("options", options_dump (mkDuplicateScopeOptions deck ALL_DECKS true true));
     ("audio", JList []);
     ("video", JList []);
     ("picture",
      JList (JObj <$> map (dict_set "fields" (JList [JStr "Image"]))
                        (map schema_dump (default [] imgs))))].
Proof.
  unfold to_anki_params, make_basic_card. simpl.
  destruct (default [] imgs) as [|i l]; reflexivity.
Qed.

End Note_facts.


(** ** Properties of the client *)

Section Client_facts.

Variable endpoint : nat -> json -> http_outcome.

Lemma queued_effect calls s :
  version (queued calls s) = version s
  /\ auto_await (queued calls s) = auto_await s
  /\ actions (queued calls s) = actions s ++ envelopes (version s) calls
  /\ sent (queued calls s) = sent s
  /\ dispatch_group (queued calls s) = dispatch_group s
  /\ length (result_store (queued calls s)) = length (result_store s) + length calls
  /\ (inv s -> inv (queued calls s)).
Proof.
  revert s. induction calls as [|[a ps] calls IH]; intros s.
  - simpl. rewrite app_nil_r. repeat apply conj; auto.
  - cbn [queued fold_left fst snd].
    change (fold_left _ calls ?x) with (queued calls x).
    destruct (IH (snd (add_action (version s) a ps s))) as (H1 & H2 & H3 & H4 & H5 & H6 & H7).
    rewrite H1, H2, H3, H4, H5, H6. rewrite add_action_eq. simpl.
    rewrite <- (assoc_L (++)), length_app. simpl.
    repeat apply conj; auto; try lia.
    intros Hinv. apply H7. apply inv_add_action. exact Hinv.
Qed.

Lemma Client_invoke_batched a ps s :
  Client_invoke endpoint a ps (mkClient true s)
  = (CReturn (Deferred (length (result_store s))),
     mkClient true (snd (add_action (version s) a ps s))).
Proof. reflexivity. Qed.

Lemma Client_invoke_direct a ps s :
  Client_invoke endpoint a ps (mkClient false s)
  = (match fst (invoke_no_batch endpoint a ps s) with
     | Return v => CReturn (Plain v)
     | Raise e => CRaise (Raised e)
     | Blocked => CBlocked
     | OutOfFuel => COutOfFuel
     | Unmodelled => CUnmodelled
     end,
     mkClient false (set_sent (sent s ++ [make_request (version s) a ps]) s)).
Proof.
  unfold Client_invoke, cbind, lift, invoke_no_batch. cbn [batcher coordinator].
  destruct (endpoint _ _) as [u|c t| |response]; try reflexivity.
  destruct (parse_response_any response) as [[v|e]|e]; reflexivity.
Qed.

Lemma invoke_all_batched calls s :
  invoke_all endpoint calls (mkClient true s)
  = (CReturn (Deferred <$> seq (length (result_store s)) (length calls)),
     mkClient true (queued calls s)).
Proof.
  revert s. induction calls as [|[a ps] calls IH]; intros s; [reflexivity|].
  cbn [invoke_all]. unfold cbind at 1. rewrite Client_invoke_batched.
  unfold cbind at 1. rewrite IH. unfold cret.
  cbn [queued fold_left fst snd length seq]. rewrite add_action_eq. simpl.
  rewrite length_app. simpl. rewrite Nat.add_1_r. reflexivity.
Qed.

Lemma inv_new_coordinator ver log : inv (set_sent log (init ver true)).
Proof.
  pose proof (inv_init ver true) as [Hlen Hnd Hp Hgr Hc Hca He Hd Hfu].
  constructor; simpl in *; eauto.
Qed.

Lemma install_new ver log :
  install (new_client ver log) = (CReturn tt, mkClient true (set_sent log (init ver true))).
Proof. reflexivity. Qed.

(** The part of [send_batch] after the manager is installed. *)
Lemma send_batch_rest (old_batcher : bool) (calls : list (string * dict)) (s0 : state) :
  cbind (invoke_all endpoint calls) (fun r =>
  cbind (dispatch_batcher endpoint) (fun _ =>
  cbind (set_batcher old_batcher) (fun _ =>
  cret r))) (mkClient true s0)
  = (match fst (sync_dispatch endpoint (queued calls s0)) with
     | Return _ => CReturn (Deferred <$> seq (length (result_store s0)) (length calls))
     | Raise e => CRaise (Raised e)
     | Blocked => CBlocked
     | OutOfFuel => COutOfFuel
     | Unmodelled => CUnmodelled
     end,
     mkClient (match fst (sync_dispatch endpoint (queued calls s0)) with
               | Return _ => old_batcher
               | _ => true
               end)
       (snd (sync_dispatch endpoint (queued calls s0)))).
Proof.
  unfold cbind at 1. rewrite invoke_all_batched.
  unfold cbind, dispatch_batcher, lift, set_batcher, cret. cbn [batcher coordinator].
  destruct (sync_dispatch endpoint (queued calls s0)) as [[[]|e| | |] s1]; reflexivity.
Qed.

Lemma flush_of_queued (calls : list (string * dict)) (s0 : state) :
  actions s0 ++ envelopes (version s0) calls <> [] ->
  sent (snd (sync_dispatch endpoint (queued calls s0)))
  = sent s0 ++ [make_request (version s0) "multi"
                  [("actions", JList (actions s0 ++ envelopes (version s0) calls))]].
Proof.
  intros Hne. destruct (queued_effect calls s0) as (Hv & _ & Ha & Hs & _ & _ & _).
  assert (Hq : actions (queued calls s0) <> []) by (rewrite Ha; exact Hne).
  destruct (sync_dispatch_shape endpoint _ Hq) as [st [-> | ->]];
    simpl; unfold composite; rewrite Hs, Hv, Ha; reflexivity.
Qed.

(** [send_batch] on a client that is not batching: the calls of the block
    go out at the exit, in one request that carries their envelopes in
    order, and nothing is sent before.  When the flush returns, the block
    gives the handles and the client stops batching; when the flush raises,
    the exception leaves the block and the client goes on batching (the
    line that restores [self.batcher] is not reached). *)
Theorem send_batch_flushes_at_exit
    (ver : Z) (log : list json) (calls : list (string * dict)) :
  calls <> [] ->
  let done := send_batch endpoint (invoke_all endpoint calls) (new_client ver log) in
  sent (coordinator (snd done))
  = log ++ [make_request ver "multi" [("actions", JList (envelopes ver calls))]]
  /\ match fst done with
     | CReturn handles =>
         handles = Deferred <$> seq 0 (length calls) /\ batcher (snd done) = false
     | CRaise e => batcher (snd done) = true
     | _ => True
     end.
Proof.
  intros Hne done.
  assert (Hdone : done = cbind (invoke_all endpoint calls) (fun r =>
                         cbind (dispatch_batcher endpoint) (fun _ =>
                         cbind (set_batcher false) (fun _ =>
                         cret r))) (mkClient true (set_sent log (init ver true))))
    by reflexivity.
  rewrite send_batch_rest in Hdone. rewrite Hdone. cbn [fst snd coordinator batcher].
  split.
  - rewrite flush_of_queued; [reflexivity|].
    simpl. destruct calls; [contradiction|discriminate].
  - destruct (fst (sync_dispatch endpoint _)); auto.
Qed.

(** [send_batch] inside a batch: the exit of the inner block flushes
    everything queued so far, the calls of the outer block with its own,
    and the client goes on batching after it. *)
Theorem inner_send_batch_flushes_the_outer_calls
    (s : state) (calls : list (string * dict)) :
  actions s ++ envelopes (version s) calls <> [] ->
  let done := send_batch endpoint (invoke_all endpoint calls) (mkClient true s) in
  sent (coordinator (snd done))
  = sent s ++ [make_request (version s) "multi"
                 [("actions", JList (actions s ++ envelopes (version s) calls))]]
  /\ batcher (snd done) = true.
Proof.
  intros Hne done.
  assert (Hdone : done = cbind (invoke_all endpoint calls) (fun r =>
                         cbind (dispatch_batcher endpoint) (fun _ =>
                         cbind (set_batcher true) (fun _ =>
                         cret r))) (mkClient true s))
    by reflexivity.
  rewrite send_batch_rest in Hdone. rewrite Hdone. cbn [fst snd coordinator batcher].
  split.
  - apply flush_of_queued. exact Hne.
  - destruct (fst (sync_dispatch endpoint _)); reflexivity.
Qed.

(** [make_batch] on a client that is not batching: the block gives the
    handles, sends nothing, and at its exit the client stops batching while
    the calls stay queued; the first read of any of the handles then sends
    them all, in one request. *)
Theorem make_batch_defers_the_calls
    (ver : Z) (log : list json) (calls : list (string * dict)) :
  let done := make_batch (invoke_all endpoint calls) (new_client ver log) in
  fst done = CReturn (Deferred <$> seq 0 (length calls))
  /\ batcher (snd done) = false
  /\ sent (coordinator (snd done)) = log
  /\ actions (coordinator (snd done)) = envelopes ver calls
  /\ forall p, p < length calls ->
       sent (snd (value endpoint p (coordinator (snd done))))
       = log ++ [make_request ver "multi" [("actions", JList (envelopes ver calls))]].
Proof.
  intros done.
  assert (Hdone : done = (CReturn (Deferred <$> seq 0 (length calls)),
                          mkClient false (queued calls (set_sent log (init ver true))))).
  { unfold done, make_batch. cbn [batcher new_client].
    unfold cbind at 1. rewrite install_new.
    unfold cbind at 1. rewrite invoke_all_batched. reflexivity. }
  rewrite Hdone. cbn [fst snd batcher coordinator].
  set (s0 := set_sent log (init ver true)).
  destruct (queued_effect calls s0) as (Hv & _ & Ha & Hs & Hg & Hl & Hinv).
  simpl in Hv, Ha, Hs, Hg, Hl.
  repeat apply conj; auto.
  intros p Hp.
  assert (Hlt : p < length (result_store (queued calls s0))) by (rewrite Hl; exact Hp).
  apply lookup_lt_is_Some in Hlt as [d Hd].
  destruct (value_effect endpoint (queued calls s0) p d
              (Hinv (inv_new_coordinator ver log)) Hd) as [Hst _].
  destruct Hst as [Hsent _]; [rewrite Hg; lia|].
  rewrite Hsent. unfold composite. rewrite Hs, Hv, Ha. reflexivity.
Qed.

(** An exception inside a batch block ends batching badly: when a wrapper
    called in the block rejects its argument, the [ValueError] leaves the
    block ([make_batch] or [send_batch] alike) with the calls made before
    it still queued, nothing sent, and [self.batcher] still set; a call
    made on the client after the block is then queued too, and sends
    nothing. *)
Theorem failed_block_keeps_batching
    (ver : Z) (log : list json) (calls : list (string * dict)) (cards : json) :
  is_list_of is_int cards = false ->
  let body := cbind (invoke_all endpoint calls)
                (fun _ => get_ease_factors (Client_invoke endpoint) cards) in
  let after := mkClient true (queued calls (set_sent log (init ver true))) in
  make_batch body (new_client ver log)
  = (CRaise (ValueError "Argument 'cards' must be a list of integers."), after)
  /\ send_batch endpoint body (new_client ver log)
     = (CRaise (ValueError "Argument 'cards' must be a list of integers."), after)
  /\ sent (coordinator after) = log
  /\ forall action params,
       fst (Client_invoke endpoint action params after) = CReturn (Deferred (length calls))
       /\ sent (coordinator (snd (Client_invoke endpoint action params after))) = log.
Proof.
  intros Hbad body after.
  assert (Hbody : body (mkClient true (set_sent log (init ver true)))
                  = (CRaise (ValueError "Argument 'cards' must be a list of integers."),
                     after)).
  { unfold body. unfold cbind at 1. rewrite invoke_all_batched.
    unfold get_ease_factors. rewrite Hbad. reflexivity. }
  destruct (queued_effect calls (set_sent log (init ver true)))
    as (_ & _ & _ & Hs & _ & Hl & _). simpl in Hs, Hl.
  split; [|split; [|split]].
  - unfold make_batch. cbn [batcher new_client]. unfold cbind at 1. rewrite install_new.
    unfold cbind at 1. rewrite Hbody. reflexivity.
  - unfold send_batch. cbn [batcher new_client]. unfold cbind at 1. rewrite install_new.
    unfold cbind at 1. rewrite Hbody. reflexivity.
  - exact Hs.
  - intros action params. unfold after. rewrite Client_invoke_batched.
    cbn [fst snd coordinator]. rewrite Hl. split; [reflexivity|].
    rewrite add_action_eq. simpl. exact Hs.
Qed.

(** [get_ease_factors] on a client that is not batching sends its one
    request and then checks the reply: it returns a list of booleans and
    nulls, and raises [UnexpectedAPIResponse] for a list that holds an
    integer, whatever the integer.  On a batching client, and on the batch
    itself, it queues the call and returns the handle with no check. *)
Theorem get_ease_factors_accepts_booleans_only
    (s : state) (cards : json) (response : dict) (factors : list json) :
  is_list_of is_int cards = true ->
  endpoint (length (sent s)) (make_request (version s) "getEaseFactors" [("cards", cards)])
  = Body (JObj response) ->
  parse_response response = Val (JList factors) ->
  let direct := get_ease_factors (Client_invoke endpoint) cards (mkClient false s) in
  snd direct
  = mkClient false
      (set_sent (sent s ++ [make_request (version s) "getEaseFactors" [("cards", cards)]]) s)
  /\ (forallb is_bool_or_none factors = true ->
      fst direct = CReturn (Plain (JList factors)))
  /\ (forall n, JNum n ∈ factors ->
      fst direct = CRaise (Raised (UnexpectedAPIResponse
        "API response for 'getEaseFactors' must be a list of integers or None")))
  /\ get_ease_factors (Client_invoke endpoint) cards (mkClient true s)
     = (CReturn (Deferred (length (result_store s))),
        mkClient true (snd (add_action (version s) "getEaseFactors" [("cards", cards)] s)))
  /\ forall b,
       get_ease_factors BatchManager_invoke cards (mkClient b s)
       = (CReturn (Deferred (length (result_store s))),
          mkClient b (snd (add_action (version s) "getEaseFactors" [("cards", cards)] s))).
Proof.
  intros Hok Hep Hparse direct.
  assert (Hinvoke : invoke_no_batch endpoint "getEaseFactors" [("cards", cards)] s
                    = (Return (JList factors),
                       set_sent (sent s ++ [make_request (version s) "getEaseFactors"
                                              [("cards", cards)]]) s)).
  { unfold invoke_no_batch. rewrite Hep. cbn [parse_response_any]. rewrite Hparse.
    reflexivity. }
  assert (Hdirect : direct
                    = (if forallb is_bool_or_none factors
                       then CReturn (Plain (JList factors))
                       else CRaise (Raised (UnexpectedAPIResponse
                         "API response for 'getEaseFactors' must be a list of integers or None")),
                       mkClient false
                         (set_sent (sent s ++ [make_request (version s) "getEaseFactors"
                                                 [("cards", cards)]]) s))).
  { unfold direct, get_ease_factors. rewrite Hok. cbn [negb].
    unfold cbind at 1. rewrite Client_invoke_direct, Hinvoke. cbn [fst snd].
    unfold is_list_of at 1. destruct (forallb is_bool_or_none factors); reflexivity. }
  rewrite Hdirect. cbn [fst snd].
  split; [reflexivity|]. split; [intros ->; reflexivity|]. split; [|split].
  - intros n Hin.
    assert (Hf : forallb is_bool_or_none factors = false).
    { destruct (forallb is_bool_or_none factors) eqn:E; [|reflexivity].
      rewrite forallb_forall in E. apply list_elem_of_In in Hin.
      apply E in Hin. discriminate. }
    rewrite Hf. reflexivity.
  - unfold get_ease_factors. rewrite Hok. cbn [negb].
    unfold cbind at 1. rewrite Client_invoke_batched. reflexivity.
  - intros b. unfold get_ease_factors. rewrite Hok. cbn [negb].
    unfold cbind at 1. unfold BatchManager_invoke. unfold cbind at 1. unfold lift.
    cbn [coordinator batcher]. rewrite invoke_eq, add_action_eq. reflexivity.
Qed.

(** [set_ease_factors] checks its arguments before anything else: on a
    client that is not batching it sends its request exactly when both
    arguments are lists of integers of the same length, and otherwise
    raises [ValueError] and leaves the client as it was. *)
Theorem set_ease_factors_checks_before_sending (s : state) (cards ease_factors : json) :
  let done := set_ease_factors (Client_invoke endpoint) cards ease_factors
                (mkClient false s) in
  if is_list_of is_int cards && is_list_of is_int ease_factors
     && (len cards =? len ease_factors)%nat
  then
    sent (coordinator (snd done))
    = sent s ++ [make_request (version s) "setEaseFactors"
                   [("cards", cards); ("easeFactors", ease_factors)]]
  else
    exists msg, done = (CRaise (ValueError msg), mkClient false s).
Proof.
  intros done. unfold done, set_ease_factors.
  destruct (is_list_of is_int cards); cbn [negb andb]; [|eexists; reflexivity].
  destruct (is_list_of is_int ease_factors); cbn [negb andb]; [|eexists; reflexivity].
  destruct (len cards =? len ease_factors)%nat; cbn [negb andb]; [|eexists; reflexivity].
  unfold cbind at 1. rewrite Client_invoke_direct.
  destruct (fst (invoke_no_batch endpoint _ _ s)) as [v|e| | |]; try reflexivity.
  destruct (negb (is_list_of is_bool v)); reflexivity.
Qed.

End Client_facts.


(** ** The further properties at concrete inputs *)

Lemma batch_lists_stay_paired_witness :
  length (actions three_queued) = length (futures three_queued).
Proof.
  apply (batch_lists_stay_paired answers_three three_queued).
  apply reachable_run, reach_init.
Defined.

Lemma generation_counts_requests_witness :
  length (sent (run answers_three (queue_three ++ [OpValue 1]) (init 6 true)))
  = dispatch_group (run answers_three (queue_three ++ [OpValue 1]) (init 6 true)).
Proof.
  apply (generation_counts_requests answers_three).
  apply reachable_run, reach_init.
Defined.

Lemma queuing_is_lazy_witness :
  sent (run answers_three queue_three (init 6 true)) = sent (init 6 true).
Proof.
  apply (queuing_is_lazy answers_three queue_three (init 6 true)). reflexivity.
Defined.

Lemma outcomes_are_permanent_witness :
  dispatch_group three_queued
  <= dispatch_group (run answers_three [OpSyncDispatch] three_queued).
Proof.
  apply (outcomes_are_permanent answers_three three_queued [OpSyncDispatch]).
  apply reachable_run, reach_init.
Defined.


Lemma pending_after_failed_flush_witness :
  value fails_once 1 two_failed = (Raise InvalidStateError, two_failed).
Proof.
  apply (pending_after_failed_flush fails_once two_failed 1 (mkDeferredResult 1 0 None None)).
  - apply reachable_run, reach_init.
  - reflexivity.
  - simpl. lia.
  - reflexivity.
Defined.

Lemma async_dispatch_without_drain_is_sync_dispatch_witness :
  async_dispatch answers_three 2 two_queued_no_drain
  = sync_dispatch answers_three two_queued_no_drain.
Proof.
  apply (async_dispatch_without_drain_is_sync_dispatch answers_three two_queued_no_drain 1).
  reflexivity.
Defined.

Lemma sync_use_retains_every_handle_witness :
  deferred_results (run answers_three (queue_three ++ [OpSyncDispatch]) (init 6 true))
  = seq 0 (length (result_store
                     (run answers_three (queue_three ++ [OpSyncDispatch]) (init 6 true)))).
Proof.
  apply (sync_use_retains_every_handle answers_three (queue_three ++ [OpSyncDispatch]) 6 true).
  reflexivity.
Defined.

(** Two calls fail with the endpoint; a third is queued; the next flush
    is answered with three envelopes: the second of the failed calls gets
    the second envelope, the error [boom]. *)
Lemma failed_calls_are_answered_by_the_next_flush_witness :
  fst (value fails_once 1
         (snd (sync_dispatch fails_once
                 (run fails_once queue_one
                    (snd (sync_dispatch fails_once
                            (run fails_once queue_two (init 6 true))))))))
  = Raise (APIException (JStr "boom")).
Proof.
  pose proof (failed_calls_are_answered_by_the_next_flush fails_once
                (run fails_once queue_two (init 6 true)) queue_one
                (envelope JNull (JList (JObj <$> three_envelopes))) three_envelopes) as H.
  destruct H as (_ & _ & H).
  - apply reachable_run, reach_init.
  - discriminate.
  - discriminate.
  - reflexivity.
  - reflexivity.
  - reflexivity.
  - reflexivity.
  - exact (H 1 1 (mkDeferredResult 1 0 None None) (envelope (JStr "boom") JNull)
             eq_refl eq_refl eq_refl).
Defined.

Lemma make_request_injective_witness :
  6%Z = 6%Z /\ "deckNames" = "deckNames" /\ @nil (string * json) = [].
Proof.
  apply (make_request_injective 6 6 "deckNames" "deckNames" [] []). reflexivity.
Defined.

Lemma to_anki_params_names_the_field_witness :
  exists entry name c r,
    JObj [("filename", JStr "a.mp3"); ("fields", JList [JStr "Front"])] = JObj entry
    /\ (name, c) ∈ field_content sample_note
    /\ ("audio" = "audio" /\ r ∈ audio c
        \/ "audio" = "picture" /\ r ∈ images c
        \/ "audio" = "video" /\ r ∈ video c /\ audio c <> [])
    /\ dict_get "fields" entry = Some (JList [JStr name])
    /\ forall k, k <> "fields" -> dict_get k entry = dict_get k (file_dump r).
Proof.
  apply (to_anki_params_names_the_field string file_dump deck_dump sample_note "audio"
           [JObj [("filename", JStr "a.mp3"); ("fields", JList [JStr "Front"])]]).
  - left. reflexivity.
  - reflexivity.
  - left.
Defined.

Lemma to_anki_params_texts_witness :
  dict_get "fields" (to_anki_params file_dump deck_dump sample_note)
  = Some (JObj [("Front", JStr "question"); ("Back", JStr "answer")]).
Proof.
  apply (to_anki_params_texts string file_dump deck_dump sample_note).
  simpl. apply NoDup_cons. split; [|apply NoDup_singleton].
  intros Hin. apply list_elem_of_singleton in Hin. discriminate.
Defined.

Lemma send_batch_flushes_at_exit_witness :
  sent (coordinator (snd (send_batch answers_three (invoke_all answers_three block_of_two)
                            (new_client 6 []))))
  = [] ++ [make_request 6 "multi" [("actions", JList (envelopes 6 block_of_two))]].
Proof.
  pose proof (send_batch_flushes_at_exit answers_three 6 [] block_of_two) as H.
  cbv zeta in H. destruct H as [H _]; [discriminate|]. exact H.
Defined.

Lemma inner_send_batch_flushes_the_outer_calls_witness :
  batcher (snd (send_batch answers_three (invoke_all answers_three block_of_two)
                  (mkClient true three_queued))) = true.
Proof.
  pose proof (inner_send_batch_flushes_the_outer_calls answers_three three_queued
                block_of_two) as H.
  cbv zeta in H. destruct H as [_ H]; [discriminate|]. exact H.
Defined.

Lemma failed_block_keeps_batching_witness :
  make_batch (cbind (invoke_all answers_three block_of_two)
                (fun _ => get_ease_factors (Client_invoke answers_three) (JStr "1")))
    (new_client 6 [])
  = (CRaise (ValueError "Argument 'cards' must be a list of integers."),
     mkClient true (queued block_of_two (set_sent [] (init 6 true)))).
Proof.
  pose proof (failed_block_keeps_batching answers_three 6 [] block_of_two (JStr "1")
                eq_refl) as H.
  cbv zeta in H. destruct H as [H _]. exact H.
Defined.

(** The reply holds the ease factors 2500 and 4100: the direct call
    raises. *)
Lemma get_ease_factors_accepts_booleans_only_witness :
  fst (get_ease_factors (Client_invoke answers_factors) (JList [JNum 1; JNum 2])
         (mkClient false (init 6 true)))
  = CRaise (Raised (UnexpectedAPIResponse
      "API response for 'getEaseFactors' must be a list of integers or None")).
Proof.
  pose proof (get_ease_factors_accepts_booleans_only answers_factors (init 6 true)
                (JList [JNum 1; JNum 2]) (envelope JNull (JList [JNum 2500; JNum 4100]))
                [JNum 2500; JNum 4100] eq_refl eq_refl eq_refl) as H.
  destruct H as (_ & _ & H & _).
  apply (H 2500%Z). left.
Defined.


(** The video of the field [Back], which has no audio, is left out; the
    video of the field [Front] is sent. *)
Lemma to_anki_params_media_witness :
  dict_get "video" (to_anki_params file_dump deck_dump sample_note)
  = Some (JList [JObj [("filename", JStr "v.mp4"); ("fields", JList [JStr "Front"])]]).
Proof.
  destruct (to_anki_params_media string file_dump deck_dump sample_note)
    as (_ & _ & H & _).
  exact H.
Defined.

Lemma make_batch_defers_the_calls_witness :
  sent (snd (value answers_three 1
               (coordinator (snd (make_batch (invoke_all answers_three block_of_two)
                                    (new_client 6 []))))))
  = [] ++ [make_request 6 "multi" [("actions", JList (envelopes 6 block_of_two))]].
Proof.
  pose proof (make_batch_defers_the_calls answers_three 6 [] block_of_two) as H.
  cbv zeta in H. destruct H as (_ & _ & _ & _ & H).
  apply (H 1). simpl. lia.
Defined.

(** The first item of the reply is an object with one field, the second
    a well-formed envelope: the first handle raises the protocol error and
    the second returns its result. *)
Lemma parsed_items_are_isolated_witness :
  fst (value answers_short_item 1
         (run answers_short_item [OpValue 0]
            (exec answers_short_item OpSyncDispatch two_queued_short_item)))
  = Return (JNum 2).
Proof.
  assert (Hall : Forall (fun item => parse_raises item = false)
                   [JObj [("result", JNum 1)]; JObj (envelope JNull (JNum 2))])
    by (repeat constructor).
  pose proof (parsed_items_are_isolated answers_short_item two_queued_short_item
                (envelope JNull
                   (JList [JObj [("result", JNum 1)]; JObj (envelope JNull (JNum 2))]))
                [JObj [("result", JNum 1)]; JObj (envelope JNull (JNum 2))]
                (reachable_run answers_short_item queue_two (init 6 true)
                   (reach_init answers_short_item 6 true))
                eq_refl eq_refl eq_refl Hall
                1 1 (mkDeferredResult 1 0 None None) (JObj (envelope JNull (JNum 2)))
                eq_refl eq_refl eq_refl OpSyncDispatch [OpValue 0] I) as H.
  cbv zeta in H. destruct H as (_ & _ & H).
  exact (H (JNum 2) eq_refl eq_refl eq_refl).
Defined.

Lemma undecodable_reply_fails_the_flush_witness :
  sync_dispatch answers_html (run answers_html queue_two (init 6 true))
  = (Raise JSONDecodeError, flushing (run answers_html queue_two (init 6 true))).
Proof.
  pose proof (undecodable_reply_fails_the_flush answers_html
                (run answers_html queue_two (init 6 true)) JSONDecodeError) as H.
  destruct H as (H & _).
  - apply reachable_run, reach_init.
  - discriminate.
  - left. split; reflexivity.
  - exact H.
Defined.
